(** * MemoryPool: a three-tier allocator (thread cache, central cache, page cache)

    A shallow embedding of the C++ sources of the [MemoryPoolv2] namespace
    ([Common.h], [ThreadCache.cpp], [CentralCache.cpp], [PageCache.cpp]) and
    the properties of the design document that can be stated over it,
    followed by the pool of [MemoryPoolv1] and by the span tracking of the
    earlier [CentralCache.cpp], with properties of the code itself.

    Conventions of the embedding:
    - [size_t] is a [Z] in [0, 2^64); arithmetic that the source performs on
      [size_t] is wrapped with [wrap], except where a guard of the source
      keeps it in range.
    - [void*] is a [Z]; [nullptr] is [0].  Addresses inside one mapped region
      are computed without wrap-around, as C++ pointer arithmetic is; the
      address that [deallocateSpan] computes from the page count of its
      caller is wrapped to 64 bits.
    - Raw memory is a finite map from an address to the machine word stored
      there ([*reinterpret_cast<void**>(p)]); a word never written reads [0].
      Reads and writes outside mapped memory are not flagged.
    - [std::array<T, FREE_LIST_SIZE>] and [std::map<K, V>] are [gmap Z _];
      an array slot that was never written reads [0] (the arrays are
      zero-initialised).
    - [Span*] is the key of the descriptor in a store of descriptors;
      dereferencing a pointer with no descriptor is undefined behaviour and
      makes the operation return [None].
    - The system calls are answers given to the functions: what [mmap]
      returns is the argument [os], what [malloc] returns the argument
      [heap].
    - A [while] over a linked list of descriptors takes a bound [fuel] on
      its iterations; the loops over raw memory are bounded by the counters
      of the source.
    - Spin locks, the mutex and exceptions are not part of the embedding:
      a call is one critical section. *)

From stdpp Require Import base numbers option list gmap fin_maps.
From Stdlib Require Import ZArith Lia.

Local Open Scope Z_scope.

(** ** Common.h *)

Definition ALIGNMENT : Z := 8.
Definition MAX_BYTES : Z := 256 * 1024.
Definition FREE_LIST_SIZE : Z := MAX_BYTES / ALIGNMENT.

(** Arithmetic on [size_t]. *)
Definition wrap (x : Z) : Z := x mod 2 ^ 64.

(** [~(ALIGNMENT - 1)] as a [size_t]. *)
Definition align_mask : Z := wrap (Z.lnot (ALIGNMENT - 1)).

Module SizeClass.

(** [return (bytes + ALIGNMENT - 1) & ~(ALIGNMENT - 1);] *)
Definition roundUp (bytes : Z) : Z :=
  Z.land (wrap (bytes + ALIGNMENT - 1)) align_mask.

(** [bytes = std::max(bytes, ALIGNMENT);
     return (bytes + ALIGNMENT - 1) / ALIGNMENT - 1;] *)
Definition getIndex (bytes : Z) : Z :=
  let bytes := Z.max bytes ALIGNMENT in
  wrap (wrap (bytes + ALIGNMENT - 1) / ALIGNMENT - 1).

End SizeClass.

(** ** ThreadCache::getBatchNum *)

Definition MAX_BATCH_SIZE : Z := 4 * 1024.

Definition baseNum (size : Z) : Z :=
  if size <=? 32 then 64
  else if size <=? 64 then 32
  else if size <=? 128 then 16
  else if size <=? 256 then 8
  else if size <=? 512 then 4
  else if size <=? 1024 then 2
  else 1.

Definition getBatchNum (size : Z) : Z :=
  let maxNum := Z.max 1 (MAX_BATCH_SIZE / size) in
  Z.max 1 (Z.min (baseNum size) maxNum).

(** The batch count as the design document words it:
    [max(1, min(base, CENTRAL_BATCH_MAX_BYTES / blockSize))]. *)
Definition CENTRAL_BATCH_MAX_BYTES : Z := 4096.

Definition compute_batch (blockSize : Z) : Z :=
  let base :=
    if decide (blockSize <= 32) then 64
    else if decide (blockSize <= 64) then 32
    else if decide (blockSize <= 128) then 16
    else if decide (blockSize <= 256) then 8
    else if decide (blockSize <= 512) then 4
    else if decide (blockSize <= 1024) then 2
    else 1 in
  Z.max 1 (Z.min base (CENTRAL_BATCH_MAX_BYTES / blockSize)).

(** ** Raw memory *)

(** [*reinterpret_cast<void**>(p)] as an rvalue. *)
Definition load (m : gmap Z Z) (p : Z) : Z := default 0 (m !! p).

(** [*reinterpret_cast<void**>(p) = v]. *)
Definition store (m : gmap Z Z) (p v : Z) : gmap Z Z := <[p := v]> m.

(** [memset(p, 0, size)]: every word of [[p, p + size)] reads [0] again. *)
Definition memset0 (m : gmap Z Z) (p size : Z) : gmap Z Z :=
  filter (λ kv, ¬ (p <= kv.1 < p + size)) m.

(** An array slot ([std::array] of pointers or counters, zero-initialised). *)
Definition slot (a : gmap Z Z) (i : Z) : Z := default 0 (a !! i).

(** ** PageCache.h, PageCache.cpp *)

Definition PAGE_SIZE : Z := 4096.

Record Span := mkSpan { pageAddr : Z; numPages : Z; next : Z }.

Definition set_numPages (n : Z) (s : Span) : Span :=
  {| pageAddr := pageAddr s; numPages := n; next := next s |}.
Definition set_next (p : Z) (s : Span) : Span :=
  {| pageAddr := pageAddr s; numPages := numPages s; next := p |}.

(** [freeSpans_] maps a page count to the head of the list of free spans of
    that count, [spanMap_] maps a start address to the descriptor of the
    span; [descr] holds the descriptors that [new Span] created (what a
    [Span*] points to). *)
Record PageCache := mkPageCache {
  freeSpans_ : gmap Z Z;
  spanMap_ : gmap Z Z;
  descr : gmap Z Span
}.

(** [new Span]: an address that holds no descriptor yet, never null. *)
Definition new_Span (d : gmap Z Span) : Z :=
  1 + foldr Z.max 0 (elements (dom d)).

(** [std::map::lower_bound]: the entry with the smallest key that is not
    less than [n]. *)
Fixpoint min_entry (l : list (Z * Z)) : option (Z * Z) :=
  match l with
  | [] => None
  | kv :: l =>
      match min_entry l with
      | None => Some kv
      | Some kv' => if decide (kv.1 <= kv'.1) then Some kv else Some kv'
      end
  end.

Definition lower_bound (n : Z) (m : gmap Z Z) : option (Z * Z) :=
  min_entry (filter (λ kv, n <= kv.1) (map_to_list m)).

(** [PageCache::systemAlloc].  [os] is what [mmap] answers: [None] for
    [MAP_FAILED], [Some p] for a mapping at [p]. *)
Definition systemAlloc (os : option Z) (nPages : Z) (m : gmap Z Z)
  : Z * gmap Z Z :=
  let size := wrap (nPages * PAGE_SIZE) in
  match os with
  | None => (0, m)
  | Some ptr => (ptr, memset0 m ptr size)
  end.

(** [PageCache::allocateSpan]. *)
Definition allocateSpan (os : option Z) (nPages : Z) (pc : PageCache)
  (m : gmap Z Z) : option (Z * PageCache * gmap Z Z) :=
  match lower_bound nPages (freeSpans_ pc) with
  | Some (key, span) =>
      sp ← descr pc !! span;
      (* remove the span from the list freeSpans_[it->first] *)
      let fs1 := if decide (next sp ≠ 0)
                 then <[key := next sp]> (freeSpans_ pc)
                 else delete key (freeSpans_ pc) in
      let '(fs2, d2) :=
        if decide (nPages < numPages sp) then
          let newSpan := new_Span (descr pc) in
          let newAddr := pageAddr sp + wrap (nPages * PAGE_SIZE) in
          let newPages := numPages sp - nPages in
          (* auto& list = freeSpans_[newSpan->numPages];
             newSpan->next = list; list = newSpan; *)
          let list := slot fs1 newPages in
          (<[newPages := newSpan]> fs1,
           <[span := set_numPages nPages sp]>
             (<[newSpan := mkSpan newAddr newPages list]> (descr pc)))
        else (fs1, descr pc) in
      Some (pageAddr sp,
            {| freeSpans_ := fs2;
               spanMap_ := <[pageAddr sp := span]> (spanMap_ pc);
               descr := d2 |},
            m)
  | None =>
      let '(memory, m') := systemAlloc os nPages m in
      if decide (memory = 0) then Some (0, pc, m')
      else
        let span := new_Span (descr pc) in
        Some (memory,
              {| freeSpans_ := freeSpans_ pc;
                 spanMap_ := <[memory := span]> (spanMap_ pc);
                 descr := <[span := mkSpan memory nPages 0]> (descr pc) |},
              m')
  end.

(** The search of [deallocateSpan] for [nextSpan] behind the head of its
    free list: [prev] walks the list; when [prev->next] is [nextSpan] it is
    unlinked.  [fuel] bounds the iterations of the [while]; [None] is a
    dereference of a pointer without descriptor, or no fuel left. *)
Fixpoint unlink_after (fuel : nat) (d : gmap Z Span) (prev nextSpan : Z)
  : option (gmap Z Span * bool) :=
  match fuel with
  | O => None
  | S fuel =>
      p ← d !! prev;
      if decide (next p = 0) then Some (d, false)
      else if decide (next p = nextSpan) then
        ns ← d !! nextSpan;
        Some (<[prev := set_next (next ns) p]> d, true)
      else unlink_after fuel d (next p) nextSpan
  end.

(** The first half of [PageCache::deallocateSpan]: probe the span that
    starts right behind the returned one and merge it when it is free. *)
Definition merge_right (fuel : nat) (span nextAddr : Z) (pc : PageCache)
  : option (PageCache * bool) :=
  match spanMap_ pc !! nextAddr with
  | None => Some (pc, false)
  | Some nextSpan =>
      ns ← descr pc !! nextSpan;
      (* auto& nextList = freeSpans_[nextSpan->numPages]; *)
      let nextList := slot (freeSpans_ pc) (numPages ns) in
      let fs0 := <[numPages ns := nextList]> (freeSpans_ pc) in
      '(fs1, d1, found) ←
        (if decide (nextList = nextSpan) then
           Some (<[numPages ns := next ns]> fs0, descr pc, true)
         else if decide (nextList ≠ 0) then
           '(d1, found) ← unlink_after fuel (descr pc) nextList nextSpan;
           Some (fs0, d1, found)
         else Some (fs0, descr pc, false));
      if (found : bool) then
        sp ← d1 !! span;
        ns' ← d1 !! nextSpan;
        Some ({| freeSpans_ := fs1;
                 spanMap_ := delete nextAddr (spanMap_ pc);
                 descr := delete nextSpan
                   (<[span := set_numPages (wrap (numPages sp + numPages ns')) sp]> d1) |},
              true)
      else
        Some ({| freeSpans_ := fs1; spanMap_ := spanMap_ pc; descr := d1 |},
              false)
  end.

(** The second half: push the span on the list of its page count. *)
Definition push_free (span : Z) (pc : PageCache) : option PageCache :=
  sp ← descr pc !! span;
  let list := slot (freeSpans_ pc) (numPages sp) in
  Some {| freeSpans_ := <[numPages sp := span]> (freeSpans_ pc);
          spanMap_ := spanMap_ pc;
          descr := <[span := set_next list sp]> (descr pc) |}.

(** [PageCache::deallocateSpan].  [nPages] is what the caller passes, not
    the page count of the descriptor: the product [numPages * PAGE_SIZE] is
    taken in [size_t], and the sum with the 64-bit pointer wraps around as
    well, so that [nextAddr] can lie below [ptr]. *)
Definition deallocateSpan (fuel : nat) (ptr nPages : Z) (pc : PageCache)
  : option PageCache :=
  match spanMap_ pc !! ptr with
  | None => Some pc
  | Some span =>
      let nextAddr := wrap (ptr + wrap (nPages * PAGE_SIZE)) in
      '(pc1, _) ← merge_right fuel span nextAddr pc;
      push_free span pc1
  end.

(** ** CentralCache.h, CentralCache.cpp *)

Definition SPAN_PAGES : Z := 8.

(** What the central and the page tier share between all threads: the heads
    [centralFreeList_], the page cache, and raw memory.  The spin lock
    [locks_[index]] and the mutex of the page cache make each call one
    critical section; they carry no data and are not part of the state. *)
Record Shared := mkShared {
  centralFreeList_ : gmap Z Z;
  pageCache : PageCache;
  memory : gmap Z Z
}.

(** [CentralCache::fetchFromPageCache]. *)
Definition fetchFromPageCache (os : option Z) (size : Z) (pc : PageCache)
  (m : gmap Z Z) : option (Z * PageCache * gmap Z Z) :=
  let nPages := wrap (size + PAGE_SIZE - 1) / PAGE_SIZE in
  if decide (size <= SPAN_PAGES * PAGE_SIZE)
  then allocateSpan os SPAN_PAGES pc m
  else allocateSpan os nPages pc m.

(** The [for] loops of [fetchRange] that thread a chain through the span:
    block [i - 1] gets the address of block [i] as its first word, for [n]
    consecutive values of [i]. *)
Fixpoint link_blocks (n : nat) (start size i : Z) (m : gmap Z Z) : gmap Z Z :=
  match n with
  | O => m
  | S n =>
      link_blocks n start size (i + 1)
        (store m (start + (i - 1) * size) (start + i * size))
  end.

(** [while(current && count < batchNum) { prev = current;
    current = *current; count++; }] with [n = batchNum - count];
    the result is [(current, prev)]. *)
Fixpoint take_blocks (n : nat) (m : gmap Z Z) (current prev : Z) : Z * Z :=
  match n with
  | O => (current, prev)
  | S n =>
      if decide (current = 0) then (current, prev)
      else take_blocks n m (load m current) current
  end.

(** [size_t totalBlocks = (SPAN_PAGES * PageCache::PAGE_SIZE) / size;] *)
Definition totalBlocks (size : Z) : Z := (SPAN_PAGES * PAGE_SIZE) / size.

(** The carving of a fresh span in [fetchRange]: the chain for the caller,
    then the chain that stays in the central list. *)
Definition carve (start size batchNum : Z) (index : Z) (cfl m : gmap Z Z)
  : gmap Z Z * gmap Z Z :=
  let totalBlocks := totalBlocks size in
  let allocBlocks := Z.min batchNum totalBlocks in
  let m1 :=
    if decide (1 < allocBlocks) then
      store (link_blocks (Z.to_nat (allocBlocks - 1)) start size 1 m)
            (start + (allocBlocks - 1) * size) 0
    else m in
  if decide (allocBlocks < totalBlocks) then
    let remainStart := start + allocBlocks * size in
    let m2 :=
      store (link_blocks (Z.to_nat (totalBlocks - (allocBlocks + 1)))
                         start size (allocBlocks + 1) m1)
            (start + (totalBlocks - 1) * size) 0 in
    (<[index := remainStart]> cfl, m2)
  else (cfl, m1).

(** [CentralCache::fetchRange]. *)
Definition fetchRange (os : option Z) (index batchNum : Z) (sh : Shared)
  : option (Z * Shared) :=
  if decide (FREE_LIST_SIZE <= index ∨ batchNum = 0) then Some (0, sh)
  else
    let result := slot (centralFreeList_ sh) index in
    if decide (result = 0) then
      let size := (index + 1) * ALIGNMENT in
      '(result, pc, m) ← fetchFromPageCache os size (pageCache sh) (memory sh);
      if decide (result = 0) then
        Some (0, {| centralFreeList_ := centralFreeList_ sh;
                    pageCache := pc; memory := m |})
      else
        let '(cfl, m') := carve result size batchNum index (centralFreeList_ sh) m in
        Some (result, {| centralFreeList_ := cfl; pageCache := pc; memory := m' |})
    else
      let '(current, prev) :=
        take_blocks (Z.to_nat batchNum) (memory sh) result 0 in
      let m' := if decide (prev ≠ 0) then store (memory sh) prev 0
                else memory sh in
      Some (result, {| centralFreeList_ := <[index := current]> (centralFreeList_ sh);
                       pageCache := pageCache sh; memory := m' |}).

(** The walk of [returnRange] to the last block of the returned chain:
    [end] moves to its successor while the successor is not null and
    [count < size]; [n = size - count]. *)
Fixpoint last_block (n : nat) (m : gmap Z Z) (end_ : Z) : Z :=
  match n with
  | O => end_
  | S n =>
      if decide (load m end_ = 0) then end_
      else last_block n m (load m end_)
  end.

(** [CentralCache::returnRange]. *)
Definition returnRange (start size index : Z) (sh : Shared) : Shared :=
  if decide (start = 0 ∨ FREE_LIST_SIZE <= index) then sh
  else
    let end_ := last_block (Z.to_nat (size - 1)) (memory sh) start in
    let current := slot (centralFreeList_ sh) index in
    {| centralFreeList_ := <[index := start]> (centralFreeList_ sh);
       pageCache := pageCache sh;
       memory := store (memory sh) end_ current |}.

(** ** ThreadCache.h, ThreadCache.cpp *)

Record ThreadCache := mkThreadCache {
  freeList_ : gmap Z Z;
  freeListSize_ : gmap Z Z
}.

Definition THREAD_RETURN_THRESHOLD : Z := 64.

(** [ThreadCache::shouldReturnToCentralCache]. *)
Definition shouldReturnToCentralCache (index : Z) (tc : ThreadCache) : bool :=
  bool_decide (THREAD_RETURN_THRESHOLD < slot (freeListSize_ tc) index).

(** [ThreadCache::fetchFromCentralCache]. *)
Definition fetchFromCentralCache (os : option Z) (index : Z)
  (tc : ThreadCache) (sh : Shared) : option (Z * ThreadCache * Shared) :=
  let size := wrap ((index + 1) * ALIGNMENT) in
  let batchNum := getBatchNum size in
  '(start, sh') ← fetchRange os index batchNum sh;
  if decide (start = 0) then Some (0, tc, sh')
  else
    let sizes := <[index := wrap (slot (freeListSize_ tc) index + batchNum)]>
                   (freeListSize_ tc) in
    let heads := if decide (1 < batchNum)
                 then <[index := load (memory sh') start]> (freeList_ tc)
                 else freeList_ tc in
    Some (start, {| freeList_ := heads; freeListSize_ := sizes |}, sh').

(** [ThreadCache::allocate].  [heap] is what [malloc] answers on the bypass
    path. *)
Definition allocate (heap : Z) (os : option Z) (size : Z)
  (tc : ThreadCache) (sh : Shared) : option (Z * ThreadCache * Shared) :=
  let size := if decide (size = 0) then ALIGNMENT else size in
  if decide (MAX_BYTES < size) then Some (heap, tc, sh)
  else
    let alignedSize := SizeClass.roundUp size in
    let index := SizeClass.getIndex alignedSize in
    let ptr := slot (freeList_ tc) index in
    if decide (ptr ≠ 0) then
      Some (ptr,
            {| freeList_ := <[index := load (memory sh) ptr]> (freeList_ tc);
               freeListSize_ :=
                 <[index := wrap (slot (freeListSize_ tc) index - 1)]>
                   (freeListSize_ tc) |},
            sh)
    else fetchFromCentralCache os index tc sh.

(** The [for] of [returnToCentralCache] that walks to the split node, with
    [n] iterations left; the result is [(splitNode, returnNum)]. *)
Fixpoint split_walk (n : nat) (m : gmap Z Z) (batchNum i splitNode returnNum : Z)
  : Z * Z :=
  match n with
  | O => (splitNode, returnNum)
  | S n =>
      let splitNode := load m splitNode in
      if decide (splitNode = 0) then (0, wrap (batchNum - (i + 1)))
      else split_walk n m batchNum (i + 1) splitNode returnNum
  end.

(** [ThreadCache::returnToCentralCache]. *)
Definition returnToCentralCache (start size : Z) (tc : ThreadCache)
  (sh : Shared) : ThreadCache * Shared :=
  let index := SizeClass.getIndex size in
  let alignedSize := SizeClass.roundUp size in
  let batchNum := slot (freeListSize_ tc) index in
  if decide (batchNum <= 1) then (tc, sh)
  else
    let keepNum := Z.max (batchNum / 4) 1 in
    let returnNum := batchNum - keepNum in
    let '(splitNode, returnNum) :=
      split_walk (Z.to_nat (keepNum - 1)) (memory sh) batchNum 0 start returnNum in
    if decide (splitNode ≠ 0) then
      let nextNode := load (memory sh) splitNode in
      let sh1 := {| centralFreeList_ := centralFreeList_ sh;
                    pageCache := pageCache sh;
                    memory := store (memory sh) splitNode 0 |} in
      let tc' := {| freeList_ := <[index := start]> (freeList_ tc);
                    freeListSize_ := <[index := keepNum]> (freeListSize_ tc) |} in
      if decide (0 < returnNum ∧ nextNode ≠ 0)
      then (tc', returnRange nextNode (wrap (returnNum * alignedSize)) index sh1)
      else (tc', sh1)
    else (tc, sh).

(** [ThreadCache::deallocate]. *)
Definition deallocate (ptr size : Z) (tc : ThreadCache) (sh : Shared)
  : ThreadCache * Shared :=
  if decide (MAX_BYTES < size) then (tc, sh)
  else
    let index := SizeClass.getIndex size in
    let sh1 := {| centralFreeList_ := centralFreeList_ sh;
                  pageCache := pageCache sh;
                  memory := store (memory sh) ptr (slot (freeList_ tc) index) |} in
    let tc1 := {| freeList_ := <[index := ptr]> (freeList_ tc);
                  freeListSize_ :=
                    <[index := wrap (slot (freeListSize_ tc) index + 1)]>
                      (freeListSize_ tc) |} in
    if shouldReturnToCentralCache index tc1
    then returnToCentralCache (slot (freeList_ tc1) index) size tc1 sh1
    else (tc1, sh1).

(** ** Initial state and vocabulary of the specification *)

(** The page cache, the central cache and a thread cache before any call:
    empty maps, null heads, zero counters. *)
Definition emptyPageCache : PageCache :=
  {| freeSpans_ := ∅; spanMap_ := ∅; descr := ∅ |}.

Definition emptyShared : Shared :=
  {| centralFreeList_ := ∅; pageCache := emptyPageCache; memory := ∅ |}.

Definition emptyThreadCache : ThreadCache :=
  {| freeList_ := ∅; freeListSize_ := ∅ |}.

(** [linked succ h l]: starting at the pointer [h] and following [succ],
    one meets exactly the nodes [l], none of them null, and then null. *)
Fixpoint linked (succ : Z → option Z) (h : Z) (l : list Z) : Prop :=
  match l with
  | [] => h = 0
  | a :: l' => h = a ∧ a ≠ 0 ∧ ∃ n, succ a = Some n ∧ linked succ n l'
  end.

(** [chain m h l]: starting at [h], memory [m] holds a singly linked list
    whose blocks are, in order, the addresses [l]: the first word of each
    block is the address of the next one, the first word of the last block
    is null ([h] itself is null when [l] is empty). *)
Definition chain (m : gmap Z Z) : Z → list Z → Prop :=
  linked (λ a, Some (load m a)).

(** [span_list d h l]: the same for a list of span descriptors, linked by
    their field [next]. *)
Definition span_list (d : gmap Z Span) : Z → list Z → Prop :=
  linked (λ a, next <$> d !! a).

(** The list of free spans of [k] pages. *)
Definition free_list (pc : PageCache) (k : Z) (l : list Z) : Prop :=
  span_list (descr pc) (slot (freeSpans_ pc) k) l.

(** The page cache is well formed: null is not a descriptor, every entry
    of [spanMap_] points to a descriptor, and every slot of [freeSpans_] is
    the head of a list that ends in null after fewer than [fuel] spans. *)
Definition page_wf (fuel : nat) (pc : PageCache) : Prop :=
  descr pc !! 0 = None
  ∧ (∀ a span, spanMap_ pc !! a = Some span → is_Some (descr pc !! span))
  ∧ (∀ k, ∃ l, free_list pc k l ∧ (length l < fuel)%nat).

(** The span is in no free list. *)
Definition not_free (pc : PageCache) (span : Z) : Prop :=
  ∀ k l, free_list pc k l → span ∉ l.

(** [spanMap_] holds a descriptor at [nextAddr] and that descriptor is
    linked in the free list of its page count. *)
Definition free_neighbour (pc : PageCache) (nextAddr : Z) : Prop :=
  ∃ nextSpan ns l,
    spanMap_ pc !! nextAddr = Some nextSpan
    ∧ descr pc !! nextSpan = Some ns
    ∧ free_list pc (numPages ns) l
    ∧ nextSpan ∈ l.

(** A page cache that holds one free span of 16 pages at address 65536:
    the state after [allocateSpan(16)] was served by the system at that
    address and the span was given back with [deallocateSpan]. *)
Definition pc_free16 : PageCache :=
  {| freeSpans_ := {[ 16 := 1 ]};
     spanMap_ := {[ 65536 := 1 ]};
     descr := {[ 1 := mkSpan 65536 16 0 ]} |}.

(** A page cache with two spans of 8 pages side by side, at 65536 and at
    98304; the second one is free. *)
Definition pc_neighbours : PageCache :=
  {| freeSpans_ := {[ 8 := 2 ]};
     spanMap_ := <[ 98304 := 2 ]> {[ 65536 := 1 ]};
     descr := <[ 2 := mkSpan 98304 8 0 ]> {[ 1 := mkSpan 65536 8 0 ]} |}.

(** The addresses of the blocks [first, first + 1, ...] ([n] of them) of a
    span that starts at [start] and is cut into blocks of [size] bytes. *)
Definition blocks (start size first : Z) (n : nat) : list Z :=
  (λ i, start + i * size) <$> seqZ first (Z.of_nat n).

(** The pages that [fetchFromPageCache] asks the page tier for. *)
Definition pagesReceived (size : Z) : Z :=
  if decide (size <= SPAN_PAGES * PAGE_SIZE) then SPAN_PAGES
  else wrap (size + PAGE_SIZE - 1) / PAGE_SIZE.

(** The address of the first node of a list ([nullptr] for no node). *)
Definition hd_ptr (l : list Z) : Z := default 0 (head l).

(** The nodes met from [h] on, at most [fuel] of them. *)
Fixpoint chain_list (fuel : nat) (m : gmap Z Z) (h : Z) : list Z :=
  match fuel with
  | O => []
  | S fuel => if decide (h = 0) then [] else h :: chain_list fuel m (load m h)
  end.

(** A client that calls [allocate(size)] [n] times in a row; [os] is the
    answer of [mmap] to each request that reaches the system. *)
Fixpoint allocate_n (n : nat) (os : option Z) (size : Z)
  (tc : ThreadCache) (sh : Shared) : option (list Z * ThreadCache * Shared) :=
  match n with
  | O => Some ([], tc, sh)
  | S n =>
      '(p, tc1, sh1) ← allocate 0 os size tc sh;
      '(ps, tc2, sh2) ← allocate_n n os size tc1 sh1;
      Some (p :: ps, tc2, sh2)
  end.

(** A central cache with an empty list for blocks of 2048 bytes, over a
    page cache whose free span of 8 pages at 65536 was used before: its
    first word still holds what the former user stored there. *)
Definition sh_recycled : Shared :=
  {| centralFreeList_ := ∅;
     pageCache := {| freeSpans_ := {[ 8 := 1 ]};
                     spanMap_ := {[ 65536 := 1 ]};
                     descr := {[ 1 := mkSpan 65536 8 0 ]} |};
     memory := {[ 65536 := 4660 ]} |}.

(** A central cache whose list for blocks of 8 bytes holds the three
    blocks 4096, 4104 and 4112. *)
Definition sh_three : Shared :=
  {| centralFreeList_ := {[ 0 := 4096 ]};
     pageCache := emptyPageCache;
     memory := <[ 4096 := 4104 ]> {[ 4104 := 4112 ]} |}.

(** A thread cache whose list for blocks of 8 bytes holds the 16 blocks
    4096, 4104, ..., 4216 with a counter of 64, over an empty central
    cache. *)
Definition sh_sixteen : Shared :=
  {| centralFreeList_ := ∅;
     pageCache := emptyPageCache;
     memory := list_to_map ((λ k, (4096 + k * 8, 4096 + (k + 1) * 8)) <$> seqZ 0 15) |}.

Definition tc_sixteen : ThreadCache :=
  {| freeList_ := {[ 0 := 4096 ]}; freeListSize_ := {[ 0 := 64 ]} |}.

(** The same with 20 blocks, 4096, 4104, ..., 4248. *)
Definition sh_twenty : Shared :=
  {| centralFreeList_ := ∅;
     pageCache := emptyPageCache;
     memory := list_to_map ((λ k, (4096 + k * 8, 4096 + (k + 1) * 8)) <$> seqZ 0 19) |}.

(** ** The allocator as a whole *)

(** One thread cache per thread (a [thread_local] instance, created empty
    at the first use) over the shared tiers.  Calls of different threads
    are interleaved call by call. *)
Record System := mkSystem {
  threads : gmap Z ThreadCache;
  shared : Shared
}.

Definition thread_cache (sys : System) (t : Z) : ThreadCache :=
  default emptyThreadCache (threads sys !! t).

Definition initial : System := {| threads := ∅; shared := emptyShared |}.

(** The size of the blocks that serve a request of [size] bytes. *)
Definition blockSize (size : Z) : Z := (SizeClass.getIndex size + 1) * ALIGNMENT.

(** [[lo, hi)] lies inside a span that [spanMap_] records. *)
Definition in_span (pc : PageCache) (lo hi : Z) : Prop :=
  ∃ a span sp,
    spanMap_ pc !! a = Some span ∧ descr pc !! span = Some sp
    ∧ pageAddr sp <= lo ∧ hi <= pageAddr sp + numPages sp * PAGE_SIZE.

(** What the system may answer to [mmap] of [nPages] pages: a failure, or
    a page-aligned region that overlaps no span mapped before. *)
Definition mmap_ok (pc : PageCache) (nPages : Z) (os : option Z) : Prop :=
  match os with
  | None => True
  | Some p =>
      0 < p ∧ p mod PAGE_SIZE = 0
      ∧ ∀ a span sp,
          spanMap_ pc !! a = Some span → descr pc !! span = Some sp →
          p + nPages * PAGE_SIZE <= pageAddr sp
          ∨ pageAddr sp + numPages sp * PAGE_SIZE <= p
  end.

(** The words a client may store to: a word that overlaps a block it holds
    ([live] lists the blocks handed out by [allocate] and not given back,
    with the size asked for), or a word outside every span of the pool. *)
Definition client_may_write (sys : System) (live : list (Z * Z)) (addr : Z)
  : Prop :=
  (∃ p size, (p, size) ∈ live ∧ p - 8 < addr < p + size)
  ∨ (∀ a span sp,
       spanMap_ (pageCache (shared sys)) !! a = Some span →
       descr (pageCache (shared sys)) !! span = Some sp →
       addr + 8 <= pageAddr sp
       ∨ pageAddr sp + numPages sp * PAGE_SIZE <= addr).

Definition with_memory (m : gmap Z Z) (sh : Shared) : Shared :=
  {| centralFreeList_ := centralFreeList_ sh;
     pageCache := pageCache sh;
     memory := m |}.

(** The steps of a client that honours the contract of the interface: it
    calls [allocate]; it calls [deallocate] with an address it holds and
    the size it asked for; it stores into the blocks it holds. *)
Inductive step : System * list (Z * Z) → System * list (Z * Z) → Prop :=
  | step_allocate sys live t size heap os p tc' sh' :
      0 <= size < 2 ^ 64 →
      mmap_ok (pageCache (shared sys)) (pagesReceived (blockSize size)) os →
      allocate heap os size (thread_cache sys t) (shared sys) = Some (p, tc', sh') →
      step (sys, live)
           ({| threads := <[t := tc']> (threads sys); shared := sh' |},
            if decide (size <= MAX_BYTES ∧ p ≠ 0) then (p, size) :: live else live)
  | step_deallocate sys live1 live2 t p size tc' sh' :
      deallocate p size (thread_cache sys t) (shared sys) = (tc', sh') →
      step (sys, live1 ++ (p, size) :: live2)
           ({| threads := <[t := tc']> (threads sys); shared := sh' |},
            live1 ++ live2)
  | step_deallocate_bypass sys live t p size tc' sh' :
      MAX_BYTES < size →
      deallocate p size (thread_cache sys t) (shared sys) = (tc', sh') →
      step (sys, live)
           ({| threads := <[t := tc']> (threads sys); shared := sh' |}, live)
  | step_write sys live addr v :
      client_may_write sys live addr →
      step (sys, live)
           ({| threads := threads sys;
               shared := with_memory (store (memory (shared sys)) addr v) (shared sys) |},
            live).

(** The states the allocator can reach. *)
Definition reachable (cfg : System * list (Z * Z)) : Prop :=
  rtc step (initial, []) cfg.

(** *** The invariant of the reachable states *)

(** Who holds a block: the free list of a thread, the central free list, or
    the client. *)
Inductive owner := OThread (t : Z) | OCentral | OLive.

(** [cls] gives the size class of every block carved so far, [own] its
    holder.
    - The page cache has no free span, so that every span comes from the
      system.
    - A block is 8-aligned, not null, of a valid class, and lies in a span.
    - Two blocks do not overlap.
    - Each free list is a chain of blocks of its class that it holds.
    - The client holds the blocks of [live], each once.
    - Every entry of [spanMap_] is the start address of a descriptor of at
      least one page. *)
Record invariant (sys : System) (live : list (Z * Z))
    (cls : gmap Z Z) (own : gmap Z owner) : Prop := {
  inv_no_free_span : freeSpans_ (pageCache (shared sys)) = ∅;
  inv_block : ∀ a i, cls !! a = Some i →
    0 <= i < FREE_LIST_SIZE ∧ a mod 8 = 0 ∧ 0 < a
    ∧ in_span (pageCache (shared sys)) a (a + (i + 1) * ALIGNMENT);
  inv_disjoint : ∀ a a' i i', cls !! a = Some i → cls !! a' = Some i' → a ≠ a' →
    a + (i + 1) * ALIGNMENT <= a' ∨ a' + (i' + 1) * ALIGNMENT <= a;
  inv_thread : ∀ t i, ∃ l,
    chain (memory (shared sys)) (slot (freeList_ (thread_cache sys t)) i) l
    ∧ ∀ a, a ∈ l → cls !! a = Some i ∧ own !! a = Some (OThread t);
  inv_central : ∀ i, ∃ l,
    chain (memory (shared sys)) (slot (centralFreeList_ (shared sys)) i) l
    ∧ ∀ a, a ∈ l → cls !! a = Some i ∧ own !! a = Some OCentral;
  inv_live : ∀ p size, (p, size) ∈ live →
    0 <= size <= MAX_BYTES
    ∧ cls !! p = Some (SizeClass.getIndex size) ∧ own !! p = Some OLive;
  inv_live_NoDup : NoDup (live.*1);
  inv_spans : ∀ a span, spanMap_ (pageCache (shared sys)) !! a = Some span →
    ∃ sp, descr (pageCache (shared sys)) !! span = Some sp
          ∧ pageAddr sp = a ∧ 0 < numPages sp
}.

(** The page cache after [allocateSpan] mapped [nPages] pages at [m0]. *)
Definition mapped (pc : PageCache) (m0 nPages : Z) : PageCache :=
  {| freeSpans_ := freeSpans_ pc;
     spanMap_ := <[m0 := new_Span (descr pc)]> (spanMap_ pc);
     descr := <[new_Span (descr pc) := mkSpan m0 nPages 0]> (descr pc) |}.

(** [set_all l v M]: the map [M] with [v] at every key of [l]. *)
Definition set_all {V} (l : list Z) (v : V) (M : gmap Z V) : gmap Z V :=
  foldr (λ a M, <[a := v]> M) M l.

(** One call of [allocate(size)] by the thread [t] as a step of the
    allocator, with the answer [os] of the system; null is what [malloc]
    answers. *)
Definition run_allocate (t size : Z) (os : option Z)
    (cfg : System * list (Z * Z)) : System * list (Z * Z) :=
  match allocate 0 os size (thread_cache cfg.1 t) (shared cfg.1) with
  | Some (p, tc', sh') =>
      ({| threads := <[t := tc']> (threads cfg.1); shared := sh' |},
       if decide (size <= MAX_BYTES ∧ p ≠ 0) then (p, size) :: cfg.2 else cfg.2)
  | None => cfg
  end.

(** The state after the first call, [allocate(1024)] by the thread 1, served
    by a span that the system maps at 65536; and after a second such call. *)
Definition cfg_one : System * list (Z * Z) :=
  run_allocate 1 1024 (Some 65536) (initial, []).

Definition cfg_two : System * list (Z * Z) :=
  run_allocate 1 1024 None cfg_one.

(** ** MemoryPoolv1/MemoryPool.cpp: the pool of slots of one size *)

(** The first version of the pool: blocks of [BlockSize_] bytes taken from
    [operator new] are cut into slots of [SlotSize_] bytes; slots given back
    are kept in a lock-free list.  [next] of a [Slot] is the word that the
    raw memory of the embedding holds at the address of the slot.
    - What [operator new] answers is the argument [newBlock].
    - [sizeof(Slot)] is the argument [sizeofSlot]: the pointer [curSlot_]
      moves in units of it.
    - [compare_exchange_weak] may fail without cause; the number of times it
      does so in a call is the argument [fails].  No other thread runs
      between the load and the exchange. *)
Module MemoryPoolv1.

Record MemoryPool := mkMemoryPool {
  BlockSize_ : Z;
  SlotSize_ : Z;
  firstBlock_ : Z;
  curSlot_ : Z;
  freeList_ : Z;
  lastSlot_ : Z
}.

Definition set_freeList (p : Z) (pool : MemoryPool) : MemoryPool :=
  {| BlockSize_ := BlockSize_ pool; SlotSize_ := SlotSize_ pool;
     firstBlock_ := firstBlock_ pool; curSlot_ := curSlot_ pool;
     freeList_ := p; lastSlot_ := lastSlot_ pool |}.

Definition set_curSlot (p : Z) (pool : MemoryPool) : MemoryPool :=
  {| BlockSize_ := BlockSize_ pool; SlotSize_ := SlotSize_ pool;
     firstBlock_ := firstBlock_ pool; curSlot_ := p;
     freeList_ := freeList_ pool; lastSlot_ := lastSlot_ pool |}.

(** [MemoryPool::init]. *)
Definition init (size : Z) (pool : MemoryPool) : MemoryPool :=
  {| BlockSize_ := BlockSize_ pool; SlotSize_ := size;
     firstBlock_ := 0; curSlot_ := 0; freeList_ := 0; lastSlot_ := 0 |}.

(** [MemoryPool::padPointer]: [(align - (result % align)) % align]; the
    remainder by 0 is undefined. *)
Definition padPointer (p align : Z) : option Z :=
  if decide (align = 0) then None
  else Some ((align - p mod align) mod align).

(** [MemoryPool::allocateNewBlock]. *)
Definition allocateNewBlock (newBlock : Z) (pool : MemoryPool) (m : gmap Z Z)
  : option (MemoryPool * gmap Z Z) :=
  let m' := store m newBlock (firstBlock_ pool) in
  let body := newBlock + 8 in
  paddingSize ← padPointer body (SlotSize_ pool);
  Some ({| BlockSize_ := BlockSize_ pool; SlotSize_ := SlotSize_ pool;
           firstBlock_ := newBlock;
           curSlot_ := body + paddingSize;
           freeList_ := freeList_ pool;
           lastSlot_ := wrap (newBlock + BlockSize_ pool - SlotSize_ pool + 1) |},
        m').

(** [MemoryPool::pushFreeList]. *)
Fixpoint pushFreeList (fails : nat) (slot : Z) (pool : MemoryPool)
    (m : gmap Z Z) : bool * MemoryPool * gmap Z Z :=
  let oldHead := freeList_ pool in
  let m' := store m slot oldHead in
  match fails with
  | O => (true, set_freeList slot pool, m')
  | S fails => pushFreeList fails slot pool m'
  end.

(** [MemoryPool::popFreeList]. *)
Fixpoint popFreeList (fails : nat) (pool : MemoryPool) (m : gmap Z Z)
  : Z * MemoryPool :=
  let oldHead := freeList_ pool in
  if decide (oldHead = 0) then (0, pool)
  else
    let newHead := load m oldHead in
    match fails with
    | O => (oldHead, set_freeList newHead pool)
    | S fails => popFreeList fails pool m
    end.

(** [MemoryPool::allocate]. *)
Definition allocate (sizeofSlot : Z) (fails : nat) (newBlock : Z)
    (pool : MemoryPool) (m : gmap Z Z) : option (Z * MemoryPool * gmap Z Z) :=
  let '(slot, pool1) := popFreeList fails pool m in
  if decide (slot ≠ 0) then Some (slot, pool1, m)
  else
    '(pool2, m2) ←
      (if decide (lastSlot_ pool1 <= curSlot_ pool1)
       then allocateNewBlock newBlock pool1 m
       else Some (pool1, m));
    let temp := curSlot_ pool2 in
    Some (temp,
          set_curSlot (temp + SlotSize_ pool2 / sizeofSlot * sizeofSlot) pool2,
          m2).

(** [MemoryPool::deallocate]. *)
Definition deallocate (fails : nat) (ptr : Z) (pool : MemoryPool)
    (m : gmap Z Z) : MemoryPool * gmap Z Z :=
  if decide (ptr = 0) then (pool, m)
  else
    let '(_, pool', m') := pushFreeList fails ptr pool m in
    (pool', m').

(** The slot at [c] lies inside the block of [BlockSize_] bytes at
    [block]. *)
Definition slot_in_block (pool : MemoryPool) (block c : Z) : Prop :=
  block + 8 <= c ∧ c + SlotSize_ pool <= block + BlockSize_ pool.

End MemoryPoolv1.

(** ** MemoryPoolv2/src/CentralCache.cpp: the central cache that tracks spans *)

(** The central cache of this file hands out one block per call and keeps,
    for every span it carved, a [SpanTracker] with the number of blocks of
    the span and a count of the free ones; a span whose count reaches the
    number of blocks is taken out of the central list and given back to the
    page cache.
    - A [SpanTracker*] is the position in the array [spanTrackers_]; the
      array is a list, and reading behind its end is undefined.
    - The [while] loops over the central list take a bound [fuel] on their
      iterations. *)
Module SpanTracker.

Record t := mk {
  spanAddr : Z;
  numPages : Z;
  blockCount : Z;
  freeCount : Z
}.

Definition set_freeCount (n : Z) (tr : t) : t :=
  {| spanAddr := spanAddr tr; numPages := numPages tr;
     blockCount := blockCount tr; freeCount := n |}.

(** [blockAddr >= spanAddr && blockAddr < spanAddr + numPages * PAGE_SIZE]. *)
Definition covers (tr : t) (blockAddr : Z) : Prop :=
  spanAddr tr <= blockAddr < spanAddr tr + wrap (numPages tr * PAGE_SIZE).

End SpanTracker.

Module TrackedCentralCache.

Record CentralCache := mkCentralCache {
  centralFreeList_ : gmap Z Z;
  spanTrackers_ : list SpanTracker.t;
  spanCount_ : Z
}.

(** The [for] of [getSpanTracker], from the position [i] on, with [n]
    positions left. *)
Fixpoint getSpanTracker_from (n i : nat) (trackers : list SpanTracker.t)
    (blockAddr : Z) : option (option nat) :=
  match n with
  | O => Some None
  | S n =>
      tr ← trackers !! i;
      if decide (SpanTracker.covers tr blockAddr) then Some (Some i)
      else getSpanTracker_from n (S i) trackers blockAddr
  end.

(** [CentralCache::getSpanTracker]: [Some None] is [nullptr]. *)
Definition getSpanTracker (cc : CentralCache) (blockAddr : Z)
  : option (option nat) :=
  getSpanTracker_from (Z.to_nat (spanCount_ cc)) 0 (spanTrackers_ cc) blockAddr.

(** The [while] of [updateSpanFreeCount] that takes the blocks of the span
    [[lo, hi)] out of the list; the result is [newHead]. *)
Fixpoint remove_blocks (fuel : nat) (lo hi : Z) (m : gmap Z Z)
    (current prev newHead : Z) : option (Z * gmap Z Z) :=
  match fuel with
  | O => None
  | S fuel =>
      if decide (current = 0) then Some (newHead, m)
      else
        let next := load m current in
        if decide (lo <= current < hi) then
          if decide (prev ≠ 0)
          then remove_blocks fuel lo hi (store m prev next) next prev newHead
          else remove_blocks fuel lo hi m next prev next
        else remove_blocks fuel lo hi m next current newHead
  end.

(** [CentralCache::updateSpanFreeCount]. *)
Definition updateSpanFreeCount (fuel fuelSpans : nat) (tracker : nat)
    (newFreeBlocks index : Z) (cc : CentralCache) (pc : PageCache)
    (m : gmap Z Z) : option (CentralCache * PageCache * gmap Z Z) :=
  tr ← spanTrackers_ cc !! tracker;
  let newFreeCount := wrap (SpanTracker.freeCount tr + newFreeBlocks) in
  let tr' := SpanTracker.set_freeCount newFreeCount tr in
  let trackers := <[tracker := tr']> (spanTrackers_ cc) in
  if decide (newFreeCount = SpanTracker.blockCount tr) then
    let spanAddr := SpanTracker.spanAddr tr in
    let numPages := SpanTracker.numPages tr in
    let head := slot (centralFreeList_ cc) index in
    '(newHead, m') ←
      remove_blocks fuel spanAddr (spanAddr + wrap (numPages * PAGE_SIZE))
                    m head 0 0;
    pc' ← deallocateSpan fuelSpans spanAddr numPages pc;
    Some ({| centralFreeList_ := <[index := newHead]> (centralFreeList_ cc);
             spanTrackers_ := trackers;
             spanCount_ := spanCount_ cc |},
          pc', m')
  else
    Some ({| centralFreeList_ := centralFreeList_ cc;
             spanTrackers_ := trackers;
             spanCount_ := spanCount_ cc |},
          pc, m).

End TrackedCentralCache.

(** * Properties *)

(** Membership in a list at its head, or behind it. *)
Ltac here := apply elem_of_cons; by left.
Ltac there := apply elem_of_cons; by right.

Section size_class.

Lemma wrap_small x : 0 <= x < 2 ^ 64 -> wrap x = x.
Proof. intros. unfold wrap. by apply Z.mod_small. Qed.

Lemma wrap_range x : 0 <= wrap x < 2 ^ 64.
Proof. unfold wrap. apply Z.mod_pos_bound. lia. Qed.

Lemma align_mask_val : align_mask = 2 ^ 64 - 8.
Proof. reflexivity. Qed.

(** Masking with [~7] clears the three low bits. *)
Lemma land_align_mask x :
  0 <= x < 2 ^ 64 -> Z.land x align_mask = 8 * (x / 8).
Proof.
  intros Hx. rewrite align_mask_val.
  apply Z.bits_inj'. intros n Hn.
  rewrite Z.land_spec.
  replace (8 * (x / 8)) with (Z.shiftl (Z.shiftr x 3) 3)
    by (rewrite Z.shiftl_mul_pow2, Z.shiftr_div_pow2 by lia; change (2 ^ 3) with 8; lia).
  destruct (decide (n < 3)) as [Hlt|Hge].
  - rewrite Z.shiftl_spec_low by lia.
    assert (Z.testbit (2 ^ 64 - 8) n = false) as ->; [|by rewrite andb_false_r].
    assert (n = 0 \/ n = 1 \/ n = 2) as [->|[->| ->]] by lia; reflexivity.
  - rewrite Z.shiftl_spec by lia. rewrite Z.shiftr_spec by lia.
    replace (n - 3 + 3) with n by lia.
    destruct (decide (n < 64)) as [Hn64|Hn64].
    + assert (Z.testbit (2 ^ 64 - 8) n = true) as ->; [|by rewrite andb_true_r].
      replace (2 ^ 64 - 8) with (Z.shiftl (Z.ones 61) 3) by reflexivity.
      rewrite Z.shiftl_spec by lia. apply Z.ones_spec_low. lia.
    + assert (Z.testbit x n = false) as ->; [|done].
      destruct (decide (x = 0)) as [->|Hx0]; [apply Z.bits_0|].
      apply Z.bits_above_log2; [lia|].
      apply Z.log2_lt_pow2; [lia|].
      eapply Z.lt_le_trans; [apply Hx|]. apply Z.pow_le_mono_r; lia.
Qed.

Lemma roundUp_spec bytes :
  0 <= bytes <= 2 ^ 64 - 8 -> SizeClass.roundUp bytes = 8 * ((bytes + 7) / 8).
Proof.
  intros H. unfold SizeClass.roundUp, ALIGNMENT.
  rewrite wrap_small by lia. rewrite land_align_mask by lia.
  f_equal. f_equal. lia.
Qed.

Lemma getIndex_spec bytes :
  0 <= bytes <= 2 ^ 64 - 8 ->
  SizeClass.getIndex bytes = (Z.max bytes 8 + 7) / 8 - 1.
Proof.
  intros H. unfold SizeClass.getIndex, ALIGNMENT.
  assert (1 <= (Z.max bytes 8 + 7) / 8 < 2 ^ 61).
  { split.
    - apply Z.div_le_lower_bound; lia.
    - apply Z.div_lt_upper_bound; lia. }
  replace (Z.max bytes 8 + 8 - 1) with (Z.max bytes 8 + 7) by lia.
  rewrite (wrap_small (Z.max bytes 8 + 7)) by lia.
  rewrite wrap_small; lia.
Qed.

Lemma getIndex_range s :
  0 <= s <= MAX_BYTES → 0 <= SizeClass.getIndex s < FREE_LIST_SIZE.
Proof.
  change MAX_BYTES with 262144. change FREE_LIST_SIZE with 32768. intros Hs.
  rewrite getIndex_spec by lia.
  assert (1 <= (Z.max s 8 + 7) / 8 < 32769); [|lia].
  split; [apply Z.div_le_lower_bound; lia|apply Z.div_lt_upper_bound; lia].
Qed.

Lemma roundUp_range s :
  1 <= s <= MAX_BYTES →
  s <= SizeClass.roundUp s <= MAX_BYTES ∧ 8 <= SizeClass.roundUp s.
Proof.
  change MAX_BYTES with 262144. intros Hs. rewrite roundUp_spec by lia.
  pose proof (Z.div_mod (s + 7) 8 ltac:(lia)).
  pose proof (Z.mod_pos_bound (s + 7) 8 ltac:(lia)).
  assert (1 <= (s + 7) / 8 < 32769); [|lia].
  split; [apply Z.div_le_lower_bound; lia|apply Z.div_lt_upper_bound; lia].
Qed.

(** [allocate] and [deallocate] compute the same index for a size. *)
Lemma getIndex_roundUp s :
  1 <= s <= MAX_BYTES → SizeClass.getIndex (SizeClass.roundUp s) = SizeClass.getIndex s.
Proof.
  intros Hs. pose proof (roundUp_range s Hs) as Hr.
  change MAX_BYTES with 262144 in *.
  rewrite (getIndex_spec s) by lia. rewrite getIndex_spec by lia.
  rewrite roundUp_spec in * by lia.
  rewrite (Z.max_l (8 * _)) by lia.
  replace (8 * ((s + 7) / 8) + 7) with (7 + ((s + 7) / 8) * 8) by lia.
  rewrite Z.div_add by lia. change (7 / 8) with 0.
  destruct (decide (8 <= s)).
  - rewrite Z.max_l by lia. lia.
  - rewrite Z.max_r by lia. change ((8 + 7) / 8) with 1.
    assert ((s + 7) / 8 = 1); [|lia].
    apply Z.le_antisymm; [|apply Z.div_le_lower_bound; lia].
    assert ((s + 7) / 8 < 2); [|lia]. apply Z.div_lt_upper_bound; lia.
Qed.

End size_class.

(** ** Size classes and batch counts *)

Section batch.

Lemma block_size_range i :
  0 <= i < FREE_LIST_SIZE -> 8 <= (i + 1) * ALIGNMENT <= MAX_BYTES.
Proof.
  change FREE_LIST_SIZE with 32768. change MAX_BYTES with 262144.
  change ALIGNMENT with 8. lia.
Qed.

Lemma baseNum_decide size :
  baseNum size =
    if decide (size <= 32) then 64
    else if decide (size <= 64) then 32
    else if decide (size <= 128) then 16
    else if decide (size <= 256) then 8
    else if decide (size <= 512) then 4
    else if decide (size <= 1024) then 2
    else 1.
Proof.
  unfold baseNum.
  repeat (case_decide; [rewrite (proj2 (Z.leb_le _ _)) by lia; reflexivity
                       |rewrite (proj2 (Z.leb_gt _ _)) by lia]).
  reflexivity.
Qed.

Lemma baseNum_pos size : 1 <= baseNum size <= 64.
Proof. rewrite baseNum_decide. repeat case_decide; lia. Qed.

(** The source clamps [MAX_BATCH_SIZE / size] to at least 1 before taking
    the minimum; the result is the same as clamping afterwards only. *)
Lemma getBatchNum_unfold size :
  0 < size -> getBatchNum size = compute_batch size.
Proof.
  intros Hs. unfold getBatchNum, compute_batch.
  rewrite baseNum_decide.
  change MAX_BATCH_SIZE with 4096. change CENTRAL_BATCH_MAX_BYTES with 4096.
  assert (0 <= 4096 / size) as Hq by (apply Z.div_pos; lia).
  revert Hq. generalize (4096 / size). intros q Hq.
  repeat case_decide; lia.
Qed.

Lemma getBatchNum_range size : 1 <= getBatchNum size <= 64.
Proof.
  unfold getBatchNum. pose proof (baseNum_pos size). lia.
Qed.

(** Only blocks of at most 1024 bytes are fetched more than one at a time. *)
Lemma getBatchNum_gt_1 size :
  0 < size -> 1 < getBatchNum size -> size <= 1024.
Proof.
  intros Hs. unfold getBatchNum. rewrite baseNum_decide.
  generalize (MAX_BATCH_SIZE / size). intros q.
  repeat case_decide; lia.
Qed.

End batch.

(** C6. For the size class [i], with block size [(i+1) * ALIGNMENT], the
    batch count that [fetchFromCentralCache] asks the central tier for,
    [getBatchNum] of the block size as the source computes it, equals
    [max(1, min(base, 4096 / blockSize))] with the base of the table of the
    design document. *)
Theorem getBatchNum_compute_batch (i : Z) :
  0 <= i < FREE_LIST_SIZE ->
  getBatchNum (wrap ((i + 1) * ALIGNMENT)) = compute_batch ((i + 1) * ALIGNMENT).
Proof.
  intros Hi. pose proof (block_size_range i Hi) as Hb.
  rewrite wrap_small by (unfold MAX_BYTES in Hb; lia).
  apply getBatchNum_unfold. lia.
Qed.

Lemma getBatchNum_compute_batch_witness :
  getBatchNum (wrap ((127 + 1) * ALIGNMENT)) = compute_batch ((127 + 1) * ALIGNMENT)
  /\ compute_batch ((127 + 1) * ALIGNMENT) = 2.
Proof.
  split; [apply (getBatchNum_compute_batch 127); vm_compute; split; congruence
         |reflexivity].
Defined.

(** C10. For a request of [1 <= s <= MAX_BYTES] bytes the index that
    [allocate] computes, [getIndex (roundUp s)], and the index that
    [deallocate] and [returnToCentralCache] compute, [getIndex s], are
    valid positions of the arrays of [FREE_LIST_SIZE = 32768] slots. *)
Theorem getIndex_in_bounds (s : Z) :
  1 <= s <= MAX_BYTES ->
  0 <= SizeClass.getIndex (SizeClass.roundUp s) < FREE_LIST_SIZE
  /\ 0 <= SizeClass.getIndex s < FREE_LIST_SIZE
  /\ FREE_LIST_SIZE = 32768.
Proof.
  intros Hs. change MAX_BYTES with 262144 in Hs.
  change FREE_LIST_SIZE with 32768.
  assert (1 <= (s + 7) / 8 < 32769) as Hq.
  { split; [apply Z.div_le_lower_bound; lia|apply Z.div_lt_upper_bound; lia]. }
  assert (1 <= (Z.max s 8 + 7) / 8 < 32769) as Hq'.
  { split; [apply Z.div_le_lower_bound; lia|apply Z.div_lt_upper_bound; lia]. }
  rewrite roundUp_spec by lia.
  rewrite (getIndex_spec s) by lia.
  rewrite (getIndex_spec (8 * _)) by lia.
  rewrite (Z.max_l (8 * _)) by lia.
  replace (8 * ((s + 7) / 8) + 7) with (7 + ((s + 7) / 8) * 8) by lia.
  rewrite Z.div_add by lia. change (7 / 8) with 0.
  lia.
Qed.

Lemma getIndex_in_bounds_witness :
  0 <= SizeClass.getIndex (SizeClass.roundUp MAX_BYTES) < FREE_LIST_SIZE
  /\ 0 <= SizeClass.getIndex MAX_BYTES < FREE_LIST_SIZE
  /\ FREE_LIST_SIZE = 32768.
Proof. apply (getIndex_in_bounds MAX_BYTES). vm_compute. split; congruence. Defined.

(** ** Rejected calls *)

(** C8. [fetchRange] answers null and leaves the shared state as it is when
    [index >= FREE_LIST_SIZE] or [batchNum == 0]; [returnRange] leaves the
    shared state as it is when [start] is null or
    [index >= FREE_LIST_SIZE]. *)
Theorem central_rejects (os : option Z) (index batchNum start size : Z)
    (sh : Shared) :
  (FREE_LIST_SIZE <= index ∨ batchNum = 0 ->
   fetchRange os index batchNum sh = Some (0, sh))
  /\ (start = 0 ∨ FREE_LIST_SIZE <= index ->
      returnRange start size index sh = sh).
Proof.
  split; intros H.
  - unfold fetchRange. by rewrite decide_True.
  - unfold returnRange. by rewrite decide_True.
Qed.

Lemma central_rejects_witness :
  fetchRange None FREE_LIST_SIZE 4 emptyShared = Some (0, emptyShared)
  /\ fetchRange None 3 0 emptyShared = Some (0, emptyShared)
  /\ returnRange 0 16 3 emptyShared = emptyShared
  /\ returnRange 4096 16 FREE_LIST_SIZE emptyShared = emptyShared.
Proof.
  split; [|split; [|split]].
  - apply (central_rejects None FREE_LIST_SIZE 4 0 0 emptyShared). left. lia.
  - apply (central_rejects None 3 0 0 0 emptyShared). right. reflexivity.
  - apply (central_rejects None 3 0 0 16 emptyShared). left. reflexivity.
  - apply (central_rejects None FREE_LIST_SIZE 0 4096 16 emptyShared). right. lia.
Defined.

(** C9. [deallocateSpan] called with an address that [spanMap_] does not
    hold returns at once: the page cache ([freeSpans_], [spanMap_] and the
    descriptors) is what it was. *)
Theorem deallocateSpan_unknown (fuel : nat) (ptr nPages : Z) (pc : PageCache) :
  spanMap_ pc !! ptr = None ->
  deallocateSpan fuel ptr nPages pc = Some pc.
Proof. intros H. unfold deallocateSpan. by rewrite H. Qed.

Lemma deallocateSpan_unknown_witness :
  deallocateSpan 0 4096 8 emptyPageCache = Some emptyPageCache.
Proof. apply (deallocateSpan_unknown 0 4096 8 emptyPageCache). reflexivity. Defined.

(** ** The number of blocks carved from a fresh span *)

Lemma fetchFromPageCache_pagesReceived os size pc m :
  fetchFromPageCache os size pc m = allocateSpan os (pagesReceived size) pc m.
Proof. unfold fetchFromPageCache, pagesReceived. by case_decide. Qed.

(** Up to 32 KiB per block the span has [SPAN_PAGES] pages, and the count
    of the source is the count over the pages received. *)
Lemma totalBlocks_small size :
  8 <= size <= SPAN_PAGES * PAGE_SIZE ->
  totalBlocks size = (pagesReceived size * PAGE_SIZE) / size
  /\ 1 <= totalBlocks size.
Proof.
  intros Hs. unfold totalBlocks, pagesReceived. rewrite decide_True by lia.
  split; [done|]. apply Z.div_le_lower_bound; lia.
Qed.

(** Above 32 KiB the span has more than [SPAN_PAGES] pages and holds one
    block, but the count of the source, taken over [SPAN_PAGES] pages, is 0. *)
Lemma totalBlocks_large size :
  SPAN_PAGES * PAGE_SIZE < size <= MAX_BYTES ->
  totalBlocks size = 0 /\ 1 <= (pagesReceived size * PAGE_SIZE) / size.
Proof.
  change (SPAN_PAGES * PAGE_SIZE) with 32768. change MAX_BYTES with 262144.
  intros Hs. unfold totalBlocks, pagesReceived.
  change (SPAN_PAGES * PAGE_SIZE) with 32768. change PAGE_SIZE with 4096.
  rewrite decide_False by lia. split.
  - apply Z.div_small. lia.
  - rewrite wrap_small by lia.
    apply Z.div_le_lower_bound; [lia|].
    pose proof (Z.div_mod (size + 4096 - 1) 4096 ltac:(lia)).
    pose proof (Z.mod_pos_bound (size + 4096 - 1) 4096 ltac:(lia)). lia.
Qed.

(** At the size class 4096 (blocks of 32776 bytes) the page tier is asked
    for 9 pages, which hold one block.  The local [totalBlocks] of
    [fetchRange], taken over [SPAN_PAGES] pages, is 0 there; the call hands
    out the start of the span, which is that one block, writes nothing and
    leaves the central list empty. *)
Lemma totalBlocks_fixed_span_pages :
  let size := (4096 + 1) * ALIGNMENT in
  pagesReceived size = 9
  /\ (pagesReceived size * PAGE_SIZE) / size = 1
  /\ totalBlocks size = 0
  /\ ∃ sh', fetchRange (Some 65536) 4096 1 emptyShared = Some (65536, sh')
      /\ (spanMap_ (pageCache sh') !! 65536 ≫= λ span,
            numPages <$> descr (pageCache sh') !! span) = Some 9
      /\ centralFreeList_ sh' = ∅
      /\ memory sh' = ∅.
Proof.
  cbv zeta. split; [reflexivity|]. split; [reflexivity|]. split; [reflexivity|].
  eexists. split; [vm_compute; reflexivity|].
  split; [vm_compute; reflexivity|]. split; reflexivity.
Qed.

(** ** Linked lists in memory and in the descriptor store *)

Section linked.

Variable succ : Z → option Z.

Lemma linked_nil h : linked succ h [] ↔ h = 0.
Proof. done. Qed.

Lemma linked_null l : linked succ 0 l → l = [].
Proof. destruct l as [|a l]; [done|]. intros (-> & Hne & _). done. Qed.

Lemma linked_head h a l : linked succ h (a :: l) → h = a ∧ a ≠ 0.
Proof. intros (-> & Hne & _). done. Qed.

(** The list of nodes is determined by the head. *)
Lemma linked_inj h l1 l2 : linked succ h l1 → linked succ h l2 → l1 = l2.
Proof.
  revert h l2. induction l1 as [|a l1 IH]; intros h l2 H1 H2.
  - simpl in H1. subst h. symmetry. by eapply linked_null.
  - destruct H1 as (-> & Hne & n & Hn & H1).
    destruct l2 as [|b l2]; [simpl in H2; done|].
    destruct H2 as (<- & _ & n' & Hn' & H2).
    rewrite Hn in Hn'. injection Hn' as <-.
    f_equal. by eapply IH.
Qed.

Lemma linked_suffix h l1 a l2 :
  linked succ h (l1 ++ a :: l2) → linked succ a (a :: l2).
Proof.
  revert h. induction l1 as [|b l1 IH]; intros h H; simpl in H.
  - destruct H as (-> & H). by split.
  - destruct H as (-> & _ & n & _ & H). by eapply IH.
Qed.

(** A list that ends in null visits no node twice. *)
Lemma linked_NoDup h l : linked succ h l → NoDup l.
Proof.
  revert h. induction l as [|a l IH]; intros h H; [constructor|].
  pose proof H as (-> & Hne & n & Hn & Hl).
  constructor; [|by eapply IH].
  intros Hin. apply list_elem_of_split in Hin as (l1 & l2 & ->).
  pose proof (linked_suffix _ _ _ _ Hl) as (_ & _ & n' & Hn' & Hl2).
  rewrite Hn in Hn'. injection Hn' as <-.
  pose proof (linked_inj _ _ _ Hl Hl2) as Heq.
  apply (f_equal length) in Heq. rewrite length_app in Heq. simpl in Heq. lia.
Qed.

Lemma linked_not_null h l : linked succ h l → 0 ∉ l.
Proof.
  revert h. induction l as [|a l IH]; intros h H.
  - apply not_elem_of_nil.
  - destruct H as (-> & Hne & n & _ & H).
    apply not_elem_of_cons. split; [done|]. by eapply IH.
Qed.

End linked.

(** Two successor functions that agree on the nodes of a list agree on the
    list. *)
Lemma linked_ext succ succ' h l :
  (∀ a, a ∈ l → succ' a = succ a) → linked succ h l → linked succ' h l.
Proof.
  revert h. induction l as [|a l IH]; intros h Hext H; [done|].
  destruct H as (-> & Hne & n & Hn & H).
  split; [done|]. split; [done|]. exists n. split.
  - rewrite Hext; [done|]. here.
  - apply IH; [|done]. intros b Hb. apply Hext. there.
Qed.

Section memory.

Implicit Types m : gmap Z Z.

Lemma load_store_eq m p v : load (store m p v) p = v.
Proof. unfold load, store. by rewrite lookup_insert_eq. Qed.

Lemma load_store_ne m p q v : p ≠ q → load (store m p v) q = load m q.
Proof. intros. unfold load, store. by rewrite lookup_insert_ne. Qed.

Lemma load_memset0_out m p size q :
  ¬ (p <= q < p + size) → load (memset0 m p size) q = load m q.
Proof.
  intros Hq. unfold load, memset0.
  destruct (m !! q) as [v|] eqn:E.
  - erewrite (proj2 (map_lookup_filter_Some _ m q v)); [done|]. by split.
  - assert (filter (λ kv : Z * Z, ¬ p <= kv.1 < p + size) m !! q = None) as ->; [|done].
    apply map_lookup_filter_None. left. done.
Qed.

Lemma load_memset0_in m p size q :
  p <= q < p + size → load (memset0 m p size) q = 0.
Proof.
  intros Hq. unfold load, memset0.
  assert (filter (λ kv : Z * Z, ¬ p <= kv.1 < p + size) m !! q = None) as ->; [|done].
  apply map_lookup_filter_None. right. intros v _. simpl. tauto.
Qed.

Lemma slot_insert_eq (a : gmap Z Z) i v : slot (<[i := v]> a) i = v.
Proof. unfold slot. by rewrite lookup_insert_eq. Qed.

Lemma slot_insert_ne (a : gmap Z Z) i j v : i ≠ j → slot (<[i := v]> a) j = slot a j.
Proof. intros. unfold slot. by rewrite lookup_insert_ne. Qed.

Lemma slot_empty i : slot ∅ i = 0.
Proof. done. Qed.

(** A store outside a chain leaves the chain as it is. *)
Lemma chain_store m h l p v : p ∉ l → chain m h l → chain (store m p v) h l.
Proof.
  intros Hp. apply linked_ext. intros a Ha.
  rewrite load_store_ne; [done|]. intros ->. done.
Qed.

Lemma chain_frame m m' h l :
  (∀ a, a ∈ l → load m' a = load m a) → chain m h l → chain m' h l.
Proof. intros H. apply linked_ext. intros a Ha. by rewrite H. Qed.

Lemma chain_cons m a l : a ≠ 0 → chain m (load m a) l → chain m a (a :: l).
Proof. intros Hne H. split; [done|]. split; [done|]. by exists (load m a). Qed.

Lemma chain_cons_inv m h a l :
  chain m h (a :: l) → h = a ∧ a ≠ 0 ∧ chain m (load m a) l.
Proof. intros (-> & Hne & n & [= <-] & H). done. Qed.

End memory.

(** ** The page cache *)

Section page_cache.

Implicit Types d : gmap Z Span.
Implicit Types pc : PageCache.

Lemma foldr_max_ge (l : list Z) k : k ∈ l → k <= foldr Z.max 0 l.
Proof.
  induction l as [|a l IH]; [by intros ?%elem_of_nil|].
  intros [->|Hin]%elem_of_cons; simpl; [lia|]. specialize (IH Hin). lia.
Qed.

Lemma foldr_max_nonneg (l : list Z) : 0 <= foldr Z.max 0 l.
Proof. induction l; simpl; lia. Qed.

(** [new Span] returns an address that is not null and holds no descriptor. *)
Lemma new_Span_fresh d : d !! new_Span d = None.
Proof.
  apply not_elem_of_dom. intros Hin.
  apply elem_of_elements, foldr_max_ge in Hin. unfold new_Span in Hin. lia.
Qed.

Lemma new_Span_pos d : 0 < new_Span d.
Proof. unfold new_Span. pose proof (foldr_max_nonneg (elements (dom d))). lia. Qed.

Lemma min_entry_None l : min_entry l = None → l = [].
Proof.
  destruct l as [|kv l]; [done|]. simpl.
  destruct (min_entry l); [case_decide|]; done.
Qed.

Lemma min_entry_Some l kv :
  min_entry l = Some kv → kv ∈ l ∧ ∀ kv', kv' ∈ l → kv.1 <= kv'.1.
Proof.
  revert kv. induction l as [|a l IH]; intros kv; [done|]. simpl.
  destruct (min_entry l) as [b|] eqn:E.
  - destruct (IH b eq_refl) as [Hb Hmin].
    case_decide; intros [= <-].
    + split; [here|].
      intros kv' [->|Hin]%elem_of_cons; [lia|]. specialize (Hmin _ Hin). lia.
    + split; [there|].
      intros kv' [->|Hin]%elem_of_cons; [lia|]. by apply Hmin.
  - apply min_entry_None in E as ->. intros [= <-].
    split; [here|].
    intros kv' [->|Hin]%elem_of_cons; [lia|]. by apply elem_of_nil in Hin.
Qed.

(** [lower_bound] is the best fit: the smallest key that is at least [n]. *)
Lemma lower_bound_Some n (m : gmap Z Z) k v :
  lower_bound n m = Some (k, v) →
  m !! k = Some v ∧ n <= k ∧ ∀ k', is_Some (m !! k') → n <= k' → k <= k'.
Proof.
  unfold lower_bound. intros [Hin Hmin]%min_entry_Some.
  apply list_elem_of_filter in Hin as [Hn Hin]. simpl in Hn.
  apply elem_of_map_to_list in Hin. split; [done|]. split; [done|].
  intros k' [v' Hk'] Hn'.
  apply (Hmin (k', v')). apply list_elem_of_filter. split; [done|].
  by apply elem_of_map_to_list.
Qed.

Lemma lower_bound_None n (m : gmap Z Z) k :
  lower_bound n m = None → is_Some (m !! k) → k < n.
Proof.
  unfold lower_bound. intros Hnil%min_entry_None [v Hk].
  destruct (decide (k < n)) as [|Hge]; [done|]. exfalso.
  assert ((k, v) ∈ filter (λ kv : Z * Z, n <= kv.1) (map_to_list m)) as Hin.
  { apply list_elem_of_filter. split; [simpl; lia|]. by apply elem_of_map_to_list. }
  rewrite Hnil in Hin. by apply elem_of_nil in Hin.
Qed.

Lemma lower_bound_empty n : lower_bound n ∅ = None.
Proof. unfold lower_bound. by rewrite map_to_list_empty. Qed.

(** What the split of [allocateSpan] does, in any state: the low pages are
    returned, the rest becomes a new descriptor at the head of the list of
    its page count, and [spanMap_] gains the entry of the returned span
    only. *)
Lemma allocateSpan_split os n pc m key span sp :
  lower_bound n (freeSpans_ pc) = Some (key, span) →
  descr pc !! span = Some sp →
  n < numPages sp →
  let newSpan := new_Span (descr pc) in
  let rest := if decide (next sp ≠ 0) then <[key := next sp]> (freeSpans_ pc)
              else delete key (freeSpans_ pc) in
  ∃ pc', allocateSpan os n pc m = Some (pageAddr sp, pc', m)
    ∧ freeSpans_ pc' !! (numPages sp - n) = Some newSpan
    ∧ descr pc' !! newSpan =
        Some (mkSpan (pageAddr sp + wrap (n * PAGE_SIZE)) (numPages sp - n)
                     (slot rest (numPages sp - n)))
    ∧ descr pc' !! span = Some (set_numPages n sp)
    ∧ spanMap_ pc' = <[pageAddr sp := span]> (spanMap_ pc).
Proof.
  intros Hlb Hsp Hlt newSpan rest.
  assert (newSpan ≠ span) as Hne.
  { intros Heq. pose proof (new_Span_fresh (descr pc)) as Hf.
    fold newSpan in Hf. rewrite Heq in Hf. congruence. }
  unfold allocateSpan. rewrite Hlb. simpl. rewrite Hsp. simpl.
  rewrite decide_True by done. eexists. split; [reflexivity|]. simpl.
  split; [apply lookup_insert_eq|]. split; [|split; [apply lookup_insert_eq|done]].
  rewrite lookup_insert_ne by done. apply lookup_insert_eq.
Qed.

Lemma pc_free16_arises :
  (allocateSpan (Some 65536) 16 emptyPageCache ∅
     ≫= λ '(_, pc, _), deallocateSpan 1 65536 16 pc) = Some pc_free16.
Proof. vm_compute. reflexivity. Qed.

End page_cache.

(** C3, on a page cache whose only free span has 16 pages at 65536, asked
    for 8 pages.  The low 8 pages are returned and the other 8 become a new
    descriptor at the head of [freeSpans_[8]], but [spanMap_] is given the
    returned span only: nothing is recorded at the address 98304 of the
    remainder.  When the returned span comes back, [deallocateSpan] finds no
    neighbour at 98304 and the two free halves stay apart. *)
Theorem allocateSpan_split_unrecorded :
  ∃ pc', allocateSpan None 8 pc_free16 ∅ = Some (65536, pc', ∅)
    ∧ freeSpans_ pc' !! 8 = Some 2
    ∧ descr pc' !! 2 = Some (mkSpan 98304 8 0)
    ∧ descr pc' !! 1 = Some (mkSpan 65536 8 0)
    ∧ spanMap_ pc' !! 65536 = Some 1
    ∧ spanMap_ pc' !! 98304 = None
    ∧ ∃ pc'', deallocateSpan 2 65536 8 pc' = Some pc''
        ∧ freeSpans_ pc'' !! 8 = Some 1
        ∧ descr pc'' !! 1 = Some (mkSpan 65536 8 2)
        ∧ descr pc'' !! 2 = Some (mkSpan 98304 8 0)
        ∧ freeSpans_ pc'' !! 16 = None.
Proof.
  eexists. split; [vm_compute; reflexivity|].
  do 5 (split; [vm_compute; reflexivity|]).
  eexists. split; [vm_compute; reflexivity|].
  do 3 (split; [vm_compute; reflexivity|]). vm_compute. reflexivity.
Qed.

(** ** Coalescing with the right neighbour *)

Section coalesce.

Implicit Types d : gmap Z Span.
Implicit Types pc : PageCache.

Lemma span_list_cons_inv d h a l :
  span_list d h (a :: l) →
  h = a ∧ a ≠ 0 ∧ ∃ s, d !! a = Some s ∧ span_list d (next s) l.
Proof.
  intros (-> & Hne & n & Hn & H). split; [done|]. split; [done|].
  destruct (d !! a) as [s|]; [|done]. injection Hn as <-. by exists s.
Qed.

Lemma span_list_cons d a s l :
  a ≠ 0 → d !! a = Some s → span_list d (next s) l → span_list d a (a :: l).
Proof.
  intros Hne Hs H. split; [done|]. split; [done|].
  exists (next s). by rewrite Hs.
Qed.

Lemma span_list_frame d d' h l :
  (∀ a, a ∈ l → d' !! a = d !! a) → span_list d h l → span_list d' h l.
Proof. intros H. apply linked_ext. intros a Ha. by rewrite H. Qed.

Lemma filter_ne_not_in (t : Z) (l : list Z) :
  t ∉ l → filter (λ a, a ≠ t) l = l.
Proof.
  induction l as [|a l IH]; [done|].
  intros [Hne Hin]%not_elem_of_cons.
  rewrite filter_cons_True by done. by rewrite IH.
Qed.

(** The walk behind the head of a free list finds [t] exactly when [t] is
    in the list, and then unlinks it; no other node leaves the list and no
    descriptor outside the list changes. *)
Lemma unlink_after_spec fuel d prev t l :
  span_list d prev (prev :: l) →
  prev ≠ t →
  (length l < fuel)%nat →
  ∃ d', unlink_after fuel d prev t = Some (d', bool_decide (t ∈ l))
    ∧ span_list d' prev (prev :: filter (λ a, a ≠ t) l)
    ∧ (∀ a, a ∉ prev :: l → d' !! a = d !! a)
    ∧ d' !! t = d !! t
    ∧ (t ∉ l → d' = d).
Proof.
  revert fuel prev. induction l as [|b l IH]; intros fuel prev Hl Hne Hfuel.
  - destruct fuel as [|fuel]; [simpl in Hfuel; lia|].
    apply span_list_cons_inv in Hl as (_ & Hp0 & p & Hp & Hnil).
    simpl in Hnil. exists d. simpl. rewrite Hp. simpl.
    rewrite decide_True by done.
    split; [done|]. split; [by eapply span_list_cons|]. done.
  - destruct fuel as [|fuel]; [simpl in Hfuel; lia|]. simpl in Hfuel.
    pose proof (linked_NoDup _ _ _ Hl) as Hnd.
    apply NoDup_cons in Hnd as [Hprev Hnd].
    apply span_list_cons_inv in Hl as (_ & Hp0 & p & Hp & Hl).
    pose proof Hl as (Hb & Hb0 & ns & Hns & Hl')%span_list_cons_inv.
    simpl. rewrite Hp. simpl. rewrite decide_False by lia.
    destruct (decide (next p = t)) as [Heq|Hneq].
    + subst t. rewrite Hb. rewrite Hns. simpl.
      apply NoDup_cons in Hnd as [Hbl Hnd].
      rewrite bool_decide_eq_true_2 by (apply elem_of_cons; by left).
      eexists. split; [reflexivity|].
      rewrite filter_cons_False by (intros H; by apply H).
      rewrite filter_ne_not_in by done.
      split.
      { eapply span_list_cons; [done|apply lookup_insert_eq|]. simpl.
        eapply span_list_frame; [|exact Hl'].
        intros a Ha. apply lookup_insert_ne. intros ->.
        apply Hprev. there. }
      split.
      { intros a Ha. apply lookup_insert_ne. intros ->.
        apply Ha. here. }
      split; [rewrite lookup_insert_ne by congruence; congruence|].
      intros Hnot. exfalso. apply Hnot. here.
    + assert (b ≠ t) as Hbt by congruence.
      destruct (IH fuel b) as (d' & Hrun & Hlist & Hframe & Ht & Hsame);
        [by rewrite Hb in Hl|done|lia|].
      rewrite Hb. rewrite Hrun.
      assert (bool_decide (t ∈ b :: l) = bool_decide (t ∈ l)) as ->.
      { apply bool_decide_ext. rewrite elem_of_cons.
        split; [intros [?|?]; [congruence|done]|by right]. }
      exists d'. split; [done|].
      rewrite filter_cons_True by done.
      split.
      { eapply span_list_cons; [done| |by rewrite Hb].
        rewrite Hframe; [done|]. done. }
      split.
      { intros a Ha. apply Hframe. intros Hin. apply Ha.
        there. }
      split; [done|].
      intros Hnot. apply Hsame. intros Hin. apply Hnot.
      there.
Qed.

End coalesce.

Section merge.

Implicit Types d : gmap Z Span.
Implicit Types pc : PageCache.

Lemma free_list_inj pc k l1 l2 : free_list pc k l1 → free_list pc k l2 → l1 = l2.
Proof. apply linked_inj. Qed.

Lemma merge_right_some fuel span nextAddr pc sp nextSpan ns l :
  descr pc !! span = Some sp →
  descr pc !! 0 = None →
  spanMap_ pc !! nextAddr = Some nextSpan →
  descr pc !! nextSpan = Some ns →
  free_list pc (numPages ns) l →
  (length l < fuel)%nat →
  span ∉ l →
  ∃ pc1,
    merge_right fuel span nextAddr pc = Some (pc1, bool_decide (nextSpan ∈ l))
    ∧ (nextSpan ∈ l →
         free_list pc1 (numPages ns) (filter (λ a, a ≠ nextSpan) l)
         ∧ spanMap_ pc1 = delete nextAddr (spanMap_ pc)
         ∧ descr pc1 !! nextSpan = None
         ∧ descr pc1 !! span =
             Some (set_numPages (wrap (numPages sp + numPages ns)) sp))
    ∧ (nextSpan ∉ l →
         spanMap_ pc1 = spanMap_ pc ∧ descr pc1 = descr pc
         ∧ ∀ k, slot (freeSpans_ pc1) k = slot (freeSpans_ pc) k).
Proof.
  intros Hsp Hnull Hnext Hns Hl Hlen Hspan_l.
  unfold merge_right. rewrite Hnext, Hns. simpl.
  set (kn := numPages ns) in *.
  pose proof (linked_NoDup _ _ _ Hl) as Hnd.
  assert (nextSpan ≠ 0) as Hns0 by (intros ->; congruence).
  assert (∀ fs : gmap Z Z, ∀ k,
    slot (<[kn := slot fs kn]> fs) k = slot fs k) as Hslot.
  { intros fs k. destruct (decide (kn = k)) as [<-|Hk].
    - by rewrite slot_insert_eq.
    - by rewrite slot_insert_ne. }
  destruct (decide (slot (freeSpans_ pc) kn = nextSpan)) as [Hhead|Hhead].
  - (* the neighbour is the head of its list *)
    destruct l as [|a l']; [unfold free_list in Hl; simpl in Hl; congruence|].
    pose proof Hl as (Ha & _ & s & Hs & Hl')%span_list_cons_inv.
    rewrite Hhead in Ha. subst a.
    assert (s = ns) as -> by congruence.
    apply NoDup_cons in Hnd as [Hnl' Hnd'].
    apply not_elem_of_cons in Hspan_l as [Hspan_ne Hspan_l'].
    simpl. rewrite Hsp. simpl. rewrite Hns. simpl.
    rewrite bool_decide_eq_true_2 by (apply elem_of_cons; by left).
    eexists. split; [reflexivity|]. split; [|intros Hnot; exfalso; apply Hnot; apply elem_of_cons; by left].
    intros _.
    rewrite filter_cons_False by (intros H; by apply H).
    rewrite filter_ne_not_in by done.
    split.
    { unfold free_list. simpl. rewrite slot_insert_eq.
      eapply span_list_frame; [|exact Hl'].
      intros a Ha. rewrite lookup_delete_ne by (intros ->; done).
      rewrite lookup_insert_ne by (intros ->; done). done. }
    simpl. split; [done|]. split; [apply lookup_delete_eq|].
    rewrite lookup_delete_ne by done. apply lookup_insert_eq.
  - destruct (decide (slot (freeSpans_ pc) kn ≠ 0)) as [Hnz|Hz].
    + (* the list is searched behind its head *)
      destruct l as [|a l']; [unfold free_list in Hl; simpl in Hl; congruence|].
      pose proof Hl as (Ha & _)%linked_head. subst a.
      destruct (unlink_after_spec fuel (descr pc) (slot (freeSpans_ pc) kn) nextSpan l')
        as (d1 & Hrun & Hl1 & Hframe & Ht & Hsame);
        [exact Hl|done|simpl in Hlen; lia|].
      rewrite Hrun. simpl.
      assert (nextSpan ∈ slot (freeSpans_ pc) kn :: l' ↔ nextSpan ∈ l') as Hin_iff.
      { rewrite elem_of_cons. split; [intros [?|?]; [congruence|done]|by right]. }
      rewrite (bool_decide_ext _ _ Hin_iff).
      destruct (decide (nextSpan ∈ l')) as [Hin|Hnin].
      * rewrite bool_decide_eq_true_2 by done.
        assert (span ≠ nextSpan) as Hne.
        { intros ->. apply Hspan_l. by apply Hin_iff. }
        rewrite (Hframe span) by done. rewrite Hsp. simpl.
        rewrite Ht, Hns. simpl.
        eexists. split; [reflexivity|].
        split; [|intros Hnot; exfalso; apply Hnot; by apply Hin_iff].
        intros _. split.
        { unfold free_list. simpl. rewrite slot_insert_eq.
          rewrite filter_cons_True by done.
          eapply span_list_frame; [|exact Hl1].
          intros a Ha.
          assert (a ≠ nextSpan) as Hane.
          { apply elem_of_cons in Ha as [->|Ha]; [done|].
            by apply list_elem_of_filter in Ha as [? _]. }
          assert (a ≠ span) as Hasp.
          { intros ->. apply Hspan_l.
            apply elem_of_cons in Ha as [->|Ha]; [here|].
            apply list_elem_of_filter in Ha as [_ ?]. there. }
          rewrite lookup_delete_ne by done. by rewrite lookup_insert_ne. }
        simpl. split; [done|]. split; [apply lookup_delete_eq|].
        rewrite lookup_delete_ne by done. apply lookup_insert_eq.
      * rewrite bool_decide_eq_false_2 by done.
        rewrite (Hsame Hnin).
        eexists. split; [reflexivity|].
        split; [intros Hin; exfalso; by apply Hnin, Hin_iff|].
        intros _. simpl. split; [done|]. split; [done|]. apply Hslot.
    + (* the list is empty *)
      assert (slot (freeSpans_ pc) kn = 0) as Hz'.
      { destruct (decide (slot (freeSpans_ pc) kn = 0)); [done|]. exfalso. by apply Hz. }
      unfold free_list in Hl. rewrite Hz' in Hl. apply linked_null in Hl as ->.
      rewrite bool_decide_eq_false_2 by apply not_elem_of_nil.
      eexists. split; [reflexivity|].
      split; [by intros ?%elem_of_nil|].
      intros _. simpl. split; [done|]. split; [done|]. apply Hslot.
Qed.

Lemma merge_right_spec fuel span nextAddr pc sp :
  descr pc !! span = Some sp →
  page_wf fuel pc →
  not_free pc span →
  ∃ pc1 merged,
    merge_right fuel span nextAddr pc = Some (pc1, merged)
    ∧ (merged = true ↔ free_neighbour pc nextAddr)
    ∧ (∀ nextSpan ns l,
         merged = true →
         spanMap_ pc !! nextAddr = Some nextSpan →
         descr pc !! nextSpan = Some ns →
         free_list pc (numPages ns) l →
         free_list pc1 (numPages ns) (filter (λ a, a ≠ nextSpan) l)
         ∧ spanMap_ pc1 = delete nextAddr (spanMap_ pc)
         ∧ descr pc1 !! nextSpan = None
         ∧ descr pc1 !! span =
             Some (set_numPages (wrap (numPages sp + numPages ns)) sp))
    ∧ (merged = false →
         spanMap_ pc1 = spanMap_ pc ∧ descr pc1 = descr pc
         ∧ ∀ k, slot (freeSpans_ pc1) k = slot (freeSpans_ pc) k)
    ∧ (∃ sp1, descr pc1 !! span = Some sp1 ∧ pageAddr sp1 = pageAddr sp)
    ∧ (∀ a, a ≠ nextAddr → spanMap_ pc1 !! a = spanMap_ pc !! a).
Proof.
  intros Hsp (Hnull & Hmap & Hlists) Hnf.
  destruct (spanMap_ pc !! nextAddr) as [nextSpan|] eqn:Hnext.
  2: { exists pc, false. unfold merge_right. rewrite Hnext.
       split; [done|]. split.
       { split; [done|]. intros (? & ? & ? & ? & _). congruence. }
       split; [done|]. split; [done|]. split; [by exists sp|done]. }
  destruct (Hmap _ _ Hnext) as [ns Hns].
  destruct (Hlists (numPages ns)) as (l & Hl & Hlen).
  pose proof (Hnf _ _ Hl) as Hspan_l.
  destruct (merge_right_some fuel span nextAddr pc sp nextSpan ns l)
    as (pc1 & Hrun & Hyes & Hno); [done..|].
  exists pc1, (bool_decide (nextSpan ∈ l)). split; [done|].
  split.
  { rewrite bool_decide_eq_true. split.
    - intros Hin. by exists nextSpan, ns, l.
    - intros (n' & ns' & l' & Hn' & Hns' & Hl' & Hin).
      rewrite Hnext in Hn'. injection Hn' as <-.
      rewrite Hns in Hns'. injection Hns' as <-.
      by rewrite (free_list_inj _ _ _ _ Hl Hl'). }
  split.
  { intros n' ns' l' Hm%bool_decide_eq_true [= <-] Hns' Hl'.
    rewrite Hns in Hns'. injection Hns' as <-.
    rewrite <- (free_list_inj _ _ _ _ Hl Hl'). by apply Hyes. }
  split.
  { intros Hm%bool_decide_eq_false. by apply Hno. }
  split.
  - destruct (decide (nextSpan ∈ l)) as [Hin|Hnin].
    + destruct (Hyes Hin) as (_ & _ & _ & Hs). eexists. split; [exact Hs|done].
    + destruct (Hno Hnin) as (_ & -> & _). by exists sp.
  - intros a Ha. destruct (decide (nextSpan ∈ l)) as [Hin|Hnin].
    + destruct (Hyes Hin) as (_ & -> & _). by rewrite lookup_delete_ne.
    + by destruct (Hno Hnin) as (-> & _).
Qed.

End merge.


Section neighbours.

Lemma pc_neighbours_arises :
  ∃ pc1 pc2 m1 m2,
    allocateSpan (Some 65536) 8 emptyPageCache ∅ = Some (65536, pc1, m1)
    ∧ allocateSpan (Some 98304) 8 pc1 m1 = Some (98304, pc2, m2)
    ∧ deallocateSpan 1 98304 8 pc2 = Some pc_neighbours.
Proof.
  eexists _, _, _, _.
  split; [vm_compute; reflexivity|].
  split; [vm_compute; reflexivity|].
  vm_compute. reflexivity.
Qed.




End neighbours.


(** The merge on [pc_neighbours], run: the span at 65536 ends with 16 pages. *)
Lemma deallocateSpan_merges_right_run :
  ∃ pc', deallocateSpan 2 65536 8 pc_neighbours = Some pc'
    ∧ descr pc' !! 1 = Some (mkSpan 65536 16 0)
    ∧ descr pc' !! 2 = None
    ∧ spanMap_ pc' !! 98304 = None
    ∧ freeSpans_ pc' !! 16 = Some 1.
Proof.
  eexists. split; [vm_compute; reflexivity|].
  do 3 (split; [vm_compute; reflexivity|]). vm_compute. reflexivity.
Qed.

(** Outside that domain the sum wraps around.  A span of one page at 65536
    is free and the span behind it, at 69632, is given back with
    [2 ^ 52 - 1] pages: [69632 + (2 ^ 52 - 1) * PAGE_SIZE] is 65536 modulo
    [2 ^ 64], so the free span in front is found and merged, and its entry
    of [spanMap_] is erased. *)
Lemma deallocateSpan_sum_wraps :
  ∃ pc1 pc2 pc3 pc4 m1 m2,
    allocateSpan (Some 65536) 1 emptyPageCache ∅ = Some (65536, pc1, m1)
    ∧ allocateSpan (Some 69632) 1 pc1 m1 = Some (69632, pc2, m2)
    ∧ deallocateSpan 1 65536 1 pc2 = Some pc3
    ∧ deallocateSpan 1 69632 (2 ^ 52 - 1) pc3 = Some pc4
    ∧ spanMap_ pc3 !! 65536 = Some 1
    ∧ spanMap_ pc4 !! 65536 = None
    ∧ descr pc4 !! 1 = None
    ∧ descr pc4 !! 2 = Some (mkSpan 69632 2 0).
Proof.
  eexists _, _, _, _, _, _.
  split; [vm_compute; reflexivity|].
  split; [vm_compute; reflexivity|].
  split; [vm_compute; reflexivity|].
  split; [vm_compute; reflexivity|].
  split; [vm_compute; reflexivity|].
  split; [vm_compute; reflexivity|].
  split; vm_compute; reflexivity.
Qed.

(** ** Chains of blocks *)

Section chains.

Implicit Types m : gmap Z Z.
Implicit Types l : list Z.

Lemma chain_nil_inv m h : chain m h [] → h = 0.
Proof. done. Qed.

Lemma chain_hd m h l : chain m h l → h = hd_ptr l.
Proof. destruct l; [done|]. by intros (-> & _). Qed.

Lemma chain_nil_head m l : chain m 0 l → l = [].
Proof. apply linked_null. Qed.

Lemma chain_inj m h l1 l2 : chain m h l1 → chain m h l2 → l1 = l2.
Proof. apply linked_inj. Qed.

Lemma chain_NoDup m h l : chain m h l → NoDup l.
Proof. apply linked_NoDup. Qed.

Lemma chain_not_null m h l : chain m h l → 0 ∉ l.
Proof. apply linked_not_null. Qed.

Lemma chain_app_inv m h l1 l2 :
  chain m h (l1 ++ l2) → chain m (hd_ptr l2) l2.
Proof.
  revert h. induction l1 as [|a l1 IH]; intros h H; simpl in H.
  - by rewrite <- (chain_hd _ _ _ H).
  - apply chain_cons_inv in H as (_ & _ & H). by eapply IH.
Qed.

(** Cutting a chain behind the block [p]: the blocks up to [p] form a chain
    that ends at [p], the blocks behind [p] are the chain that the first
    word of [p] pointed to. *)
Lemma chain_split m h l1 p l2 :
  chain m h (l1 ++ p :: l2) →
  chain (store m p 0) h (l1 ++ [p])
  ∧ chain (store m p 0) (load m p) l2
  ∧ chain m (load m p) l2.
Proof.
  intros H. pose proof (chain_NoDup _ _ _ H) as Hnd.
  revert h H Hnd. induction l1 as [|a l1 IH]; intros h H Hnd; simpl in *.
  - apply chain_cons_inv in H as (-> & Hp & H).
    apply NoDup_cons in Hnd as [Hpl _].
    split; [|split; [by apply chain_store|done]].
    apply chain_cons; [done|]. by rewrite load_store_eq.
  - apply chain_cons_inv in H as (-> & Ha & H).
    apply NoDup_cons in Hnd as [Hal Hnd].
    destruct (IH _ H Hnd) as (H1 & H2 & H3).
    split; [|done].
    apply chain_cons; [done|].
    rewrite load_store_ne; [done|].
    intros ->. apply Hal. apply elem_of_app. right. here.
Qed.

(** Hanging a chain behind the block [p] of another one. *)
Lemma chain_app_store m h1 l1 p l' h2 l2 :
  chain m h1 (l1 ++ p :: l') →
  chain m h2 l2 →
  (∀ a, a ∈ l1 ++ [p] → a ∉ l2) →
  chain (store m p h2) h1 ((l1 ++ [p]) ++ l2).
Proof.
  intros H1 H2 Hdisj. pose proof (chain_NoDup _ _ _ H1) as Hnd.
  assert (chain (store m p h2) h2 l2) as H2'.
  { apply chain_store; [|done]. apply Hdisj. apply elem_of_app. right.
    here. }
  clear H2. revert h1 H1 Hnd Hdisj.
  induction l1 as [|a l1 IH]; intros h1 H1 Hnd Hdisj; simpl in *.
  - apply chain_cons_inv in H1 as (-> & Hp & _).
    apply chain_cons; [done|]. by rewrite load_store_eq.
  - apply chain_cons_inv in H1 as (-> & Ha & H1).
    apply NoDup_cons in Hnd as [Hal Hnd].
    apply chain_cons; [done|].
    rewrite load_store_ne.
    + apply IH; [done..|]. intros b Hb. apply Hdisj. there.
    + intros ->. apply Hal. apply elem_of_app. right. here.
Qed.

Lemma last_cons_default (a b : Z) l :
  default b (last (a :: l)) = default a (last l).
Proof.
  destruct l as [|c l]; [done|]. rewrite last_cons_cons.
  destruct (last (c :: l)) eqn:E; [done|]. by apply last_None in E.
Qed.

(** The walk of [fetchRange] over an existing list stops in front of the
    block number [n] and remembers the last block it passed. *)
Lemma take_blocks_spec n m h l prev :
  chain m h l →
  take_blocks n m h prev = (hd_ptr (drop n l), default prev (last (take n l))).
Proof.
  revert h l prev. induction n as [|n IH]; intros h l prev H; simpl.
  - by rewrite (chain_hd _ _ _ H).
  - destruct l as [|a l].
    + apply chain_nil_inv in H. subst h. by rewrite decide_True.
    + apply chain_cons_inv in H as (-> & Ha & H).
      rewrite decide_False by done. rewrite (IH _ _ _ H).
      simpl. by rewrite last_cons_default.
Qed.

(** The walk of [returnRange] ends on a block of the chain: the last block
    of some non-empty prefix, and of the whole chain when the bound allows. *)
Lemma last_block_spec n m h l :
  chain m h l → l ≠ [] →
  ∃ k, (1 <= k <= length l)%nat
    ∧ last (take k l) = Some (last_block n m h)
    ∧ ((length l <= S n)%nat → k = length l).
Proof.
  revert h l. induction n as [|n IH]; intros h l H Hne; simpl.
  - destruct l as [|a l]; [done|]. apply chain_cons_inv in H as (-> & _ & _).
    exists 1%nat. simpl. split; [lia|]. split; [done|].
    intros. destruct l; simpl in *; lia.
  - destruct l as [|a l]; [done|]. apply chain_cons_inv in H as (-> & Ha & H).
    case_decide as Hz.
    + rewrite Hz in H. apply chain_nil_head in H as ->.
      exists 1%nat. simpl. split; [lia|]. done.
    + destruct l as [|b l]; [by apply chain_nil_inv in H|].
      destruct (IH _ _ H) as (k & Hk & Hlast & Hfull); [done|].
      exists (S k). simpl in *. split; [lia|]. split.
      * destruct k as [|k]; [lia|]. simpl. simpl in Hlast. exact Hlast.
      * intros. f_equal. apply Hfull. lia.
Qed.

(** The walk of [returnToCentralCache] to the split node: it ends on the
    block number [n] of the list, or on null when the list is too short. *)
Lemma split_walk_spec n m batchNum i h l returnNum :
  chain m h l → l ≠ [] →
  ((n < length l)%nat →
     split_walk n m batchNum i h returnNum = (default 0 (l !! n), returnNum)
     ∧ default 0 (l !! n) ≠ 0)
  ∧ ((length l <= n)%nat → (split_walk n m batchNum i h returnNum).1 = 0).
Proof.
  revert h l i. induction n as [|n IH]; intros h l i H Hne.
  - destruct l as [|a l]; [done|]. apply chain_cons_inv in H as (-> & Ha & _).
    split; [done|]. simpl. lia.
  - destruct l as [|a l]; [done|]. apply chain_cons_inv in H as (-> & Ha & H).
    simpl. case_decide as Hz.
    + rewrite Hz in H. apply chain_nil_head in H as ->.
      split; [simpl; lia|done].
    + destruct l as [|b l]; [by apply chain_nil_inv in H|].
      destruct (IH _ _ (i + 1) H ltac:(done)) as [IH1 IH2].
      split; intros Hlen.
      * apply IH1. simpl in *. lia.
      * apply IH2. simpl in *. lia.
Qed.

Lemma chain_list_spec fuel m h l :
  chain m h l → (length l < fuel)%nat → chain_list fuel m h = l.
Proof.
  revert h l. induction fuel as [|fuel IH]; intros h l H Hlen; [lia|].
  simpl. destruct l as [|a l].
  - apply chain_nil_inv in H. by rewrite decide_True.
  - apply chain_cons_inv in H as (-> & Ha & H).
    rewrite decide_False by done. f_equal. apply IH; [done|]. simpl in Hlen. lia.
Qed.

End chains.

(** ** Carving a span into blocks *)

Section carving.

Implicit Types m : gmap Z Z.

Lemma blocks_nil start size first : blocks start size first 0 = [].
Proof. done. Qed.

Lemma blocks_cons start size first n :
  blocks start size first (S n)
  = (start + first * size) :: blocks start size (first + 1) n.
Proof.
  unfold blocks. rewrite Nat2Z.inj_succ. rewrite seqZ_cons by lia.
  rewrite fmap_cons. do 3 f_equal; lia.
Qed.

Lemma length_blocks start size first n : length (blocks start size first n) = n.
Proof. unfold blocks. rewrite length_fmap, length_seqZ. lia. Qed.

Lemma elem_of_blocks start size first n a :
  a ∈ blocks start size first n
  ↔ ∃ k, first <= k < first + Z.of_nat n ∧ a = start + k * size.
Proof.
  unfold blocks. rewrite list_elem_of_fmap. split.
  - intros (k & -> & Hk%elem_of_seqZ). exists k. split; [lia|done].
  - intros (k & Hk & ->). exists k. split; [done|]. apply elem_of_seqZ. lia.
Qed.

Lemma blocks_app start size first n1 n2 :
  blocks start size first (n1 + n2)
  = blocks start size first n1 ++ blocks start size (first + Z.of_nat n1) n2.
Proof.
  revert first. induction n1 as [|n1 IH]; intros first.
  - simpl. do 2 f_equal. lia.
  - simpl plus. rewrite !blocks_cons. simpl. rewrite IH. do 3 f_equal. lia.
Qed.

Lemma block_addr_inj start size k k' :
  0 < size → start + k * size = start + k' * size → k = k'.
Proof. intros Hs H. nia. Qed.

Lemma link_blocks_load_out n start size i m a :
  (∀ j, i <= j < i + Z.of_nat n → a ≠ start + (j - 1) * size) →
  load (link_blocks n start size i m) a = load m a.
Proof.
  revert i m. induction n as [|n IH]; intros i m Hout; [done|].
  simpl. rewrite IH by (intros j Hj; apply Hout; lia).
  apply load_store_ne. intros Heq. by apply (Hout i); [lia|].
Qed.

Lemma link_blocks_load_in n start size i m j :
  0 < size → i <= j < i + Z.of_nat n →
  load (link_blocks n start size i m) (start + (j - 1) * size) = start + j * size.
Proof.
  intros Hs. revert i m. induction n as [|n IH]; intros i m Hj; [lia|].
  simpl. destruct (decide (j = i)) as [->|Hne].
  - rewrite link_blocks_load_out; [apply load_store_eq|].
    intros j' Hj' Heq. apply block_addr_inj in Heq; [lia|done].
  - apply IH. lia.
Qed.

(** A memory whose blocks [first .. first + n] of the span point each to
    the next one, the last to null, holds the chain of these blocks. *)
Lemma chain_blocks m start size first n :
  0 < size → 0 < start → 0 <= first →
  (∀ k, first <= k < first + Z.of_nat n →
        load m (start + k * size) = start + (k + 1) * size) →
  load m (start + (first + Z.of_nat n) * size) = 0 →
  chain m (start + first * size) (blocks start size first (S n)).
Proof.
  intros Hs Hst. revert first. induction n as [|n IH]; intros first Hf Hlink Hend.
  - rewrite blocks_cons, blocks_nil. apply chain_cons; [nia|].
    replace (first + Z.of_nat 0) with first in Hend by lia. by rewrite Hend.
  - rewrite blocks_cons. apply chain_cons; [nia|].
    rewrite Hlink by lia. apply IH; [lia| |].
    + intros k Hk. apply Hlink. lia.
    + rewrite <- Hend. do 3 f_equal. lia.
Qed.

(** Threading the blocks [lo .. hi - 1] of the span, as both loops of
    [fetchRange] do, yields their chain and writes to no other word. *)
Lemma link_range_spec m start size lo hi :
  0 < size → 0 < start → 0 <= lo < hi →
  let m' := store (link_blocks (Z.to_nat (hi - (lo + 1))) start size (lo + 1) m)
                  (start + (hi - 1) * size) 0 in
  chain m' (start + lo * size) (blocks start size lo (Z.to_nat (hi - lo)))
  ∧ (∀ a, (∀ k, lo <= k < hi → a ≠ start + k * size) → load m' a = load m a).
Proof.
  intros Hs Hst Hlo m'. split.
  - replace (Z.to_nat (hi - lo)) with (S (Z.to_nat (hi - (lo + 1)))) by lia.
    apply chain_blocks; [done..|lia| |].
    + intros k Hk. unfold m'. rewrite load_store_ne.
      * replace (start + k * size) with (start + ((k + 1) - 1) * size) by (f_equal; lia).
        apply link_blocks_load_in; [done|lia].
      * intros Heq. apply block_addr_inj in Heq; [lia|done].
    + unfold m'. replace (lo + Z.of_nat (Z.to_nat (hi - (lo + 1)))) with (hi - 1) by lia.
      apply load_store_eq.
  - intros a Ha. unfold m'. rewrite load_store_ne.
    + apply link_blocks_load_out. intros j Hj. apply Ha. lia.
    + intros <-. by apply (Ha (hi - 1)); [lia|].
Qed.

Lemma totalBlocks_nonneg size : 0 < size → 0 <= totalBlocks size.
Proof. intros. unfold totalBlocks. apply Z.div_pos; [done|lia]. Qed.

(** What [fetchRange] writes into a fresh span. *)
Lemma carve_spec start size batchNum index cfl m :
  0 < start → 0 < size → 1 <= batchNum →
  let total := totalBlocks size in
  let alloc := Z.min batchNum total in
  let cfl' := (carve start size batchNum index cfl m).1 in
  let m' := (carve start size batchNum index cfl m).2 in
  (∀ a, (∀ k, 0 <= k < total → a ≠ start + k * size) → load m' a = load m a)
  ∧ (2 <= alloc → chain m' start (blocks start size 0 (Z.to_nat alloc)))
  ∧ (alloc <= 1 → load m' start = load m start)
  ∧ (alloc < total →
       cfl' = <[index := start + alloc * size]> cfl
       ∧ chain m' (start + alloc * size)
           (blocks start size alloc (Z.to_nat (total - alloc))))
  ∧ (total <= alloc → cfl' = cfl).
Proof.
  intros Hst Hs Hb total alloc cfl' m'.
  pose proof (totalBlocks_nonneg size Hs) as Htot. fold total in Htot.
  assert (0 <= alloc <= total) as Halloc by (unfold alloc; lia).
  unfold cfl', m', carve. fold total. fold alloc.
  set (m1 := if decide (1 < alloc)
             then store (link_blocks (Z.to_nat (alloc - 1)) start size 1 m)
                        (start + (alloc - 1) * size) 0
             else m).
  assert ((∀ a, (∀ k, 0 <= k < alloc → a ≠ start + k * size) → load m1 a = load m a)
          ∧ (2 <= alloc → chain m1 start (blocks start size 0 (Z.to_nat alloc)))
          ∧ (alloc <= 1 → m1 = m)) as (Hf1 & Hc1 & He1).
  { unfold m1. case_decide as H1.
    - destruct (link_range_spec m start size 0 alloc) as [Hc Hf]; [done|done|lia|].
      replace (start + 0 * size) with start in Hc by lia.
      replace (alloc - (0 + 1)) with (alloc - 1) in * by lia.
      split; [exact Hf|]. split; [intros _; by rewrite Z.sub_0_r in Hc|lia].
    - split; [done|]. split; [lia|done]. }
  case_decide as H2; simpl.
  - destruct (link_range_spec m1 start size alloc total) as [Hc Hf]; [done|done|lia|].
    split.
    { intros a Ha. rewrite Hf by (intros k Hk; apply Ha; lia).
      apply Hf1. intros k Hk. apply Ha. lia. }
    split.
    { intros H. eapply chain_frame; [|by apply Hc1].
      intros a (k & Hk & ->)%elem_of_blocks. apply Hf.
      intros k' Hk' Heq. apply block_addr_inj in Heq; [lia|done]. }
    split.
    { intros H. rewrite Hf; [by rewrite He1|].
      intros k Hk Heq. replace start with (start + 0 * size) in Heq at 1 by lia.
      apply block_addr_inj in Heq; [lia|done]. }
    split; [done|lia].
  - split; [intros a Ha; apply Hf1; intros k Hk; apply Ha; lia|].
    split; [done|]. split; [intros H; by rewrite He1|]. split; [lia|done].
Qed.

End carving.

(** ** fetchRange *)

Section fetch.

Lemma take_last_split (l : list Z) n :
  l ≠ [] → (0 < n)%nat →
  ∃ l1 p, take n l = l1 ++ [p] ∧ l = l1 ++ p :: drop n l.
Proof.
  intros Hl Hn.
  destruct (last (take n l)) as [p|] eqn:E.
  - apply last_Some in E as [l1 E]. exists l1, p. split; [done|].
    rewrite <- (take_drop n l) at 1. rewrite E. by rewrite <- app_assoc.
  - apply last_None in E. destruct l; [done|]. destruct n; [lia|done].
Qed.

(** Taking from an existing list: the first [batchNum] blocks (or all of
    them) are cut off and handed out, the rest stays. *)
Lemma fetchRange_existing os index batchNum sh l :
  0 <= index < FREE_LIST_SIZE → 1 <= batchNum →
  slot (centralFreeList_ sh) index ≠ 0 →
  chain (memory sh) (slot (centralFreeList_ sh) index) l →
  let n := Z.to_nat batchNum in
  ∃ l1 p,
    take n l = l1 ++ [p]
    ∧ fetchRange os index batchNum sh
      = Some (slot (centralFreeList_ sh) index,
              {| centralFreeList_ := <[index := hd_ptr (drop n l)]> (centralFreeList_ sh);
                 pageCache := pageCache sh;
                 memory := store (memory sh) p 0 |})
    ∧ chain (store (memory sh) p 0) (slot (centralFreeList_ sh) index) (take n l)
    ∧ chain (store (memory sh) p 0) (hd_ptr (drop n l)) (drop n l).
Proof.
  intros Hi Hb Hhead Hl n.
  assert (l ≠ []) as Hne by (intros ->; by apply chain_nil_inv in Hl).
  destruct (take_last_split l n Hne ltac:(lia)) as (l1 & p & Htake & Hsplit).
  exists l1, p. split; [done|].
  assert (p ≠ 0) as Hp.
  { intros ->. apply (chain_not_null _ _ _ Hl). rewrite Hsplit.
    apply elem_of_app. right. here. }
  rewrite Hsplit in Hl. destruct (chain_split _ _ _ _ _ Hl) as (H1 & H2 & H3).
  rewrite <- Hsplit in Hl.
  split.
  - unfold fetchRange. rewrite decide_False by lia. rewrite decide_False by done.
    rewrite (take_blocks_spec _ _ _ _ _ Hl). fold n. rewrite Htake.
    rewrite last_snoc. simpl. by rewrite decide_True.
  - rewrite Htake. split; [done|].
    by rewrite <- (chain_hd _ _ _ H3).
Qed.

(** Carving a fresh span. *)
Lemma fetchRange_fresh os index batchNum sh start pc m0 :
  0 <= index < FREE_LIST_SIZE → 1 <= batchNum →
  slot (centralFreeList_ sh) index = 0 →
  fetchFromPageCache os ((index + 1) * ALIGNMENT) (pageCache sh) (memory sh)
    = Some (start, pc, m0) →
  start ≠ 0 →
  fetchRange os index batchNum sh
  = Some (start,
          {| centralFreeList_ :=
               (carve start ((index + 1) * ALIGNMENT) batchNum index
                      (centralFreeList_ sh) m0).1;
             pageCache := pc;
             memory :=
               (carve start ((index + 1) * ALIGNMENT) batchNum index
                      (centralFreeList_ sh) m0).2 |}).
Proof.
  intros Hi Hb Hhead Hpage Hstart.
  unfold fetchRange. rewrite decide_False by lia. rewrite decide_True by done.
  rewrite Hpage. simpl. rewrite decide_False by done.
  by destruct (carve _ _ _ _ _ _).
Qed.

Lemma sh_recycled_arises :
  ∃ pc1 m1,
    allocateSpan (Some 65536) 8 emptyPageCache ∅ = Some (65536, pc1, m1)
    ∧ deallocateSpan 1 65536 8 pc1 = Some (pageCache sh_recycled)
    ∧ store m1 65536 4660 = memory sh_recycled.
Proof.
  eexists _, _. split; [vm_compute; reflexivity|].
  split; [vm_compute; reflexivity|]. vm_compute. reflexivity.
Qed.

End fetch.

(** ** The blocks that a fresh span is carved into *)

Section carved.

(** Above 32 KiB the pages received hold exactly one block. *)
Lemma received_one_block size :
  SPAN_PAGES * PAGE_SIZE < size <= MAX_BYTES →
  (pagesReceived size * PAGE_SIZE) / size = 1.
Proof.
  change (SPAN_PAGES * PAGE_SIZE) with 32768. change MAX_BYTES with 262144.
  intros Hs. unfold pagesReceived.
  change (SPAN_PAGES * PAGE_SIZE) with 32768. change PAGE_SIZE with 4096.
  rewrite decide_False by lia. rewrite wrap_small by lia.
  pose proof (Z.div_mod (size + 4096 - 1) 4096 ltac:(lia)).
  pose proof (Z.mod_pos_bound (size + 4096 - 1) 4096 ltac:(lia)).
  symmetry. apply (Z.div_unique _ _ 1 ((size + 4096 - 1) / 4096 * 4096 - size)); lia.
Qed.

(** The count over the pages received is the count of the source, but for
    the classes above 32 KiB, where the source counts 0 and the pages hold
    one block. *)
Lemma received_totalBlocks size :
  8 <= size <= MAX_BYTES →
  (pagesReceived size * PAGE_SIZE) / size = Z.max 1 (totalBlocks size).
Proof.
  intros Hs. destruct (decide (size <= SPAN_PAGES * PAGE_SIZE)) as [Hle|Hgt].
  - destruct (totalBlocks_small size) as [<- ?]; lia.
  - destruct (totalBlocks_large size) as [-> _]; [lia|].
    rewrite received_one_block; lia.
Qed.

End carved.

(** C1. When the central list of a class is empty and the page tier hands
    out a span at [start], [fetchRange] carves the span into
    [T = (pagesReceived * PAGE_SIZE) / blockSize] contiguous blocks, where
    [pagesReceived] is the number of pages that [fetchFromPageCache] asks
    for: the blocks at [start + k * blockSize] for [k < T] lie within the
    pages received, the first [a = min(batchNum, T)] of them go to the
    caller ([start] is returned, and they are linked when there are two or
    more), the other [T - a] are linked as the central list, and no word
    outside the [T] blocks is written.  For every class, that is for every
    block size from 8 to [MAX_BYTES], [T] is at least 1. *)
Theorem fetchRange_carves_pages_received (os : option Z) (index batchNum : Z)
    (sh : Shared) (start : Z) (pc : PageCache) (m0 : gmap Z Z) :
  0 <= index < FREE_LIST_SIZE →
  1 <= batchNum →
  slot (centralFreeList_ sh) index = 0 →
  fetchFromPageCache os ((index + 1) * ALIGNMENT) (pageCache sh) (memory sh)
    = Some (start, pc, m0) →
  0 < start →
  let size := (index + 1) * ALIGNMENT in
  let T := (pagesReceived size * PAGE_SIZE) / size in
  let a := Z.min batchNum T in
  1 <= T
  ∧ T * size <= pagesReceived size * PAGE_SIZE < (T + 1) * size
  ∧ fetchFromPageCache os size (pageCache sh) (memory sh)
    = allocateSpan os (pagesReceived size) (pageCache sh) (memory sh)
  ∧ ∃ sh',
      fetchRange os index batchNum sh = Some (start, sh')
      ∧ pageCache sh' = pc
      ∧ (∀ j, j ≠ index →
           slot (centralFreeList_ sh') j = slot (centralFreeList_ sh) j)
      ∧ (2 <= a → chain (memory sh') start (blocks start size 0 (Z.to_nat a)))
      ∧ chain (memory sh') (slot (centralFreeList_ sh') index)
          (blocks start size a (Z.to_nat (T - a)))
      ∧ (∀ p, p ∉ blocks start size 0 (Z.to_nat T) →
           load (memory sh') p = load m0 p).
Proof.
  intros Hi Hb Hhead Hpage Hstart size T a.
  assert (8 <= size <= MAX_BYTES) as Hs.
  { unfold size. change FREE_LIST_SIZE with 32768 in Hi.
    change ALIGNMENT with 8. change MAX_BYTES with 262144. lia. }
  assert (T = Z.max 1 (totalBlocks size)) as HT by apply (received_totalBlocks _ Hs).
  pose proof (totalBlocks_nonneg size ltac:(lia)) as Htot.
  split; [lia|]. split.
  { unfold T. pose proof (Z.div_mod (pagesReceived size * PAGE_SIZE) size ltac:(lia)).
    pose proof (Z.mod_pos_bound (pagesReceived size * PAGE_SIZE) size ltac:(lia)).
    nia. }
  split; [apply fetchFromPageCache_pagesReceived|].
  eexists. split; [by apply fetchRange_fresh; [..|lia]|]. simpl.
  split; [done|].
  destruct (carve_spec start size batchNum index (centralFreeList_ sh) m0
              Hstart ltac:(lia) Hb) as (Hframe & Hgiven & _ & Hrest & Hnone).
  fold size.
  destruct (decide (totalBlocks size = 0)) as [H0|Hpos].
  - (* more than 32 KiB: the one block is the span *)
    rewrite H0 in *. assert (T = 1) as HT1 by lia.
    assert (a = 1) as Ha1 by (unfold a; lia).
    rewrite (Hnone ltac:(lia)).
    split; [done|]. split; [lia|]. split.
    + rewrite HT1, Ha1. simpl. by rewrite Hhead.
    + intros p _. apply Hframe. intros k Hk. lia.
  - assert (T = totalBlocks size) as HTt by lia.
    assert (a = Z.min batchNum (totalBlocks size)) as Ha by (unfold a; by rewrite HTt).
    rewrite <- HTt in *. rewrite <- Ha in *. clear Ha.
    split.
    { intros j Hj. destruct (decide (a < T)) as [Hlt|Hge].
      - destruct (Hrest Hlt) as [-> _]. by rewrite slot_insert_ne.
      - by rewrite (Hnone ltac:(lia)). }
    split; [done|]. split.
    + destruct (decide (a < T)) as [Hlt|Hge].
      * destruct (Hrest Hlt) as [-> Hc]. by rewrite slot_insert_eq.
      * rewrite (Hnone ltac:(lia)). rewrite Hhead.
        replace (Z.to_nat (T - a)) with 0%nat by lia. done.
    + intros p Hp. apply Hframe. intros k Hk ->. apply Hp.
      apply elem_of_blocks. exists k. split; [lia|done].
Qed.

Lemma fetchRange_carves_pages_received_witness :
  1 <= (pagesReceived 32776 * PAGE_SIZE) / 32776
  ∧ ∃ sh',
      fetchRange (Some 65536) 4096 1 emptyShared = Some (65536, sh')
      ∧ pageCache sh' = mapped emptyPageCache 65536 9
      ∧ slot (centralFreeList_ sh') 4096 = 0.
Proof.
  destruct (fetchRange_carves_pages_received (Some 65536) 4096 1 emptyShared
              65536 (mapped emptyPageCache 65536 9) (memset0 ∅ 65536 36864))
    as (HT & _ & _ & sh' & Hrun & Hpc & _ & _ & Hc & _).
  - vm_compute. split; congruence.
  - lia.
  - reflexivity.
  - vm_compute. reflexivity.
  - lia.
  - split; [exact HT|]. exists sh'. split; [exact Hrun|]. split; [exact Hpc|].
    exact (chain_nil_inv _ _ Hc).
Defined.

(** C5, amended.  For [batchNum >= 1]: when the central list is not empty,
    [fetchRange] hands out its first [batchNum] blocks (all of them if
    there are fewer) as a chain that ends in null, and keeps the rest as
    the central list; when a fresh span is carved and
    [alloc = min(batchNum, totalBlocks)] is at least 2, the first [alloc]
    blocks of the span are handed out as a chain that ends in null; when
    [alloc] is at most 1, nothing is written into the block handed out: its
    first word is what the page tier delivered. *)
Theorem fetchRange_chain (os : option Z) (index batchNum : Z) (sh : Shared)
    (result : Z) (sh' : Shared) :
  0 <= index < FREE_LIST_SIZE →
  1 <= batchNum →
  fetchRange os index batchNum sh = Some (result, sh') →
  let size := (index + 1) * ALIGNMENT in
  let head := slot (centralFreeList_ sh) index in
  let alloc := Z.min batchNum (totalBlocks size) in
  (∀ l, head ≠ 0 → chain (memory sh) head l →
     result = head
     ∧ chain (memory sh') result (take (Z.to_nat batchNum) l)
     ∧ chain (memory sh') (slot (centralFreeList_ sh') index)
             (drop (Z.to_nat batchNum) l))
  ∧ (head = 0 → 0 < result → 2 <= alloc →
     chain (memory sh') result (blocks result size 0 (Z.to_nat alloc)))
  ∧ (head = 0 → 0 < result → alloc <= 1 →
     ∀ pc m0,
       fetchFromPageCache os size (pageCache sh) (memory sh) = Some (result, pc, m0) →
       load (memory sh') result = load m0 result).
Proof.
  intros Hi Hb Hrun size head alloc.
  assert (0 < size) as Hsize by (unfold size, ALIGNMENT; lia).
  split; [|split].
  - intros l Hhead Hl.
    destruct (fetchRange_existing os index batchNum sh l Hi Hb Hhead Hl)
      as (l1 & p & Htake & Hrun' & H1 & H2).
    rewrite Hrun in Hrun'. injection Hrun' as -> ->. simpl.
    split; [done|]. split; [done|]. by rewrite slot_insert_eq.
  - intros Hhead Hres Halloc.
    unfold fetchRange in Hrun. rewrite decide_False in Hrun by lia.
    rewrite decide_True in Hrun by done. fold size in Hrun.
    destruct (fetchFromPageCache _ _ _ _) as [[[start pc] m0]|] eqn:Hpage; [|done].
    simpl in Hrun. case_decide as Hz; [injection Hrun as <- _; lia|].
    pose proof (carve_spec start size batchNum index (centralFreeList_ sh) m0)
      as Hcarve.
    destruct (carve _ _ _ _ _ _) as [cfl m'] eqn:Hc.
    injection Hrun as <- <-. simpl.
    by apply Hcarve.
  - intros Hhead Hres Halloc pc m0 Hpage.
    unfold fetchRange in Hrun. rewrite decide_False in Hrun by lia.
    rewrite decide_True in Hrun by done. fold size in Hrun.
    rewrite Hpage in Hrun. simpl in Hrun. rewrite decide_False in Hrun by lia.
    pose proof (carve_spec result size batchNum index (centralFreeList_ sh) m0)
      as Hcarve.
    destruct (carve _ _ _ _ _ _) as [cfl m'] eqn:Hc.
    injection Hrun as <-. simpl.
    by apply Hcarve.
Qed.

Lemma fetchRange_chain_witness :
  ∃ sh', fetchRange None 0 2 sh_three = Some (4096, sh')
    ∧ chain (memory sh') 4096 [4096; 4104]
    ∧ chain (memory sh') (slot (centralFreeList_ sh') 0) [4112].
Proof.
  eexists. split; [vm_compute; reflexivity|].
  match goal with
  | |- chain (memory ?s) _ _ ∧ _ =>
      pose proof (fetchRange_chain None 0 2 sh_three 4096 s
                    ltac:(vm_compute; split; congruence) ltac:(lia)
                    ltac:(vm_compute; reflexivity)) as (H & _)
  end.
  destruct (H [4096; 4104; 4112]) as (_ & H1 & H2).
  - vm_compute. congruence.
  - vm_compute. repeat first [split; [done|]|eexists; split; [reflexivity|]].
    reflexivity.
  - split; [exact H1|exact H2].
Defined.

(** C5 as stated fails for [batchNum = 1] on a recycled span: the block
    handed out keeps the word its former user left, so that the single
    block is not a chain that ends in null. *)
Lemma fetchRange_single_block_unterminated :
  ∃ sh', fetchRange None 255 1 sh_recycled = Some (65536, sh')
    ∧ Z.min 1 (totalBlocks ((255 + 1) * ALIGNMENT)) = 1
    ∧ load (memory sh') 65536 = 4660
    ∧ ¬ chain (memory sh') 65536 (blocks 65536 ((255 + 1) * ALIGNMENT) 0 1).
Proof.
  eexists. split; [vm_compute; reflexivity|].
  split; [reflexivity|]. split; [vm_compute; reflexivity|].
  intros (_ & _ & H)%chain_cons_inv. apply chain_nil_inv in H.
  vm_compute in H. discriminate.
Qed.

(** ** returnRange and the spill of the thread cache *)

Section spill.

Lemma returnRange_spec start size index sh R lc :
  start ≠ 0 → 0 <= index < FREE_LIST_SIZE →
  chain (memory sh) start R →
  chain (memory sh) (slot (centralFreeList_ sh) index) lc →
  (∀ a, a ∈ R → a ∉ lc) →
  ∃ k l1 e,
    (1 <= k <= length R)%nat
    ∧ take k R = l1 ++ [e]
    ∧ ((length R <= S (Z.to_nat (size - 1)))%nat → k = length R)
    ∧ returnRange start size index sh
      = {| centralFreeList_ := <[index := start]> (centralFreeList_ sh);
           pageCache := pageCache sh;
           memory := store (memory sh) e (slot (centralFreeList_ sh) index) |}
    ∧ chain (store (memory sh) e (slot (centralFreeList_ sh) index)) start
            (take k R ++ lc).
Proof.
  intros Hstart Hi HR Hlc Hdisj.
  assert (R ≠ []) as Hne by (intros ->; by apply chain_nil_inv in HR).
  destruct (last_block_spec (Z.to_nat (size - 1)) _ _ _ HR Hne)
    as (k & Hk & Hlast & Hfull).
  apply last_Some in Hlast as [l1 Htake].
  exists k, l1, (last_block (Z.to_nat (size - 1)) (memory sh) start).
  split; [done|]. split; [done|]. split; [done|]. split.
  - unfold returnRange. rewrite decide_False; [done|]. lia.
  - rewrite Htake.
    assert (R = l1 ++ last_block (Z.to_nat (size - 1)) (memory sh) start :: drop k R)
      as HRsplit.
    { rewrite <- (take_drop k R) at 1. rewrite Htake. by rewrite <- app_assoc. }
    rewrite HRsplit in HR.
    eapply chain_app_store; [exact HR|exact Hlc|].
    intros a Ha. apply Hdisj. rewrite <- (take_drop k R). rewrite Htake.
    apply elem_of_app. by left.
Qed.

Lemma returnToCentralCache_spec start size tc sh L lc :
  let index := SizeClass.getIndex size in
  let n := slot (freeListSize_ tc) index in
  let keep := Z.to_nat (Z.max (n / 4) 1) in
  let r := returnToCentralCache start size tc sh in
  0 <= index < FREE_LIST_SIZE →
  chain (memory sh) start L → L ≠ [] →
  chain (memory sh) (slot (centralFreeList_ sh) index) lc →
  (∀ a, a ∈ L → a ∉ lc) →
  (n <= 1 ∨ (length L < keep)%nat → r = (tc, sh))
  ∧ (1 < n → (keep <= length L)%nat →
     ∃ k,
       (k <= length (drop keep L))%nat
       ∧ ((length (drop keep L) <=
             S (Z.to_nat (wrap ((n - Z.max (n / 4) 1) * SizeClass.roundUp size) - 1)))%nat
          → k = length (drop keep L))
       ∧ freeList_ r.1 = <[index := start]> (freeList_ tc)
       ∧ freeListSize_ r.1 = <[index := Z.max (n / 4) 1]> (freeListSize_ tc)
       ∧ pageCache r.2 = pageCache sh
       ∧ (∀ a, a ∉ L → load (memory r.2) a = load (memory sh) a)
       ∧ (∀ j, j ≠ index →
            slot (centralFreeList_ r.2) j = slot (centralFreeList_ sh) j)
       ∧ chain (memory r.2) start (take keep L)
       ∧ chain (memory r.2) (slot (centralFreeList_ r.2) index)
               (take k (drop keep L) ++ lc)).
Proof.
  intros index n keep r Hi HL Hne Hlc Hdisj.
  assert (1 <= keep)%nat as Hkeep by (unfold keep; lia).
  pose proof (split_walk_spec (Z.to_nat (Z.max (n / 4) 1 - 1)) (memory sh) n 0
                start L (n - Z.max (n / 4) 1) HL Hne) as [Hin Hout].
  replace (Z.to_nat (Z.max (n / 4) 1 - 1)) with (keep - 1)%nat in * by (unfold keep; lia).
  split.
  - intros Hcase. unfold r, returnToCentralCache. fold index. fold n.
    case_decide as Hn; [done|].
    destruct Hcase as [?|Hshort]; [lia|].
    replace (Z.to_nat (Z.max (n / 4) 1 - 1)) with (keep - 1)%nat by (unfold keep; lia).
    specialize (Hout ltac:(lia)).
    destruct (split_walk _ _ _ _ _ _) as [splitNode returnNum]. simpl in Hout.
    subst splitNode. by rewrite decide_False by (intros H; by apply H).
  - intros Hn Hlong.
    destruct (Hin ltac:(lia)) as [Hwalk Hnz].
    destruct (take_last_split L keep Hne ltac:(lia)) as (l1 & p & Htake & Hsplit).
    assert (length l1 = (keep - 1)%nat) as Hl1.
    { apply (f_equal length) in Htake. rewrite length_take, length_app in Htake.
      simpl in Htake. lia. }
    assert (L !! (keep - 1)%nat = Some p) as Hp.
    { rewrite Hsplit. rewrite <- Hl1. apply list_lookup_middle. done. }
    rewrite Hp in Hwalk, Hnz. simpl in Hwalk, Hnz.
    pose proof HL as HL'. rewrite Hsplit in HL'.
    destruct (chain_split _ _ _ _ _ HL') as (H1 & H2 & H3).
    pose proof (chain_NoDup _ _ _ HL) as Hnd.
    assert (p ∈ L) as HpL.
    { rewrite Hsplit. apply elem_of_app. right. here. }
    assert (∀ a, a ∈ drop keep L → a ∈ L) as HRL.
    { intros a Ha. rewrite <- (take_drop keep L). apply elem_of_app. by right. }
    assert (∀ a, a ∈ take keep L → a ∈ L) as HTL.
    { intros a Ha. rewrite <- (take_drop keep L). apply elem_of_app. by left. }
    assert (r = let sh1 := {| centralFreeList_ := centralFreeList_ sh;
                              pageCache := pageCache sh;
                              memory := store (memory sh) p 0 |} in
                let tc' := {| freeList_ := <[index := start]> (freeList_ tc);
                              freeListSize_ := <[index := Z.max (n / 4) 1]> (freeListSize_ tc) |} in
                if decide (load (memory sh) p ≠ 0)
                then (tc', returnRange (load (memory sh) p)
                             (wrap ((n - Z.max (n / 4) 1) * SizeClass.roundUp size))
                             index sh1)
                else (tc', sh1)) as Hr.
    { unfold r, returnToCentralCache. fold index. fold n.
      rewrite decide_False by lia.
      replace (Z.to_nat (Z.max (n / 4) 1 - 1)) with (keep - 1)%nat by (unfold keep; lia).
      rewrite Hwalk. rewrite decide_True by done. simpl.
      destruct (decide (load (memory sh) p ≠ 0)) as [Hnext|Hnext].
      - rewrite decide_True; [done|]. split; [|done].
        assert (0 <= n / 4 < n); [|lia].
        split; [apply Z.div_pos; lia|apply Z.div_lt_upper_bound; lia].
      - rewrite decide_False; [done|]. intros [_ ?]. done. }
    rewrite Hr. simpl. clear Hr.
    destruct (decide (load (memory sh) p ≠ 0)) as [Hnext|Hnext].
    + assert (drop keep L ≠ []) as HRne.
      { intros HR. rewrite HR in H3. by apply chain_nil_inv in H3. }
      destruct (returnRange_spec (load (memory sh) p)
                  (wrap ((n - Z.max (n / 4) 1) * SizeClass.roundUp size)) index
                  {| centralFreeList_ := centralFreeList_ sh;
                     pageCache := pageCache sh;
                     memory := store (memory sh) p 0 |}
                  (drop keep L) lc)
        as (k & r1 & e & Hk & Hktake & Hfull & Hrun & Hchain);
        [done|done|done| |by intros a Ha; apply Hdisj, HRL|].
      { simpl. apply chain_store; [|done]. by apply Hdisj. }
      simpl in Hrun, Hchain. rewrite Hrun. simpl.
      assert (e ∈ drop keep L) as HeR.
      { rewrite <- (take_drop k (drop keep L)). rewrite Hktake.
        apply elem_of_app. left. apply elem_of_app. right. here. }
      exists k. split; [lia|]. split; [done|].
      split; [done|]. split; [done|]. split; [done|]. split.
      { intros a Ha. rewrite !load_store_ne; [done|intros ->; done|].
        intros ->. apply Ha. by apply HRL. }
      split; [intros j Hj; by rewrite slot_insert_ne|].
      split.
      * rewrite Htake. apply chain_store; [|done].
        intros He. rewrite <- Htake in He.
        rewrite <- (take_drop keep L) in Hnd.
        apply NoDup_app in Hnd as (_ & Hnd & _). by apply (Hnd e).
      * by rewrite slot_insert_eq.
    + assert (load (memory sh) p = 0) as Hz.
      { destruct (decide (load (memory sh) p = 0)); [done|]. exfalso. by apply Hnext. }
      rewrite Hz in H3. apply chain_nil_head in H3.
      exists 0%nat. simpl. split; [lia|]. split; [rewrite H3; simpl; lia|].
      split; [done|]. split; [done|]. split; [done|]. split.
      { intros a Ha. rewrite load_store_ne; [done|]. intros ->. done. }
      split; [done|]. split.
      * by rewrite Htake.
      * apply chain_store; [|done]. by apply Hdisj.
Qed.

End spill.

Section deallocate.

Lemma chain_list_chain fuel m h :
  (length (chain_list fuel m h) < fuel)%nat → chain m h (chain_list fuel m h).
Proof.
  revert h. induction fuel as [|fuel IH]; intros h Hlen; [simpl in Hlen; lia|].
  simpl in *. case_decide as Hz; [done|].
  apply chain_cons; [done|]. apply IH. simpl in Hlen. lia.
Qed.

(** [deallocate] on a thread list [l] and a central list [lc] that share no
    block with each other nor with the block given back. *)
Lemma deallocate_spec ptr size tc sh l lc :
  let index := SizeClass.getIndex size in
  let n := wrap (slot (freeListSize_ tc) index + 1) in
  let keep := Z.to_nat (Z.max (n / 4) 1) in
  let L := ptr :: l in
  let r := deallocate ptr size tc sh in
  0 <= size <= MAX_BYTES → ptr ≠ 0 →
  chain (memory sh) (slot (freeList_ tc) index) l → ptr ∉ l →
  chain (memory sh) (slot (centralFreeList_ sh) index) lc →
  (∀ a, a ∈ L → a ∉ lc) →
  (n <= THREAD_RETURN_THRESHOLD ∨ (length L < keep)%nat →
     r = ({| freeList_ := <[index := ptr]> (freeList_ tc);
             freeListSize_ := <[index := n]> (freeListSize_ tc) |},
          with_memory (store (memory sh) ptr (slot (freeList_ tc) index)) sh)
     ∧ chain (memory r.2) ptr L
     ∧ chain (memory r.2) (slot (centralFreeList_ sh) index) lc)
  ∧ (THREAD_RETURN_THRESHOLD < n → (keep <= length L)%nat →
     ∃ k,
       (k <= length (drop keep L))%nat
       ∧ ((length (drop keep L) <=
             S (Z.to_nat (wrap ((n - Z.max (n / 4) 1) * SizeClass.roundUp size) - 1)))%nat
          → k = length (drop keep L))
       ∧ freeList_ r.1 = <[index := ptr]> (freeList_ tc)
       ∧ freeListSize_ r.1 = <[index := Z.max (n / 4) 1]> (<[index := n]> (freeListSize_ tc))
       ∧ pageCache r.2 = pageCache sh
       ∧ (∀ a, a ∉ L → load (memory r.2) a = load (memory sh) a)
       ∧ (∀ j, j ≠ index →
            slot (centralFreeList_ r.2) j = slot (centralFreeList_ sh) j)
       ∧ chain (memory r.2) ptr (take keep L)
       ∧ chain (memory r.2) (slot (centralFreeList_ r.2) index)
               (take k (drop keep L) ++ lc)).
Proof.
  intros index n keep L r Hsize Hptr Hl Hnotin Hlc Hdisj.
  pose proof (getIndex_range size Hsize) as Hi. fold index in Hi.
  set (sh1 := {| centralFreeList_ := centralFreeList_ sh;
                 pageCache := pageCache sh;
                 memory := store (memory sh) ptr (slot (freeList_ tc) index) |}).
  set (tc1 := {| freeList_ := <[index := ptr]> (freeList_ tc);
                 freeListSize_ := <[index := n]> (freeListSize_ tc) |}).
  assert (chain (memory sh1) ptr L) as HL.
  { apply chain_cons; [done|]. simpl. rewrite load_store_eq. by apply chain_store. }
  assert (chain (memory sh1) (slot (centralFreeList_ sh1) index) lc) as Hlc1.
  { simpl. apply chain_store; [|done]. apply Hdisj. here. }
  assert (r = if shouldReturnToCentralCache index tc1
              then returnToCentralCache ptr size tc1 sh1 else (tc1, sh1)) as Hr.
  { unfold r, deallocate. rewrite decide_False by lia. fold index. fold n.
    cbn [freeList_]. rewrite slot_insert_eq. reflexivity. }
  assert (slot (freeListSize_ tc1) index = n) as Hn by apply slot_insert_eq.
  pose proof (returnToCentralCache_spec ptr size tc1 sh1 L lc) as Hspec.
  cbv zeta in Hspec. fold index in Hspec. rewrite Hn in Hspec. fold keep in Hspec.
  destruct (Hspec Hi HL ltac:(done) Hlc1 Hdisj) as [Hnone Hsome]. clear Hspec.
  unfold shouldReturnToCentralCache in Hr. rewrite Hn in Hr.
  split.
  - intros Hcase.
    assert (r = (tc1, sh1)) as ->.
    { rewrite Hr. case_bool_decide as Hth; [|done].
      apply Hnone. destruct Hcase as [?|?]; [lia|by right]. }
    done.
  - intros Hth Hlong. rewrite bool_decide_eq_true_2 in Hr by done.
    unfold THREAD_RETURN_THRESHOLD in Hth.
    destruct (Hsome ltac:(lia) Hlong)
      as (k & Hk & Hfull & Hfl & Hfs & Hpc & Hframe & Hslots & Hc1 & Hc2).
    rewrite <- Hr in *. exists k.
    split; [done|]. split; [done|].
    split; [rewrite Hfl; simpl; apply insert_insert_eq|].
    split; [done|]. split; [done|]. split.
    { intros a Ha. rewrite Hframe by done. simpl. apply load_store_ne.
      intros ->. apply Ha. here. }
    done.
Qed.

End deallocate.

(** C7, amended.  [deallocate(ptr, size)] with [size <= MAX_BYTES], on a
    thread list [l] for the class of [size] and a central list [lc] that
    share no block.  The block becomes the head of the thread list and the
    counter is incremented to [n].  If [n] is at most 64, or if the list
    holds fewer than [keep = max(n / 4, 1)] blocks ([keep] is computed from
    the counter, not from the list), nothing else happens.  If [n] exceeds
    64 and the list holds at least [keep] blocks, the first [keep] blocks
    stay, the counter becomes [keep], and the blocks behind them (the
    length of the list minus [keep], not [n - keep]) are put in front of
    the central list, as long as they are not more than the bound
    [(n - keep) * roundUp(size)] that [returnRange] is given.  A spill
    called with a counter of at most 1 changes nothing. *)
Theorem deallocate_spill (ptr size : Z) (tc : ThreadCache) (sh : Shared)
    (l lc : list Z) :
  0 <= size <= MAX_BYTES → ptr ≠ 0 →
  let index := SizeClass.getIndex size in
  let n := wrap (slot (freeListSize_ tc) index + 1) in
  let keep := Z.max (n / 4) 1 in
  let tc' := (deallocate ptr size tc sh).1 in
  let sh' := (deallocate ptr size tc sh).2 in
  chain (memory sh) (slot (freeList_ tc) index) l → ptr ∉ l →
  chain (memory sh) (slot (centralFreeList_ sh) index) lc →
  (∀ a, a ∈ ptr :: l → a ∉ lc) →
  (n <= THREAD_RETURN_THRESHOLD ∨ Z.of_nat (length (ptr :: l)) < keep →
     chain (memory sh') (slot (freeList_ tc') index) (ptr :: l)
     ∧ slot (freeListSize_ tc') index = n
     ∧ chain (memory sh') (slot (centralFreeList_ sh') index) lc)
  ∧ (THREAD_RETURN_THRESHOLD < n →
     keep <= Z.of_nat (length (ptr :: l)) →
     Z.of_nat (length (ptr :: l)) - keep
       <= wrap ((n - keep) * SizeClass.roundUp size) →
     chain (memory sh') (slot (freeList_ tc') index)
           (take (Z.to_nat keep) (ptr :: l))
     ∧ slot (freeListSize_ tc') index = keep
     ∧ chain (memory sh') (slot (centralFreeList_ sh') index)
             (drop (Z.to_nat keep) (ptr :: l) ++ lc))
  ∧ (∀ start tc0 sh0,
       slot (freeListSize_ tc0) index <= 1 →
       returnToCentralCache start size tc0 sh0 = (tc0, sh0)).
Proof.
  intros Hsize Hptr index n keep tc' sh' Hl Hnotin Hlc Hdisj.
  destruct (deallocate_spec ptr size tc sh l lc Hsize Hptr Hl Hnotin Hlc Hdisj)
    as [Hpush Hspill].
  fold index in Hpush, Hspill. fold n in Hpush, Hspill. fold keep in Hpush, Hspill.
  split; [|split].
  - intros Hcase.
    destruct Hpush as (Hr & Hc1 & Hc2); [destruct Hcase; [by left|right; lia]|].
    unfold tc', sh'. rewrite Hr in *. simpl in *.
    rewrite !slot_insert_eq. done.
  - intros Hth Hlong Hbound.
    destruct Hspill as (k & Hk & Hfull & Hfl & Hfs & _ & _ & _ & Hc1 & Hc2);
      [done|lia|].
    rewrite Hfull in Hc2.
    2: { rewrite length_drop. rewrite length_drop in Hk. simpl length in *. lia. }
    rewrite take_ge in Hc2 by lia.
    unfold tc', sh'. rewrite Hfl, Hfs. rewrite !slot_insert_eq. done.
  - intros start tc0 sh0 Hn. unfold returnToCentralCache. fold index.
    by rewrite decide_True.
Qed.

Lemma deallocate_spill_witness :
  let l := blocks 4096 8 0 16 in
  let r := deallocate 8192 8 tc_sixteen sh_sixteen in
  chain (memory r.2) (slot (freeList_ r.1) 0) (take 16 (8192 :: l))
  ∧ slot (freeListSize_ r.1) 0 = 16
  ∧ chain (memory r.2) (slot (centralFreeList_ r.2) 0) (drop 16 (8192 :: l) ++ []).
Proof.
  intros l r.
  assert (chain (memory sh_sixteen)
            (slot (freeList_ tc_sixteen) (SizeClass.getIndex 8)) l) as Hl.
  { change (chain (memory sh_sixteen) 4096 (chain_list 20 (memory sh_sixteen) 4096)).
    apply chain_list_chain. vm_compute. lia. }
  assert (8192 ∉ l) as Hnotin.
  { refine (bool_decide_unpack _ _). vm_compute. exact I. }
  assert (chain (memory sh_sixteen)
            (slot (centralFreeList_ sh_sixteen) (SizeClass.getIndex 8)) []) as Hlc.
  { reflexivity. }
  pose proof (deallocate_spill 8192 8 tc_sixteen sh_sixteen l []
                ltac:(vm_compute; split; congruence) ltac:(discriminate)
                Hl Hnotin Hlc ltac:(intros a _; apply not_elem_of_nil))
    as (_ & H & _).
  apply H; vm_compute; congruence.
Defined.

(** The bound that [returnRange] is given is a count of bytes,
    [returnNum * roundUp(size)].  For [deallocate(ptr, 0)] it is 0 (the
    size 0 is rounded up to 0, while [allocate(0)] serves 8 bytes): of the
    5 blocks behind the split node one reaches the central list, the
    other 4 are in no list any more. *)
Lemma spill_size_zero :
  let r := deallocate 8192 0 tc_sixteen sh_twenty in
  let len m h := length (chain_list 100 m h) in
  len (memory sh_twenty) (slot (freeList_ tc_sixteen) 0) = 20%nat
  ∧ SizeClass.roundUp 0 = 0
  ∧ slot (freeListSize_ r.1) 0 = 16
  ∧ len (memory r.2) (slot (freeList_ r.1) 0) = 16%nat
  ∧ len (memory r.2) (slot (centralFreeList_ r.2) 0) = 1%nat.
Proof. vm_compute. repeat split; reflexivity. Qed.

(** C7 as stated fails in a reachable state.  After 257 calls of
    [allocate(8)] by one thread the list of the thread holds 63 blocks but
    its counter is 68: each of the five refills added the batch of 64 to
    the counter for 63 blocks installed.  The next [deallocate] brings the
    list to 64 blocks and the counter to 69.  The spill keeps 17 blocks,
    which is [max(1, 69 / 4)] and differs from [max(1, 64 / 4) = 16] taken
    over the length of the list, and passes 47 blocks to the central tier,
    not [69 - 17 = 52]. *)
Lemma spill_counts_from_counter :
  match allocate_n 257 (Some 65536) 8 emptyThreadCache emptyShared with
  | Some (p :: _, tc, sh) =>
      let r := deallocate p 8 tc sh in
      let len m h := length (chain_list 5000 m h) in
      len (memory sh) (slot (freeList_ tc) 0) = 63%nat
      ∧ slot (freeListSize_ tc) 0 = 68
      ∧ slot (freeListSize_ r.1) 0 = 17
      ∧ len (memory r.2) (slot (freeList_ r.1) 0) = 17%nat
      ∧ len (memory r.2) (slot (centralFreeList_ r.2) 0)
        = (len (memory sh) (slot (centralFreeList_ sh) 0) + 47)%nat
      ∧ Z.max 1 (64 / 4) = 16
      ∧ 69 - 17 = 52
  | _ => False
  end.
Proof. vm_compute. repeat split; reflexivity. Qed.

(** ** The invariant of the reachable states *)

Section ghost.

Context {V : Type}.
Implicit Types M : gmap Z V.

Lemma lookup_set_all_in (l : list Z) (v : V) M a :
  a ∈ l → set_all l v M !! a = Some v.
Proof.
  induction l as [|b l IH]; [by intros ?%elem_of_nil|].
  intros Ha. simpl. destruct (decide (b = a)) as [->|Hne].
  - apply lookup_insert_eq.
  - rewrite lookup_insert_ne by done. apply IH.
    apply elem_of_cons in Ha as [?|?]; [congruence|done].
Qed.

Lemma lookup_set_all_out (l : list Z) (v : V) M a :
  a ∉ l → set_all l v M !! a = M !! a.
Proof.
  induction l as [|b l IH]; [done|].
  intros [Hne Hin]%not_elem_of_cons. simpl.
  rewrite lookup_insert_ne by done. by apply IH.
Qed.

Lemma lookup_set_all_Some (l : list Z) (v : V) M a w :
  set_all l v M !! a = Some w → (a ∈ l ∧ w = v) ∨ ((a ∉ l) ∧ M !! a = Some w).
Proof.
  destruct (decide (a ∈ l)) as [Hin|Hout].
  - rewrite lookup_set_all_in by done. intros [= <-]. by left.
  - rewrite lookup_set_all_out by done. by right.
Qed.

End ghost.

Section system.

Implicit Types sys : System.

Lemma thread_cache_insert sys t tc sh t' :
  thread_cache {| threads := <[t := tc]> (threads sys); shared := sh |} t'
  = if decide (t = t') then tc else thread_cache sys t'.
Proof.
  unfold thread_cache. simpl. case_decide as Ht.
  - subst. by rewrite lookup_insert_eq.
  - by rewrite lookup_insert_ne.
Qed.

Lemma blockSize_range size :
  0 <= size <= MAX_BYTES →
  size <= blockSize size ∧ 8 <= blockSize size <= MAX_BYTES.
Proof.
  change MAX_BYTES with 262144. intros Hs. unfold blockSize, ALIGNMENT.
  rewrite getIndex_spec by lia.
  pose proof (Z.div_mod (Z.max size 8 + 7) 8 ltac:(lia)).
  pose proof (Z.mod_pos_bound (Z.max size 8 + 7) 8 ltac:(lia)).
  lia.
Qed.

(** The index that [allocate] computes after replacing a size of 0. *)
Lemma allocate_index size :
  0 <= size <= MAX_BYTES →
  SizeClass.getIndex (SizeClass.roundUp (if decide (size = 0) then ALIGNMENT else size))
  = SizeClass.getIndex size.
Proof.
  intros Hs. case_decide as Hz.
  - subst. reflexivity.
  - apply getIndex_roundUp. lia.
Qed.

(** With no free span the page cache passes the request to the system. *)
Lemma allocateSpan_system os nPages pc m :
  freeSpans_ pc = ∅ →
  allocateSpan os nPages pc m =
    (match os with
     | None => Some (0, pc, m)
     | Some p =>
         if decide (p = 0) then Some (0, pc, memset0 m p (wrap (nPages * PAGE_SIZE)))
         else Some (p,
                    {| freeSpans_ := freeSpans_ pc;
                       spanMap_ := <[p := new_Span (descr pc)]> (spanMap_ pc);
                       descr := <[new_Span (descr pc) := mkSpan p nPages 0]> (descr pc) |},
                    memset0 m p (wrap (nPages * PAGE_SIZE)))
     end).
Proof.
  intros Hfs. unfold allocateSpan. rewrite Hfs, lower_bound_empty.
  destruct os as [p|]; simpl; [|done]. done.
Qed.

Lemma pagesReceived_range size :
  8 <= size <= MAX_BYTES →
  8 <= pagesReceived size <= 64 ∧ size <= pagesReceived size * PAGE_SIZE.
Proof.
  change MAX_BYTES with 262144. intros Hs. unfold pagesReceived.
  change (SPAN_PAGES * PAGE_SIZE) with 32768. change SPAN_PAGES with 8.
  change PAGE_SIZE with 4096.
  case_decide; [lia|]. rewrite wrap_small by lia.
  pose proof (Z.div_mod (size + 4096 - 1) 4096 ltac:(lia)).
  pose proof (Z.mod_pos_bound (size + 4096 - 1) 4096 ltac:(lia)).
  lia.
Qed.

End system.

Section invariant.

Implicit Types sys : System.
Implicit Types live : list (Z * Z).
Implicit Types cls : gmap Z Z.
Implicit Types own : gmap Z owner.

Lemma invariant_initial : invariant initial [] ∅ ∅.
Proof.
  split; simpl; try done.
  - intros t i. exists []. split; [done|]. by intros a ?%elem_of_nil.
  - intros i. exists []. split; [done|]. by intros a ?%elem_of_nil.
  - by intros p size ?%elem_of_nil.
  - constructor.
Qed.

(** A word the client may store to is not the first word of a block that
    a free list holds. *)
Lemma client_write_not_free sys live cls own addr a i :
  invariant sys live cls own →
  client_may_write sys live addr →
  cls !! a = Some i → own !! a ≠ Some OLive →
  a ≠ addr.
Proof.
  intros Hinv Hw Ha Hown ->.
  destruct (inv_block _ _ _ _ Hinv _ _ Ha) as (Hi & _ & _ & Hspan).
  unfold ALIGNMENT in *.
  destruct Hw as [(p & size & Hlive & Hrange)|Hout].
  - destruct (inv_live _ _ _ _ Hinv _ _ Hlive) as (Hsize & Hp & Hpown).
    assert (addr ≠ p) as Hne by (intros ->; congruence).
    pose proof (blockSize_range size Hsize) as [Hbs _]. unfold blockSize, ALIGNMENT in Hbs.
    destruct (inv_disjoint _ _ _ _ Hinv _ _ _ _ Ha Hp Hne) as [H|H];
      unfold ALIGNMENT in H; lia.
  - destruct Hspan as (s & span & sp & Hs & Hsp & Hlo & Hhi).
    destruct (Hout _ _ _ Hs Hsp); lia.
Qed.

Lemma invariant_write sys live cls own addr v :
  invariant sys live cls own →
  client_may_write sys live addr →
  invariant {| threads := threads sys;
               shared := with_memory (store (memory (shared sys)) addr v) (shared sys) |}
            live cls own.
Proof.
  intros Hinv Hw.
  assert (∀ h l,
    (∀ a, a ∈ l → ∃ i, cls !! a = Some i ∧ own !! a ≠ Some OLive) →
    chain (memory (shared sys)) h l →
    chain (store (memory (shared sys)) addr v) h l) as Hframe.
  { intros h l Hl Hc. apply chain_store; [|done].
    intros Hin. destruct (Hl _ Hin) as (i & Hi & Ho).
    by eapply client_write_not_free. }
  destruct Hinv as [H1 H2 H3 H4 H5 H6 H7 H8].
  split; simpl; try done.
  - intros t i. destruct (H4 t i) as (l & Hc & Hl). exists l. split; [|done].
    apply Hframe; [|done].
    intros a Ha. destruct (Hl _ Ha) as [? Ho]. exists i. split; [done|]. by rewrite Ho.
  - intros i. destruct (H5 i) as (l & Hc & Hl). exists l. split; [|done].
    apply Hframe; [|done].
    intros a Ha. destruct (Hl _ Ha) as [? Ho]. exists i. split; [done|]. by rewrite Ho.
Qed.

End invariant.

Section inv_deallocate.

Lemma deallocate_lists ptr size tc sh l lc :
  let index := SizeClass.getIndex size in
  let r := deallocate ptr size tc sh in
  0 <= size <= MAX_BYTES → ptr ≠ 0 →
  chain (memory sh) (slot (freeList_ tc) index) l → ptr ∉ l →
  chain (memory sh) (slot (centralFreeList_ sh) index) lc →
  (∀ a, a ∈ ptr :: l → a ∉ lc) →
  ∃ T R,
    (∀ a, a ∈ T → a ∈ ptr :: l)
    ∧ (∀ a, a ∈ R → a ∈ ptr :: l)
    ∧ (∀ a, a ∈ T → a ∉ R)
    ∧ freeList_ r.1 = <[index := ptr]> (freeList_ tc)
    ∧ pageCache r.2 = pageCache sh
    ∧ (∀ a, a ∉ ptr :: l → load (memory r.2) a = load (memory sh) a)
    ∧ (∀ j, j ≠ index →
         slot (centralFreeList_ r.2) j = slot (centralFreeList_ sh) j)
    ∧ chain (memory r.2) ptr T
    ∧ chain (memory r.2) (slot (centralFreeList_ r.2) index) (R ++ lc).
Proof.
  intros index r Hsize Hptr Hl Hnotin Hlc Hdisj.
  destruct (deallocate_spec ptr size tc sh l lc Hsize Hptr Hl Hnotin Hlc Hdisj)
    as [Hpush Hspill].
  fold index in Hpush, Hspill. fold r in Hpush, Hspill.
  set (n := wrap (slot (freeListSize_ tc) index + 1)) in *.
  set (keep := Z.to_nat (Z.max (n / 4) 1)) in *.
  destruct (decide (n <= THREAD_RETURN_THRESHOLD ∨ (length (ptr :: l) < keep)%nat))
    as [Hcase|Hcase].
  - destruct (Hpush Hcase) as (Hr & Hc1 & Hc2).
    exists (ptr :: l), []. rewrite Hr in *. simpl in *.
    split; [done|]. split; [by intros a ?%elem_of_nil|].
    split; [intros a _; apply not_elem_of_nil|].
    split; [done|]. split; [done|]. split.
    { intros a Ha. apply load_store_ne. intros ->. apply Ha. here. }
    done.
  - destruct Hspill as (k & Hk & _ & Hfl & _ & Hpc & Hframe & Hslots & Hc1 & Hc2);
      [lia|lia|].
    pose proof (chain_NoDup _ _ _ Hl) as Hnd.
    assert (NoDup (ptr :: l)) as HndL by (by constructor).
    exists (take keep (ptr :: l)), (take k (drop keep (ptr :: l))).
    split.
    { intros a Ha. rewrite <- (take_drop keep (ptr :: l)). apply elem_of_app. by left. }
    split.
    { intros a Ha. rewrite <- (take_drop keep (ptr :: l)). apply elem_of_app. right.
      rewrite <- (take_drop k (drop keep (ptr :: l))). apply elem_of_app. by left. }
    split.
    { intros a Ha Ha'.
      rewrite <- (take_drop keep (ptr :: l)) in HndL.
      apply NoDup_app in HndL as (_ & HndL & _). apply (HndL a Ha).
      rewrite <- (take_drop k (drop keep (ptr :: l))). apply elem_of_app. by left. }
    done.
Qed.

Lemma invariant_deallocate sys live1 live2 cls own t p size :
  invariant sys (live1 ++ (p, size) :: live2) cls own →
  let r := deallocate p size (thread_cache sys t) (shared sys) in
  ∃ own',
    invariant {| threads := <[t := r.1]> (threads sys); shared := r.2 |}
              (live1 ++ live2) cls own'.
Proof.
  intros Hinv r. pose proof Hinv as [H1 H2 H3 H4 H5 H6 H7 H8].
  set (idx := SizeClass.getIndex size).
  assert ((p, size) ∈ live1 ++ (p, size) :: live2) as Hplive.
  { apply elem_of_app. right. here. }
  destruct (H6 _ _ Hplive) as (Hsize & Hpcls & Hpown). fold idx in Hpcls.
  destruct (H2 _ _ Hpcls) as (Hidx & _ & Hp0 & _).
  destruct (H4 t idx) as (l & Hl & Hlown).
  destruct (H5 idx) as (lc & Hlc & Hlcown).
  assert (p ∉ l) as Hpl.
  { intros Hin. destruct (Hlown _ Hin) as [_ Ho]. congruence. }
  assert (∀ a, a ∈ p :: l → cls !! a = Some idx ∧ own !! a ≠ Some OCentral) as HL.
  { intros a [->|Ha]%elem_of_cons; [rewrite Hpown; done|].
    destruct (Hlown _ Ha) as [? Ho]. rewrite Ho. done. }
  assert (∀ a, a ∈ p :: l → a ∉ lc) as Hdisj.
  { intros a Ha Hin. destruct (HL _ Ha) as [_ Ho].
    destruct (Hlcown _ Hin) as [_ Ho']. done. }
  destruct (deallocate_lists p size (thread_cache sys t) (shared sys) l lc
              Hsize ltac:(lia) Hl Hpl Hlc Hdisj)
    as (T & R & HT & HR & HTR & Hfl & Hpc & Hframe & Hslots & HcT & HcR).
  fold idx in Hfl, Hslots, HcR. fold r in Hfl, Hpc, Hframe, Hslots, HcT, HcR.
  set (own' := set_all R OCentral (<[p := OThread t]> own)).
  assert (∀ a, a ∉ p :: l → own' !! a = own !! a) as F1.
  { intros a Ha. unfold own'. rewrite lookup_set_all_out.
    - apply lookup_insert_ne. intros ->. apply Ha. here.
    - intros Hin. by apply Ha, HR. }
  assert (∀ a, a ∈ T → own' !! a = Some (OThread t)) as F2.
  { intros a Ha. unfold own'. rewrite lookup_set_all_out by (by apply HTR).
    apply HT in Ha. apply elem_of_cons in Ha as [->|Ha].
    - apply lookup_insert_eq.
    - rewrite lookup_insert_ne by (intros ->; done). by apply Hlown. }
  assert (∀ a, a ∈ R → own' !! a = Some OCentral) as F3.
  { intros a Ha. unfold own'. by apply lookup_set_all_in. }
  exists own'. split; simpl.
  - by rewrite Hpc.
  - intros a i Ha. rewrite Hpc. by apply H2.
  - done.
  - intros t' i. rewrite thread_cache_insert.
    destruct (decide (t = t' ∧ i = idx)) as [[<- ->]|Hne].
    + rewrite decide_True by done. rewrite Hfl, slot_insert_eq.
      exists T. split; [done|]. intros a Ha. split; [|by apply F2].
      by apply HL, HT.
    + destruct (H4 t' i) as (l' & Hl' & Hl'own).
      assert (∀ a, a ∈ l' → a ∉ p :: l) as Hout.
      { intros a Ha Hin. destruct (Hl'own _ Ha) as [Hc Ho].
        apply elem_of_cons in Hin as [->|Hin]; [congruence|].
        destruct (Hlown _ Hin) as [Hc' Ho']. apply Hne. split; congruence. }
      exists l'. split.
      * assert (slot (freeList_ (if decide (t = t') then r.1 else thread_cache sys t')) i
                = slot (freeList_ (thread_cache sys t')) i) as ->.
        { case_decide as Ht; [|done]. subst t'. rewrite Hfl.
          apply slot_insert_ne. intros ->. by apply Hne. }
        eapply chain_frame; [|exact Hl']. intros a Ha. by apply Hframe, Hout.
      * intros a Ha. rewrite F1 by (by apply Hout). by apply Hl'own.
  - intros i. destruct (decide (i = idx)) as [->|Hne].
    + exists (R ++ lc). split; [done|].
      intros a [Ha|Ha]%elem_of_app.
      * split; [by apply HL, HR|by apply F3].
      * rewrite F1; [by apply Hlcown|]. intros Hin. by apply (Hdisj a).
    + destruct (H5 i) as (lc' & Hlc' & Hlc'own).
      assert (∀ a, a ∈ lc' → a ∉ p :: l) as Hout.
      { intros a Ha Hin. destruct (Hlc'own _ Ha) as [_ Ho].
        by destruct (HL _ Hin) as [_ Ho']. }
      exists lc'. split.
      * rewrite Hslots by done.
        eapply chain_frame; [|exact Hlc']. intros a Ha. by apply Hframe, Hout.
      * intros a Ha. rewrite F1 by (by apply Hout). by apply Hlc'own.
  - intros q s Hq.
    assert ((q, s) ∈ live1 ++ (p, size) :: live2) as Hq'.
    { apply elem_of_app in Hq as [?|?]; apply elem_of_app; [by left|].
      right. there. }
    destruct (H6 _ _ Hq') as (Hs & Hqc & Hqo). split; [done|]. split; [done|].
    rewrite F1; [done|].
    intros [->|Hin]%elem_of_cons.
    + rewrite fmap_app, fmap_cons in H7. simpl in H7.
      apply NoDup_app in H7 as (_ & Hd & Hnd2). apply NoDup_cons in Hnd2 as [Hp2 _].
      apply elem_of_app in Hq as [Hq|Hq].
      * apply (Hd p); [by apply (list_elem_of_fmap_2 fst _ (p, s))|].
        here.
      * apply Hp2. by apply (list_elem_of_fmap_2 fst _ (p, s)).
    + destruct (Hlown _ Hin) as [_ Ho]. congruence.
  - rewrite fmap_app, fmap_cons in H7. rewrite fmap_app.
    apply NoDup_app in H7 as (Hn1 & Hd & Hn2). apply NoDup_cons in Hn2 as [_ Hn2].
    apply NoDup_app. split; [done|]. split; [|done].
    intros a Ha Ha'. apply (Hd a Ha). there.
  - rewrite Hpc. done.
Qed.

End inv_deallocate.

Section inv_allocate.

Implicit Types sys : System.

(** The invariant reads the state through the thread caches, the central
    heads, the page cache and memory only. *)
Lemma invariant_ext sys sys' live cls own :
  (∀ t, thread_cache sys' t = thread_cache sys t) →
  centralFreeList_ (shared sys') = centralFreeList_ (shared sys) →
  pageCache (shared sys') = pageCache (shared sys) →
  memory (shared sys') = memory (shared sys) →
  invariant sys live cls own → invariant sys' live cls own.
Proof.
  intros Ht Hc Hp Hm [H1 H2 H3 H4 H5 H6 H7 H8].
  split; rewrite ?Hp, ?Hm, ?Hc; try done.
  intros t i. rewrite Ht. apply H4.
Qed.

Lemma allocate_small heap os size tc sh :
  0 <= size <= MAX_BYTES →
  allocate heap os size tc sh =
    (let index := SizeClass.getIndex size in
     let ptr := slot (freeList_ tc) index in
     if decide (ptr ≠ 0) then
       Some (ptr,
             {| freeList_ := <[index := load (memory sh) ptr]> (freeList_ tc);
                freeListSize_ :=
                  <[index := wrap (slot (freeListSize_ tc) index - 1)]>
                    (freeListSize_ tc) |},
             sh)
     else fetchFromCentralCache os index tc sh).
Proof.
  intros Hs. unfold allocate.
  rewrite (allocate_index size Hs).
  rewrite decide_False; [done|].
  change MAX_BYTES with 262144 in *. case_decide; unfold ALIGNMENT; lia.
Qed.

Lemma allocate_bypass heap os size tc sh :
  MAX_BYTES < size → allocate heap os size tc sh = Some (heap, tc, sh).
Proof.
  intros Hs. unfold allocate.
  rewrite (decide_False (P := size = 0)) by (change MAX_BYTES with 262144 in Hs; lia).
  by rewrite decide_True.
Qed.

Lemma fetchFromCentralCache_unfold os index tc sh :
  0 <= index < FREE_LIST_SIZE →
  fetchFromCentralCache os index tc sh =
    (let batchNum := getBatchNum ((index + 1) * ALIGNMENT) in
     '(start, sh') ← fetchRange os index batchNum sh;
     if decide (start = 0) then Some (0, tc, sh')
     else Some (start,
                {| freeList_ := if decide (1 < batchNum)
                                then <[index := load (memory sh') start]> (freeList_ tc)
                                else freeList_ tc;
                   freeListSize_ :=
                     <[index := wrap (slot (freeListSize_ tc) index + batchNum)]>
                       (freeListSize_ tc) |},
                sh')).
Proof.
  intros Hi. unfold fetchFromCentralCache.
  pose proof (block_size_range index Hi) as Hb. change MAX_BYTES with 262144 in Hb.
  rewrite wrap_small by lia. done.
Qed.

(** [allocate] served from the list of the thread. *)
Lemma invariant_pop sys live cls own t size :
  invariant sys live cls own →
  0 <= size <= MAX_BYTES →
  let index := SizeClass.getIndex size in
  let tc := thread_cache sys t in
  let ptr := slot (freeList_ tc) index in
  ptr ≠ 0 →
  ∃ own',
    invariant
      {| threads :=
           <[t := {| freeList_ := <[index := load (memory (shared sys)) ptr]> (freeList_ tc);
                     freeListSize_ :=
                       <[index := wrap (slot (freeListSize_ tc) index - 1)]>
                         (freeListSize_ tc) |}]> (threads sys);
         shared := shared sys |}
      ((ptr, size) :: live) cls own'.
Proof.
  intros Hinv Hsize index tc ptr Hptr.
  pose proof Hinv as [H1 H2 H3 H4 H5 H6 H7 H8].
  destruct (H4 t index) as (l & Hl & Hlown). fold tc in Hl. fold ptr in Hl.
  destruct l as [|a l]; [by apply chain_nil_inv in Hl|].
  pose proof (chain_NoDup _ _ _ Hl) as Hnd. apply NoDup_cons in Hnd as [Hal Hnd].
  apply chain_cons_inv in Hl as (Heq & _ & Hl). subst a.
  destruct (Hlown ptr ltac:(here)) as [Hpc Hpo].
  exists (<[ptr := OLive]> own). split; simpl; try done.
  - intros t' i. rewrite thread_cache_insert.
    destruct (decide (t = t' ∧ i = index)) as [[<- ->]|Hne].
    + rewrite decide_True by done. simpl. rewrite slot_insert_eq.
      exists l. split; [done|]. intros a Ha.
      rewrite lookup_insert_ne by (intros ->; done).
      apply Hlown. there.
    + destruct (H4 t' i) as (l' & Hl' & Hl'own).
      exists l'. split.
      * case_decide as Ht; [|done]. subst t'. simpl.
        rewrite slot_insert_ne; [done|]. intros ->. by apply Hne.
      * intros a Ha. destruct (Hl'own _ Ha) as [Hc Ho].
        rewrite lookup_insert_ne; [done|].
        intros ->. apply Hne. split; congruence.
  - intros i. destruct (H5 i) as (lc & Hlc & Hlcown). exists lc. split; [done|].
    intros a Ha. destruct (Hlcown _ Ha) as [Hc Ho].
    rewrite lookup_insert_ne; [done|]. intros ->. congruence.
  - intros q s [[= -> ->]|Hq]%elem_of_cons.
    + split; [done|]. split; [done|]. apply lookup_insert_eq.
    + destruct (H6 _ _ Hq) as (Hs & Hqc & Hqo). split; [done|]. split; [done|].
      rewrite lookup_insert_ne; [done|]. intros ->. congruence.
  - constructor; [|done].
    intros ((q & s) & Heq & Hin)%list_elem_of_fmap. simpl in Heq. subst q.
    destruct (H6 _ _ Hin) as (_ & _ & Ho). congruence.
Qed.

End inv_allocate.

Section inv_fetch_existing.

Implicit Types sys : System.

(** [allocate] served from the central list. *)
Lemma invariant_fetch_existing sys live cls own t size os :
  invariant sys live cls own →
  0 <= size <= MAX_BYTES →
  let index := SizeClass.getIndex size in
  let tc := thread_cache sys t in
  slot (freeList_ tc) index = 0 →
  slot (centralFreeList_ (shared sys)) index ≠ 0 →
  ∃ tc' sh' own',
    fetchFromCentralCache os index tc (shared sys)
      = Some (slot (centralFreeList_ (shared sys)) index, tc', sh')
    ∧ invariant {| threads := <[t := tc']> (threads sys); shared := sh' |}
        ((slot (centralFreeList_ (shared sys)) index, size) :: live) cls own'.
Proof.
  intros Hinv Hsize index tc Hempty Hhead.
  pose proof Hinv as [H1 H2 H3 H4 H5 H6 H7 H8].
  pose proof (getIndex_range size Hsize) as Hi. fold index in Hi.
  set (b := getBatchNum ((index + 1) * ALIGNMENT)).
  pose proof (getBatchNum_range ((index + 1) * ALIGNMENT)) as Hb. fold b in Hb.
  set (head := slot (centralFreeList_ (shared sys)) index) in *.
  destruct (H5 index) as (lc & Hlc & Hlcown). fold head in Hlc.
  destruct (fetchRange_existing os index b (shared sys) lc Hi ltac:(lia) Hhead Hlc)
    as (l1 & p & Htake & Hrun & Hc1 & Hc2).
  fold head in Hrun, Hc1.
  set (n := Z.to_nat b) in *.
  pose proof (chain_NoDup _ _ _ Hlc) as Hnd.
  destruct lc as [|a lc0]; [by apply chain_nil_inv in Hlc|].
  pose proof Hlc as (Ha & _)%linked_head. subst a.
  assert (∃ T, take n (head :: lc0) = head :: T ∧ (n = 1%nat → T = [])) as (T & HT & HT1).
  { destruct n as [|n'] eqn:En; [lia|]. simpl. eexists. split; [done|].
    intros [= ->]. by rewrite take_0. }
  rewrite HT in Hc1.
  apply chain_cons_inv in Hc1 as (_ & _ & HcT).
  assert (p ∈ head :: lc0) as Hp.
  { rewrite <- (take_drop n (head :: lc0)). rewrite Htake.
    apply elem_of_app. left. apply elem_of_app. right. here. }
  assert (∀ a, a ∈ head :: T → a ∈ head :: lc0) as Hsub.
  { intros a Ha. rewrite <- (take_drop n (head :: lc0)). rewrite HT.
    apply elem_of_app. by left. }
  assert (∀ a, a ∈ drop n (head :: lc0) → a ∈ head :: lc0 ∧ a ∉ head :: T) as Hrest.
  { intros a Ha. split.
    - rewrite <- (take_drop n (head :: lc0)). apply elem_of_app. by right.
    - rewrite <- (take_drop n (head :: lc0)) in Hnd.
      apply NoDup_app in Hnd as (_ & Hd & _). intros Hin. apply (Hd a); [|done].
      by rewrite HT. }
  assert (head ∉ T) as HhT.
  { rewrite <- (take_drop n (head :: lc0)) in Hnd. rewrite HT in Hnd.
    apply NoDup_app in Hnd as (Hnd' & _). by apply NoDup_cons in Hnd' as [? _]. }
  set (m' := store (memory (shared sys)) p 0) in *.
  set (sh' := {| centralFreeList_ := <[index := hd_ptr (drop n (head :: lc0))]>
                                       (centralFreeList_ (shared sys));
                 pageCache := pageCache (shared sys); memory := m' |}) in *.
  set (tc' := {| freeList_ := if decide (1 < b)
                              then <[index := load m' head]> (freeList_ tc)
                              else freeList_ tc;
                 freeListSize_ :=
                   <[index := wrap (slot (freeListSize_ tc) index + b)]>
                     (freeListSize_ tc) |}).
  set (own' := set_all T (OThread t) (<[head := OLive]> own)).
  exists tc', sh', own'. split.
  { rewrite fetchFromCentralCache_unfold by done. cbv zeta. fold b.
    rewrite Hrun. simpl. by rewrite decide_False. }
  assert (∀ a, a ∉ head :: lc0 → own' !! a = own !! a) as F1.
  { intros a Ha. unfold own'. rewrite lookup_set_all_out.
    - apply lookup_insert_ne. intros ->. apply Ha. here.
    - intros Hin. apply Ha, Hsub. there. }
  assert (∀ a i, cls !! a = Some i → own !! a ≠ Some OCentral ∨ i ≠ index →
                 a ∉ head :: lc0) as Hout.
  { intros a i Hc Ho Hin. destruct (Hlcown _ Hin) as [Hc' Ho'].
    destruct Ho as [Ho|Hne]; [done|congruence]. }
  split; simpl; try done.
  - intros t' i. rewrite thread_cache_insert.
    destruct (decide (t = t' ∧ i = index)) as [[<- ->]|Hne].
    + rewrite decide_True by done. exists T. split.
      * unfold tc'. simpl. case_decide as Hb1.
        -- by rewrite slot_insert_eq.
        -- rewrite HT1 by lia. by rewrite Hempty.
      * intros a Ha. split.
        -- apply Hlcown, Hsub. there.
        -- unfold own'. by apply lookup_set_all_in.
    + destruct (H4 t' i) as (l' & Hl' & Hl'own).
      exists l'. split.
      * assert (slot (freeList_ (if decide (t = t') then tc' else thread_cache sys t')) i
                = slot (freeList_ (thread_cache sys t')) i) as ->.
        { case_decide as Ht; [|done]. subst t'. unfold tc'. simpl.
          case_decide; [|done]. apply slot_insert_ne. intros ->. by apply Hne. }
        apply chain_store; [|done]. intros Hin.
        destruct (Hl'own _ Hin) as [Hc Ho].
        apply (Hout p i Hc); [left; by rewrite Ho|done].
      * intros a Ha. destruct (Hl'own _ Ha) as [Hc Ho].
        rewrite F1; [done|]. apply (Hout a i Hc). left. by rewrite Ho.
  - intros i. destruct (decide (i = index)) as [->|Hne].
    + rewrite slot_insert_eq. exists (drop n (head :: lc0)). split; [done|].
      intros a Ha. destruct (Hrest _ Ha) as [Hin Hnot].
      split; [by apply Hlcown|]. unfold own'.
      rewrite lookup_set_all_out by (intros ?; apply Hnot; apply elem_of_cons; by right).
      rewrite lookup_insert_ne by (intros ->; apply Hnot; apply elem_of_cons; by left).
      by apply Hlcown.
    + rewrite slot_insert_ne by done.
      destruct (H5 i) as (lc' & Hlc' & Hlc'own). exists lc'. split.
      * apply chain_store; [|done]. intros Hin.
        destruct (Hlc'own _ Hin) as [Hc Ho]. apply (Hout p i Hc); [by right|done].
      * intros a Ha. destruct (Hlc'own _ Ha) as [Hc Ho].
        rewrite F1; [done|]. apply (Hout a i Hc). by right.
  - assert (cls !! head = Some index ∧ own !! head = Some OCentral) as [Hhc Hho].
    { apply Hlcown. here. }
    intros q s [[= -> ->]|Hq]%elem_of_cons.
    + split; [done|]. split; [done|]. unfold own'.
      rewrite lookup_set_all_out by done. apply lookup_insert_eq.
    + destruct (H6 _ _ Hq) as (Hs & Hqc & Hqo). split; [done|]. split; [done|].
      rewrite F1; [done|]. apply (Hout q _ Hqc). left. by rewrite Hqo.
  - constructor; [|done].
    intros ((q & s) & Heq & Hin)%list_elem_of_fmap. simpl in Heq. subst q.
    destruct (H6 _ _ Hin) as (_ & _ & Ho).
    destruct (Hlcown head ltac:(here)) as [_ Ho']. congruence.
Qed.

End inv_fetch_existing.

Section inv_fetch_fresh.

Implicit Types sys : System.
Implicit Types pc : PageCache.

Lemma aligned_block m0 k i :
  m0 mod PAGE_SIZE = 0 → (m0 + k * ((i + 1) * ALIGNMENT)) mod 8 = 0.
Proof.
  unfold PAGE_SIZE, ALIGNMENT. intros H.
  pose proof (Z.div_mod m0 4096 ltac:(lia)) as Hd. rewrite H in Hd.
  replace (m0 + k * ((i + 1) * 8)) with ((512 * (m0 / 4096) + k * (i + 1)) * 8) by lia.
  apply Z.mod_mul. lia.
Qed.

Lemma mod_8_land p : p mod 8 = 0 → Z.land p (ALIGNMENT - 1) = 0.
Proof.
  intros H. change (ALIGNMENT - 1) with (Z.ones 3).
  rewrite Z.land_ones by lia. exact H.
Qed.

Lemma in_span_mapped_new pc m0 nPages lo hi :
  m0 <= lo → hi <= m0 + nPages * PAGE_SIZE → in_span (mapped pc m0 nPages) lo hi.
Proof.
  intros Hlo Hhi. exists m0, (new_Span (descr pc)), (mkSpan m0 nPages 0). simpl.
  rewrite !lookup_insert_eq. done.
Qed.

Lemma in_span_mapped_old pc m0 nPages lo hi :
  (∀ a span, spanMap_ pc !! a = Some span →
     ∃ sp, descr pc !! span = Some sp ∧ pageAddr sp = a ∧ 0 < numPages sp) →
  mmap_ok pc nPages (Some m0) → 0 < nPages →
  in_span pc lo hi → in_span (mapped pc m0 nPages) lo hi.
Proof.
  intros Hspans (_ & _ & Hfresh) Hn (a & span & sp & Ha & Hsp & Hlo & Hhi).
  destruct (Hspans _ _ Ha) as (sp' & Hsp' & Haddr & Hpages).
  rewrite Hsp in Hsp'. injection Hsp' as <-.
  exists a, span, sp. simpl.
  assert (m0 ≠ a) as Hne.
  { intros <-. destruct (Hfresh _ _ _ Ha Hsp); unfold PAGE_SIZE in *; lia. }
  assert (new_Span (descr pc) ≠ span) as Hne'.
  { intros Heq. pose proof (new_Span_fresh (descr pc)). congruence. }
  rewrite !lookup_insert_ne by done. done.
Qed.

Lemma spans_mapped pc m0 nPages :
  (∀ a span, spanMap_ pc !! a = Some span →
     ∃ sp, descr pc !! span = Some sp ∧ pageAddr sp = a ∧ 0 < numPages sp) →
  0 < nPages →
  ∀ a span, spanMap_ (mapped pc m0 nPages) !! a = Some span →
    ∃ sp, descr (mapped pc m0 nPages) !! span = Some sp
          ∧ pageAddr sp = a ∧ 0 < numPages sp.
Proof.
  intros Hspans Hn a span. simpl.
  intros [[<- <-]|[Hne Ha]]%lookup_insert_Some.
  - eexists. rewrite lookup_insert_eq. done.
  - destruct (Hspans _ _ Ha) as (sp & Hsp & Haddr & Hpages).
    exists sp. rewrite lookup_insert_ne; [done|].
    intros Heq. pose proof (new_Span_fresh (descr pc)). congruence.
Qed.

(** A block carved before lies outside a region that the system maps now. *)
Lemma old_block_outside sys live cls own m0 nPages a i :
  invariant sys live cls own →
  mmap_ok (pageCache (shared sys)) nPages (Some m0) →
  cls !! a = Some i →
  a + (i + 1) * ALIGNMENT <= m0 ∨ m0 + nPages * PAGE_SIZE <= a.
Proof.
  intros Hinv (_ & _ & Hfresh) Ha.
  destruct (inv_block _ _ _ _ Hinv _ _ Ha) as (Hi & _ & _ & s & span & sp & Hs & Hsp & Hlo & Hhi).
  unfold ALIGNMENT in *. destruct (Hfresh _ _ _ Hs Hsp); lia.
Qed.

Lemma fetchRange_fresh_fail index batchNum sh :
  0 <= index < FREE_LIST_SIZE → 1 <= batchNum →
  slot (centralFreeList_ sh) index = 0 →
  freeSpans_ (pageCache sh) = ∅ →
  fetchRange None index batchNum sh = Some (0, with_memory (memory sh) sh).
Proof.
  intros Hi Hb Hhead Hfs. unfold fetchRange.
  rewrite decide_False by lia. rewrite decide_True by done.
  rewrite fetchFromPageCache_pagesReceived, allocateSpan_system by done.
  reflexivity.
Qed.

Lemma fetchRange_fresh_mapped m0 index batchNum sh :
  0 <= index < FREE_LIST_SIZE → 1 <= batchNum →
  slot (centralFreeList_ sh) index = 0 →
  freeSpans_ (pageCache sh) = ∅ →
  m0 ≠ 0 →
  let size := (index + 1) * ALIGNMENT in
  let nPages := pagesReceived size in
  let m1 := memset0 (memory sh) m0 (wrap (nPages * PAGE_SIZE)) in
  fetchRange (Some m0) index batchNum sh
  = Some (m0,
          {| centralFreeList_ := (carve m0 size batchNum index (centralFreeList_ sh) m1).1;
             pageCache := mapped (pageCache sh) m0 nPages;
             memory := (carve m0 size batchNum index (centralFreeList_ sh) m1).2 |}).
Proof.
  intros Hi Hb Hhead Hfs Hm0 size nPages m1.
  apply fetchRange_fresh; [done..| |done].
  rewrite fetchFromPageCache_pagesReceived, allocateSpan_system by done.
  by rewrite decide_False.
Qed.

End inv_fetch_fresh.

Section inv_fetch_mapped.

Implicit Types sys : System.

(** [allocate] served from a span that the system maps. *)
Lemma invariant_fetch_mapped sys live cls own t size m0 :
  invariant sys live cls own →
  0 <= size <= MAX_BYTES →
  let index := SizeClass.getIndex size in
  let tc := thread_cache sys t in
  slot (freeList_ tc) index = 0 →
  slot (centralFreeList_ (shared sys)) index = 0 →
  mmap_ok (pageCache (shared sys)) (pagesReceived (blockSize size)) (Some m0) →
  ∃ tc' sh' cls' own',
    fetchFromCentralCache (Some m0) index tc (shared sys) = Some (m0, tc', sh')
    ∧ invariant {| threads := <[t := tc']> (threads sys); shared := sh' |}
        ((m0, size) :: live) cls' own'.
Proof.
  intros Hinv Hsize index tc Hempty Hhead Hok.
  pose proof Hinv as [H1 H2 H3 H4 H5 H6 H7 H8].
  pose proof (getIndex_range size Hsize) as Hi. fold index in Hi.
  set (sz := (index + 1) * ALIGNMENT).
  change (blockSize size) with sz in Hok.
  set (b := getBatchNum sz).
  pose proof (getBatchNum_range sz) as Hb. fold b in Hb.
  set (n := pagesReceived sz) in *.
  pose proof (block_size_range index Hi) as Hsz. fold sz in Hsz.
  pose proof (pagesReceived_range sz Hsz) as [Hn Hnsz]. fold n in Hn, Hnsz.
  change MAX_BYTES with 262144 in Hsz. change PAGE_SIZE with 4096 in Hnsz.
  pose proof Hok as (Hm0 & Halign & Hfresh).
  assert (wrap (n * PAGE_SIZE) = n * 4096) as Hwrap.
  { change PAGE_SIZE with 4096. apply wrap_small. lia. }
  set (total := totalBlocks sz).
  assert (0 <= total) as Htot by (apply totalBlocks_nonneg; lia).
  assert (total * sz <= 32768) as Htotsz.
  { unfold total, totalBlocks. change (SPAN_PAGES * PAGE_SIZE) with 32768.
    rewrite Z.mul_comm. apply Z.mul_div_le. lia. }
  assert (1 <= total → 32768 <= n * 4096) as Hsmall.
  { intros Ht. assert (sz <= 32768) by nia.
    unfold n, pagesReceived. change (SPAN_PAGES * PAGE_SIZE) with 32768.
    rewrite decide_True by done. reflexivity. }
  set (alloc := Z.min b total).
  assert (1 < b → 2 <= alloc) as Hb2.
  { intros Hb1. pose proof (getBatchNum_gt_1 sz ltac:(lia) Hb1) as Hle.
    assert (32 <= total); [|unfold alloc; lia].
    unfold total, totalBlocks. change (SPAN_PAGES * PAGE_SIZE) with 32768.
    apply Z.div_le_lower_bound; lia. }
  set (m := memory (shared sys)).
  set (m1 := memset0 m m0 (wrap (n * PAGE_SIZE))).
  pose proof (carve_spec m0 sz b index (centralFreeList_ (shared sys)) m1
                Hm0 ltac:(lia) ltac:(lia)) as (Hcf & Hc1 & _ & Hc2 & Hc3).
  fold total in Hcf, Hc1, Hc2, Hc3. fold alloc in Hc1, Hc2, Hc3.
  set (cfl' := (carve m0 sz b index (centralFreeList_ (shared sys)) m1).1) in *.
  set (m' := (carve m0 sz b index (centralFreeList_ (shared sys)) m1).2) in *.
  set (N := blocks m0 sz 0 (Z.to_nat (Z.max total 1))).
  set (T := blocks m0 sz 1 (Z.to_nat (alloc - 1))).
  set (C := blocks m0 sz alloc (Z.to_nat (total - alloc))).
  assert (∀ a, a ∈ N ↔ ∃ k, 0 <= k < Z.max total 1 ∧ a = m0 + k * sz) as HN.
  { intros a. unfold N. rewrite elem_of_blocks.
    split; intros (k & Hk & ->); exists k; (split; [lia|done]). }
  assert (∀ a, a ∈ T ↔ ∃ k, 1 <= k < alloc ∧ a = m0 + k * sz) as HT.
  { intros a. unfold T. rewrite elem_of_blocks.
    split; intros (k & Hk & ->); exists k; (split; [lia|done]). }
  assert (∀ a, a ∈ C ↔ ∃ k, alloc <= k < total ∧ a = m0 + k * sz) as HC.
  { intros a. unfold C. rewrite elem_of_blocks.
    split; intros (k & Hk & ->); exists k; (split; [lia|done]). }
  assert (0 <= alloc <= total) as Halloc by (unfold alloc; lia).
  assert (∀ a, a ∈ T → a ∈ N) as HTN.
  { intros a (k & Hk & ->)%HT. apply HN. exists k. split; [lia|done]. }
  assert (∀ a, a ∈ C → a ∈ N) as HCN.
  { intros a (k & Hk & ->)%HC. apply HN. exists k. split; [lia|done]. }
  assert (m0 ∈ N) as Hm0N by (apply HN; exists 0; split; lia).
  assert (m0 ∉ T) as Hm0T.
  { intros (k & Hk & Heq)%HT. nia. }
  assert (m0 ∉ C) as Hm0C.
  { intros (k & Hk & Heq)%HC. nia. }
  assert (∀ a, a ∈ T → a ∉ C) as HTC.
  { intros a (k & Hk & ->)%HT (k' & Hk' & Heq)%HC.
    apply block_addr_inj in Heq; lia. }
  assert (∀ a, a ∈ N → m0 <= a ∧ a + sz <= m0 + n * 4096) as HNreg.
  { intros a (k & Hk & ->)%HN. split; [nia|].
    destruct (decide (1 <= total)) as [Ht|Ht].
    - specialize (Hsmall Ht). assert ((k + 1) * sz <= total * sz) by nia. lia.
    - assert (k = 0) as -> by lia. lia. }
  assert (∀ a i, cls !! a = Some i →
            a + (i + 1) * ALIGNMENT <= m0 ∨ m0 + n * 4096 <= a) as Hout.
  { intros a i Ha. by eapply old_block_outside. }
  assert (∀ a i, cls !! a = Some i → a ∉ N) as HoldN.
  { intros a i Ha Hin. destruct (H2 _ _ Ha) as (Hi' & _).
    destruct (HNreg _ Hin). destruct (Hout _ _ Ha); unfold ALIGNMENT in *; lia. }
  assert (∀ a i, cls !! a = Some i → load m' a = load m a) as Hframe.
  { intros a i Ha. destruct (H2 _ _ Ha) as (Hi' & _).
    rewrite Hcf.
    - unfold m1. apply load_memset0_out. rewrite Hwrap.
      destruct (Hout _ _ Ha); unfold ALIGNMENT in *; lia.
    - intros k Hk ->. apply (HoldN _ _ Ha). apply HN. exists k. split; [lia|done]. }
  set (cls' := set_all N index cls).
  set (own' := set_all C OCentral (set_all T (OThread t) (<[m0 := OLive]> own))).
  assert (∀ a, a ∉ N → own' !! a = own !! a) as O1.
  { intros a Ha. unfold own'.
    rewrite lookup_set_all_out by (intros ?; by apply Ha, HCN).
    rewrite lookup_set_all_out by (intros ?; by apply Ha, HTN).
    apply lookup_insert_ne. by intros ->. }
  assert (∀ a, a ∈ T → own' !! a = Some (OThread t)) as O2.
  { intros a Ha. unfold own'. rewrite lookup_set_all_out by (by apply HTC).
    by apply lookup_set_all_in. }
  assert (∀ a, a ∈ C → own' !! a = Some OCentral) as O3.
  { intros a Ha. unfold own'. by apply lookup_set_all_in. }
  assert (own' !! m0 = Some OLive) as O4.
  { unfold own'. rewrite !lookup_set_all_out by done. apply lookup_insert_eq. }
  assert (∀ a, a ∉ N → cls' !! a = cls !! a) as C1.
  { intros a Ha. unfold cls'. by apply lookup_set_all_out. }
  assert (∀ a, a ∈ N → cls' !! a = Some index) as C2.
  { intros a Ha. unfold cls'. by apply lookup_set_all_in. }
  set (sh' := {| centralFreeList_ := cfl';
                 pageCache := mapped (pageCache (shared sys)) m0 n;
                 memory := m' |}).
  set (tc' := {| freeList_ := if decide (1 < b)
                              then <[index := load m' m0]> (freeList_ tc)
                              else freeList_ tc;
                 freeListSize_ :=
                   <[index := wrap (slot (freeListSize_ tc) index + b)]>
                     (freeListSize_ tc) |}).
  exists tc', sh', cls', own'. split.
  { rewrite fetchFromCentralCache_unfold by done. cbv zeta. fold sz. fold b.
    rewrite fetchRange_fresh_mapped; [|done|lia|done|done|lia].
    simpl. rewrite decide_False by lia. reflexivity. }
  assert (chain m' (slot (freeList_ tc') index) T) as HcT.
  { unfold tc'. simpl. case_decide as Hb1.
    - rewrite slot_insert_eq. specialize (Hc1 (Hb2 Hb1)).
      replace (Z.to_nat alloc) with (S (Z.to_nat (alloc - 1))) in Hc1 by lia.
      rewrite blocks_cons in Hc1.
      apply chain_cons_inv in Hc1 as (Heq & _ & Hc1).
      replace (m0 + 0 * sz) with m0 in Hc1 by lia. exact Hc1.
    - rewrite Hempty. unfold T.
      replace (Z.to_nat (alloc - 1)) with 0%nat by lia. done. }
  assert (chain m' (slot cfl' index) C ∧
          ∀ i, i ≠ index → slot cfl' i = slot (centralFreeList_ (shared sys)) i)
    as [HcC Hslots].
  { destruct (decide (alloc < total)) as [Hlt|Hge].
    - destruct (Hc2 Hlt) as [-> Hc]. rewrite slot_insert_eq. split; [done|].
      intros i Hne. by rewrite slot_insert_ne.
    - rewrite Hc3 by lia. rewrite Hhead. split; [|done].
      unfold C. replace (Z.to_nat (total - alloc)) with 0%nat by lia. done. }
  split; simpl.
  - done.
  - intros a i [[Hin ->]|[Hnin Ha]]%lookup_set_all_Some.
    + destruct (HNreg _ Hin) as [Hlo Hhi].
      split; [done|]. split; [|split; [lia|]].
      * apply HN in Hin as (k & _ & ->). by apply aligned_block.
      * apply in_span_mapped_new; [done|]. fold sz. change PAGE_SIZE with 4096. lia.
    + destruct (H2 _ _ Ha) as (Hi' & Hal & Hpos & Hspan).
      split; [done|]. split; [done|]. split; [done|].
      apply in_span_mapped_old; [done|done|lia|done].
  - intros a a' i i' Ha Ha' Hne.
    apply lookup_set_all_Some in Ha as [[Hin ->]|[Hnin Ha]];
      apply lookup_set_all_Some in Ha' as [[Hin' ->]|[Hnin' Ha']].
    + fold sz. apply HN in Hin as (k & Hk & ->). apply HN in Hin' as (k' & Hk' & ->).
      assert (k ≠ k') by (intros ->; done). nia.
    + fold sz. destruct (HNreg _ Hin). destruct (H2 _ _ Ha') as (Hi' & _).
      destruct (Hout _ _ Ha'); unfold ALIGNMENT in *; lia.
    + fold sz. destruct (HNreg _ Hin'). destruct (H2 _ _ Ha) as (Hi' & _).
      destruct (Hout _ _ Ha); unfold ALIGNMENT in *; lia.
    + by eapply H3.
  - intros t' i. rewrite thread_cache_insert.
    destruct (decide (t = t' ∧ i = index)) as [[<- ->]|Hne].
    + rewrite decide_True by done. exists T. split; [done|].
      intros a Ha. split; [by apply C2, HTN|by apply O2].
    + destruct (H4 t' i) as (l' & Hl' & Hl'own).
      exists l'. split.
      * assert (slot (freeList_ (if decide (t = t') then tc' else thread_cache sys t')) i
                = slot (freeList_ (thread_cache sys t')) i) as ->.
        { case_decide as Ht; [|done]. subst t'. unfold tc'. simpl.
          case_decide; [|done]. apply slot_insert_ne. intros ->. by apply Hne. }
        eapply chain_frame; [|exact Hl']. intros a Ha.
        destruct (Hl'own _ Ha) as [Hc _]. by eapply Hframe.
      * intros a Ha. destruct (Hl'own _ Ha) as [Hc Ho].
        rewrite C1, O1 by (by eapply HoldN). done.
  - intros i. destruct (decide (i = index)) as [->|Hne].
    + exists C. split; [done|]. intros a Ha. split; [by apply C2, HCN|by apply O3].
    + rewrite Hslots by done.
      destruct (H5 i) as (lc' & Hlc' & Hlc'own). exists lc'. split.
      * eapply chain_frame; [|exact Hlc']. intros a Ha.
        destruct (Hlc'own _ Ha) as [Hc _]. by eapply Hframe.
      * intros a Ha. destruct (Hlc'own _ Ha) as [Hc Ho].
        rewrite C1, O1 by (by eapply HoldN). done.
  - intros q s [[= -> ->]|Hq]%elem_of_cons.
    + split; [done|]. split; [by apply C2|done].
    + destruct (H6 _ _ Hq) as (Hs & Hqc & Hqo). split; [done|].
      rewrite C1, O1 by (by eapply HoldN). done.
  - constructor; [|done].
    intros ((q & s) & Heq & Hin)%list_elem_of_fmap. simpl in Heq. subst q.
    destruct (H6 _ _ Hin) as (_ & Hc & _). by apply (HoldN _ _ Hc).
  - apply spans_mapped; [done|lia].
Qed.

End inv_fetch_mapped.

Section reachable.

Implicit Types sys : System.

Lemma thread_cache_insert_same sys t sh t' :
  thread_cache {| threads := <[t := thread_cache sys t]> (threads sys); shared := sh |} t'
  = thread_cache sys t'.
Proof. rewrite thread_cache_insert. case_decide; by subst. Qed.

(** On a state that satisfies the invariant [allocate] returns, and the
    state it leaves satisfies the invariant again. *)
Lemma allocate_invariant sys live cls own t size heap os :
  invariant sys live cls own →
  0 <= size < 2 ^ 64 →
  mmap_ok (pageCache (shared sys)) (pagesReceived (blockSize size)) os →
  ∃ p tc' sh' cls' own',
    allocate heap os size (thread_cache sys t) (shared sys) = Some (p, tc', sh')
    ∧ invariant {| threads := <[t := tc']> (threads sys); shared := sh' |}
        (if decide (size <= MAX_BYTES ∧ p ≠ 0) then (p, size) :: live else live)
        cls' own'.
Proof.
  intros Hinv Hsize Hok.
  destruct (decide (size <= MAX_BYTES)) as [Hle|Hgt].
  2: { exists heap, (thread_cache sys t), (shared sys), cls, own.
       split; [apply allocate_bypass; lia|].
       rewrite decide_False by (intros [? _]; lia).
       apply (invariant_ext sys); [intros t'; apply thread_cache_insert_same|done..]. }
  assert (0 <= size <= MAX_BYTES) as Hs by lia.
  rewrite (allocate_small heap os size _ _ Hs). cbv zeta.
  set (index := SizeClass.getIndex size).
  pose proof (getIndex_range size Hs) as Hi. fold index in Hi.
  destruct (decide (slot (freeList_ (thread_cache sys t)) index ≠ 0)) as [Hptr|Hptr].
  { destruct (invariant_pop sys live cls own t size Hinv Hs Hptr) as (own' & Hinv').
    eexists _, _, _, cls, own'. split; [reflexivity|].
    rewrite decide_True by done. exact Hinv'. }
  assert (slot (freeList_ (thread_cache sys t)) index = 0) as Hempty.
  { destruct (decide (slot (freeList_ (thread_cache sys t)) index = 0)); [done|].
    exfalso. by apply Hptr. }
  destruct (decide (slot (centralFreeList_ (shared sys)) index = 0)) as [Hhead|Hhead].
  - destruct os as [m0|].
    + destruct (invariant_fetch_mapped sys live cls own t size m0 Hinv Hs Hempty Hhead Hok)
        as (tc' & sh' & cls' & own' & Hrun & Hinv').
      exists m0, tc', sh', cls', own'. split; [exact Hrun|].
      destruct Hok as (Hm0 & _). rewrite decide_True by (split; [done|lia]). exact Hinv'.
    + exists 0, (thread_cache sys t), (with_memory (memory (shared sys)) (shared sys)), cls, own.
      split.
      * rewrite fetchFromCentralCache_unfold by done. cbv zeta.
        rewrite fetchRange_fresh_fail;
          [done|done|apply getBatchNum_range|done|by destruct Hinv].
      * rewrite decide_False by (intros [_ ?]; done).
        apply (invariant_ext sys); [intros t'; apply thread_cache_insert_same|done..].
  - destruct (invariant_fetch_existing sys live cls own t size os Hinv Hs Hempty Hhead)
      as (tc' & sh' & own' & Hrun & Hinv').
    eexists _, tc', sh', cls, own'. split; [exact Hrun|].
    rewrite decide_True by done. exact Hinv'.
Qed.

Lemma step_invariant cfg cfg' :
  step cfg cfg' →
  (∃ cls own, invariant cfg.1 cfg.2 cls own) →
  ∃ cls' own', invariant cfg'.1 cfg'.2 cls' own'.
Proof.
  intros Hstep (cls & own & Hinv).
  destruct Hstep as [sys live t size heap os p tc' sh' Hsize Hok Hrun
                    |sys live1 live2 t p size tc' sh' Hrun
                    |sys live t p size tc' sh' Hsize Hrun
                    |sys live addr v Hw]; simpl in *.
  - destruct (allocate_invariant sys live cls own t size heap os Hinv Hsize Hok)
      as (p0 & tc0 & sh0 & cls' & own' & Hrun' & Hinv').
    rewrite Hrun in Hrun'. injection Hrun' as <- <- <-. by exists cls', own'.
  - destruct (invariant_deallocate sys live1 live2 cls own t p size Hinv) as (own' & Hinv').
    rewrite Hrun in Hinv'. simpl in Hinv'. by exists cls, own'.
  - unfold deallocate in Hrun. rewrite decide_True in Hrun by done.
    injection Hrun as <- <-. exists cls, own.
    apply (invariant_ext sys); [intros t'; apply thread_cache_insert_same|done..].
  - exists cls, own. by apply invariant_write.
Qed.

Lemma reachable_invariant cfg :
  reachable cfg → ∃ cls own, invariant cfg.1 cfg.2 cls own.
Proof.
  unfold reachable. revert cfg.
  apply (rtc_ind_r (R := step)
           (λ cfg, ∃ cls own, invariant cfg.1 cfg.2 cls own)).
  - exists ∅, ∅. apply invariant_initial.
  - intros c1 c2 _ Hstep IH. by eapply step_invariant.
Qed.

End reachable.

(** C2. In every state that the allocator reaches from its initial state,
    while the client allocates, gives back what it holds with the size it
    asked for, and stores only into blocks it holds (or outside the pool),
    in any interleaving of the calls of its threads, and whatever address
    the system maps: [allocate(s)] with [1 <= s <= MAX_BYTES] returns, and
    what it returns has its three low bits zero.  (Null has them zero too;
    the addresses come from the list of the thread, from the central list
    or from a fresh span.) *)
Theorem allocate_aligned (sys : System) (live : list (Z * Z)) (t s heap : Z)
    (os : option Z) :
  reachable (sys, live) →
  1 <= s <= MAX_BYTES →
  mmap_ok (pageCache (shared sys)) (pagesReceived (blockSize s)) os →
  ∃ p tc' sh',
    allocate heap os s (thread_cache sys t) (shared sys) = Some (p, tc', sh')
    ∧ Z.land p (ALIGNMENT - 1) = 0.
Proof.
  intros Hreach Hs Hok.
  destruct (reachable_invariant _ Hreach) as (cls & own & Hinv). simpl in Hinv.
  destruct (allocate_invariant sys live cls own t s heap os Hinv
              ltac:(change MAX_BYTES with 262144 in Hs; lia) Hok)
    as (p & tc' & sh' & cls' & own' & Hrun & Hinv').
  exists p, tc', sh'. split; [done|].
  destruct (decide (p = 0)) as [->|Hp]; [reflexivity|].
  rewrite decide_True in Hinv' by (split; [lia|done]).
  destruct (inv_live _ _ _ _ Hinv' p s ltac:(here))
    as (_ & Hc & _).
  destruct (inv_block _ _ _ _ Hinv' _ _ Hc) as (_ & Hmod & _).
  by apply mod_8_land.
Qed.

Lemma allocate_aligned_witness :
  ∃ p tc' sh',
    allocate 0 (Some 65536) 24 (thread_cache initial 1) (shared initial)
      = Some (p, tc', sh')
    ∧ Z.land p (ALIGNMENT - 1) = 0.
Proof.
  apply (allocate_aligned initial [] 1 24 0 (Some 65536)).
  - apply rtc_refl.
  - vm_compute. split; congruence.
  - split; [lia|]. split; [reflexivity|]. intros a span sp H. done.
Defined.

(** * Further properties of the code *)

(** ** Common.h: rounding and size classes *)

Section rounding.

Lemma roundUp_wrapped bytes :
  2 ^ 64 - 8 < bytes < 2 ^ 64 → SizeClass.roundUp bytes = 0.
Proof.
  intros H. unfold SizeClass.roundUp, ALIGNMENT, wrap.
  replace (bytes + 8 - 1) with (bytes + 7 - 2 ^ 64 + 1 * 2 ^ 64) by lia.
  rewrite Z.mod_add by lia. rewrite Z.mod_small by lia.
  rewrite land_align_mask by lia.
  rewrite Z.div_small by lia. reflexivity.
Qed.

Lemma roundUp_bounds bytes :
  0 <= bytes <= 2 ^ 64 - 8 →
  SizeClass.roundUp bytes mod ALIGNMENT = 0
  ∧ bytes <= SizeClass.roundUp bytes < bytes + ALIGNMENT.
Proof.
  intros H. rewrite roundUp_spec by done. unfold ALIGNMENT.
  pose proof (Z.div_mod (bytes + 7) 8 ltac:(lia)).
  pose proof (Z.mod_pos_bound (bytes + 7) 8 ltac:(lia)).
  split; [|lia].
  rewrite Z.mul_comm. apply Z.mod_mul. lia.
Qed.

End rounding.

(** X1. [roundUp] returns the least multiple of [ALIGNMENT] that is not
    below [bytes], as long as that multiple is a [size_t]; for the seven
    values of [bytes] above [2^64 - 8] the addition wraps around and the
    result is 0. *)
Theorem roundUp_least_multiple (bytes : Z) :
  0 <= bytes < 2 ^ 64 →
  (bytes <= 2 ^ 64 - 8 →
     SizeClass.roundUp bytes mod ALIGNMENT = 0
     ∧ bytes <= SizeClass.roundUp bytes < bytes + ALIGNMENT)
  ∧ (2 ^ 64 - 8 < bytes → SizeClass.roundUp bytes = 0).
Proof.
  intros H. split; intros H'.
  - apply roundUp_bounds. lia.
  - apply roundUp_wrapped. lia.
Qed.

Lemma roundUp_least_multiple_witness :
  (15 <= 2 ^ 64 - 8 →
     SizeClass.roundUp 15 mod ALIGNMENT = 0
     ∧ 15 <= SizeClass.roundUp 15 < 15 + ALIGNMENT)
  ∧ (2 ^ 64 - 8 < 15 → SizeClass.roundUp 15 = 0).
Proof. apply (roundUp_least_multiple 15). lia. Defined.

(** X2. The blocks of the class that [getIndex] selects for a request have
    [(getIndex bytes + 1) * ALIGNMENT] bytes: that is the request rounded up
    to a multiple of 8, and 8 for a request below 8.  So the block holds the
    request and wastes fewer than 8 bytes of it (for requests of 8 bytes or
    more), and a larger request never gets a smaller class. *)
Theorem getIndex_block_size (bytes bytes' : Z) :
  0 <= bytes <= bytes' → bytes' <= 2 ^ 64 - 8 →
  (SizeClass.getIndex bytes + 1) * ALIGNMENT
    = SizeClass.roundUp (Z.max bytes ALIGNMENT)
  ∧ Z.max bytes ALIGNMENT <= (SizeClass.getIndex bytes + 1) * ALIGNMENT
      < Z.max bytes ALIGNMENT + ALIGNMENT
  ∧ SizeClass.getIndex bytes <= SizeClass.getIndex bytes'.
Proof.
  intros H H'. unfold ALIGNMENT.
  rewrite roundUp_spec by lia. rewrite !getIndex_spec by lia.
  pose proof (Z.div_mod (Z.max bytes 8 + 7) 8 ltac:(lia)).
  pose proof (Z.mod_pos_bound (Z.max bytes 8 + 7) 8 ltac:(lia)).
  split; [lia|]. split; [lia|].
  assert ((Z.max bytes 8 + 7) / 8 <= (Z.max bytes' 8 + 7) / 8); [|lia].
  apply Z.div_le_mono; lia.
Qed.

Lemma getIndex_block_size_witness :
  (SizeClass.getIndex 3 + 1) * ALIGNMENT = SizeClass.roundUp (Z.max 3 ALIGNMENT)
  ∧ Z.max 3 ALIGNMENT <= (SizeClass.getIndex 3 + 1) * ALIGNMENT
      < Z.max 3 ALIGNMENT + ALIGNMENT
  ∧ SizeClass.getIndex 3 <= SizeClass.getIndex 1000.
Proof. apply (getIndex_block_size 3 1000); lia. Defined.

(** ** ThreadCache::getBatchNum *)

(** X3. The cap of [MAX_BATCH_SIZE] bytes never takes effect: for every
    block size the batch is the base count of the table, a batch of blocks
    of at most 1024 bytes has at most 2048 bytes in all, and larger blocks
    are fetched one at a time. *)
Theorem getBatchNum_is_baseNum (size : Z) :
  1 <= size →
  getBatchNum size = baseNum size
  ∧ (size <= 1024 → getBatchNum size * size <= 2048)
  ∧ (1024 < size → getBatchNum size = 1).
Proof.
  intros Hs.
  assert (getBatchNum size = baseNum size) as Heq.
  { unfold getBatchNum. rewrite baseNum_decide. change MAX_BATCH_SIZE with 4096.
    assert (0 <= 4096 / size) as H0 by (apply Z.div_pos; lia).
    assert (∀ k, k * size <= 4096 → k <= 4096 / size) as Hk.
    { intros k Hk. apply Z.div_le_lower_bound; lia. }
    repeat case_decide.
    - specialize (Hk 64 ltac:(lia)). lia.
    - specialize (Hk 32 ltac:(lia)). lia.
    - specialize (Hk 16 ltac:(lia)). lia.
    - specialize (Hk 8 ltac:(lia)). lia.
    - specialize (Hk 4 ltac:(lia)). lia.
    - specialize (Hk 2 ltac:(lia)). lia.
    - lia. }
  rewrite Heq. split; [done|]. rewrite baseNum_decide.
  split; intros; repeat case_decide; lia.
Qed.

Lemma getBatchNum_is_baseNum_witness :
  getBatchNum 100 = baseNum 100
  ∧ (100 <= 1024 → getBatchNum 100 * 100 <= 2048)
  ∧ (1024 < 100 → getBatchNum 100 = 1).
Proof. apply (getBatchNum_is_baseNum 100). lia. Defined.

(** ** PageCache: where a span comes from *)

Section page_cache_more.

Implicit Types pc : PageCache.

Lemma lower_bound_intro n (m : gmap Z Z) k v :
  m !! k = Some v → n <= k →
  (∀ k', is_Some (m !! k') → n <= k' → k <= k') →
  lower_bound n m = Some (k, v).
Proof.
  intros Hk Hn Hmin.
  destruct (lower_bound n m) as [[k0 v0]|] eqn:E.
  - apply lower_bound_Some in E as (Hk0 & Hn0 & Hmin0).
    assert (k0 = k) as ->.
    { apply Z.le_antisymm; [apply Hmin0|apply Hmin]; eauto. }
    congruence.
  - pose proof (lower_bound_None n m k E ltac:(eauto)). lia.
Qed.

Lemma lower_bound_too_small n (m : gmap Z Z) :
  (∀ k, is_Some (m !! k) → k < n) → lower_bound n m = None.
Proof.
  intros Hall.
  destruct (lower_bound n m) as [[k0 v0]|] eqn:E; [|done].
  apply lower_bound_Some in E as (Hk0 & Hn0 & _).
  specialize (Hall k0 ltac:(eauto)). lia.
Qed.

Lemma slot_delete (a : gmap Z Z) i j :
  slot (delete i a) j = if decide (i = j) then 0 else slot a j.
Proof.
  unfold slot. case_decide as H.
  - subst. by rewrite lookup_delete_eq.
  - by rewrite lookup_delete_ne.
Qed.

End page_cache_more.

(** X4. When no free span has [n] pages or more, [allocateSpan] turns to
    the system.  If [mmap] fails it returns null and changes nothing.  If
    [mmap] answers [p], it returns [p]; [spanMap_] records at [p] a new
    descriptor of [n] pages that is in no list; the free lists are what they
    were; every word of the [n] pages reads 0 and no word outside them
    changed. *)
Theorem allocateSpan_from_system (n : Z) (pc : PageCache) (m : gmap Z Z) :
  (∀ k, is_Some (freeSpans_ pc !! k) → k < n) →
  0 <= n * PAGE_SIZE < 2 ^ 64 →
  allocateSpan None n pc m = Some (0, pc, m)
  ∧ ∀ p, p ≠ 0 →
      ∃ span pc' m',
        allocateSpan (Some p) n pc m = Some (p, pc', m')
        ∧ span ≠ 0 ∧ descr pc !! span = None
        ∧ freeSpans_ pc' = freeSpans_ pc
        ∧ spanMap_ pc' = <[p := span]> (spanMap_ pc)
        ∧ descr pc' = <[span := mkSpan p n 0]> (descr pc)
        ∧ (∀ a, p <= a < p + n * PAGE_SIZE → load m' a = 0)
        ∧ (∀ a, ¬ (p <= a < p + n * PAGE_SIZE) → load m' a = load m a).
Proof.
  intros Hsmall Hn.
  pose proof (lower_bound_too_small n _ Hsmall) as Hlb.
  unfold allocateSpan. rewrite Hlb. split; [done|].
  intros p Hp. simpl. rewrite decide_False by done.
  rewrite (wrap_small (n * PAGE_SIZE)) by done.
  eexists (new_Span (descr pc)), _, _. split; [reflexivity|]. simpl.
  split; [pose proof (new_Span_pos (descr pc)); lia|].
  split; [apply new_Span_fresh|].
  split; [done|]. split; [done|]. split; [done|].
  split; intros a Ha.
  - by apply load_memset0_in.
  - by apply load_memset0_out.
Qed.

Lemma allocateSpan_from_system_witness :
  allocateSpan None 8 emptyPageCache ∅ = Some (0, emptyPageCache, ∅)
  ∧ ∃ span pc' m',
      allocateSpan (Some 65536) 8 emptyPageCache ∅ = Some (65536, pc', m')
      ∧ span ≠ 0 ∧ descr emptyPageCache !! span = None
      ∧ freeSpans_ pc' = freeSpans_ emptyPageCache
      ∧ spanMap_ pc' = <[65536 := span]> (spanMap_ emptyPageCache)
      ∧ descr pc' = <[span := mkSpan 65536 8 0]> (descr emptyPageCache).
Proof.
  destruct (allocateSpan_from_system 8 emptyPageCache ∅) as [Hfail Hok].
  - intros k [v Hk]. done.
  - vm_compute. split; congruence.
  - split; [exact Hfail|].
    destruct (Hok 65536 ltac:(lia)) as (span & pc' & m' & H1 & H2 & H3 & H4 & H5 & H6 & _).
    exists span, pc', m'. done.
Defined.

(** X5. [allocateSpan] is a best fit over the free lists: when there is a
    free list of [n] pages or more, it takes the head [span] of the list
    with the least such page count, whatever the system would answer, and
    leaves raw memory alone (the pages are not cleared again).  [spanMap_]
    records the span at its address; the list loses its head.  A span of
    more than [n] pages is cut: its descriptor keeps [n] pages, and the rest
    gets a new descriptor, right behind these pages, at the head of the list
    of its page count. *)
Theorem allocateSpan_best_fit (os : option Z) (n key span : Z) (sp : Span)
    (pc : PageCache) (m : gmap Z Z) :
  freeSpans_ pc !! key = Some span →
  n <= key →
  (∀ k, is_Some (freeSpans_ pc !! k) → n <= k → key <= k) →
  descr pc !! span = Some sp →
  0 <= n * PAGE_SIZE < 2 ^ 64 →
  let rest := if decide (next sp ≠ 0) then <[key := next sp]> (freeSpans_ pc)
              else delete key (freeSpans_ pc) in
  ∃ pc',
    allocateSpan os n pc m = Some (pageAddr sp, pc', m)
    ∧ spanMap_ pc' = <[pageAddr sp := span]> (spanMap_ pc)
    ∧ slot rest key = next sp
    ∧ (numPages sp <= n → freeSpans_ pc' = rest ∧ descr pc' = descr pc)
    ∧ (n < numPages sp →
       ∃ newSpan,
         newSpan ≠ 0 ∧ descr pc !! newSpan = None
         ∧ freeSpans_ pc' = <[numPages sp - n := newSpan]> rest
         ∧ descr pc' !! span = Some (set_numPages n sp)
         ∧ descr pc' !! newSpan =
             Some (mkSpan (pageAddr sp + n * PAGE_SIZE) (numPages sp - n)
                          (slot rest (numPages sp - n)))
         ∧ ∀ a, a ≠ span → a ≠ newSpan → descr pc' !! a = descr pc !! a).
Proof.
  intros Hkey Hn Hmin Hsp Hpages rest.
  pose proof (lower_bound_intro n _ key span Hkey Hn Hmin) as Hlb.
  assert (slot rest key = next sp) as Hrest.
  { unfold rest. case_decide as Hnx.
    - apply slot_insert_eq.
    - rewrite slot_delete, decide_True by done. by rewrite Hnx. }
  destruct (decide (n < numPages sp)) as [Hlt|Hge].
  - destruct (allocateSpan_split os n pc m key span sp Hlb Hsp Hlt)
      as (pc' & Hrun & Hfs & Hnew & Hold & Hmap).
    exists pc'. split; [done|]. split; [done|]. split; [done|].
    split; [lia|]. intros _. exists (new_Span (descr pc)).
    split; [pose proof (new_Span_pos (descr pc)); lia|].
    split; [apply new_Span_fresh|].
    rewrite (wrap_small (n * PAGE_SIZE)) in Hnew by done.
    unfold allocateSpan in Hrun. rewrite Hlb in Hrun. simpl in Hrun.
    rewrite Hsp in Hrun. simpl in Hrun. rewrite decide_True in Hrun by done.
    injection Hrun as <-. simpl.
    split; [done|]. split; [done|]. split; [done|].
    intros a Ha Ha'. by rewrite !lookup_insert_ne.
  - unfold allocateSpan. rewrite Hlb. simpl. rewrite Hsp. simpl.
    rewrite decide_False by done. eexists. split; [reflexivity|]. simpl.
    split; [done|]. split; [done|]. split; [done|]. lia.
Qed.

Lemma allocateSpan_best_fit_witness :
  ∃ pc',
    allocateSpan None 8 pc_free16 ∅ = Some (65536, pc', ∅)
    ∧ spanMap_ pc' = <[65536 := 1]> (spanMap_ pc_free16)
    ∧ freeSpans_ pc' !! 8 = Some 2
    ∧ freeSpans_ pc' !! 16 = None.
Proof.
  destruct (allocateSpan_best_fit None 8 16 1 (mkSpan 65536 16 0) pc_free16 ∅)
    as (pc' & Hrun & Hmap & _ & _ & Hcut).
  - reflexivity.
  - lia.
  - intros k [v Hk] _. unfold pc_free16 in Hk. simpl in Hk.
    apply lookup_singleton_Some in Hk as [<- _]. lia.
  - reflexivity.
  - vm_compute. split; congruence.
  - exists pc'. split; [exact Hrun|]. split; [exact Hmap|].
    vm_compute in Hrun. injection Hrun as <-. split; reflexivity.
Defined.

(** X6. A span that is given back and does not merge is the next one
    handed out for its page count: [deallocateSpan(p, n)] followed by
    [allocateSpan(n)] returns [p] again without a call of the system, and
    the page cache is what it was before the two calls, up to the field
    [next] of the descriptor (and null heads in [freeSpans_]). *)
Theorem deallocateSpan_allocateSpan (fuel : nat) (os : option Z) (p n span : Z)
    (sp : Span) (pc : PageCache) (m : gmap Z Z) :
  spanMap_ pc !! p = Some span →
  descr pc !! span = Some sp →
  pageAddr sp = p → numPages sp = n →
  page_wf fuel pc →
  not_free pc span →
  ¬ free_neighbour pc (wrap (p + wrap (n * PAGE_SIZE))) →
  ∃ pc1 pc2,
    deallocateSpan fuel p n pc = Some pc1
    ∧ allocateSpan os n pc1 m = Some (p, pc2, m)
    ∧ spanMap_ pc2 = spanMap_ pc
    ∧ (∀ k, slot (freeSpans_ pc2) k = slot (freeSpans_ pc) k)
    ∧ descr pc2 = <[span := set_next (slot (freeSpans_ pc) n) sp]> (descr pc).
Proof.
  intros Hmap Hsp Haddr Hpages Hwf Hnf Hnb.
  destruct (merge_right_spec fuel span (wrap (p + wrap (n * PAGE_SIZE))) pc sp
              Hsp Hwf Hnf)
    as (pc1 & merged & Hmerge & Hiff & _ & Hno & _ & _).
  destruct merged; [exfalso; by apply Hnb, Hiff|].
  destruct (Hno eq_refl) as (Hm1 & Hd1 & Hs1).
  set (list := slot (freeSpans_ pc) n).
  set (pc2 := {| freeSpans_ := <[n := span]> (freeSpans_ pc1);
                 spanMap_ := spanMap_ pc;
                 descr := <[span := set_next list sp]> (descr pc) |}).
  assert (deallocateSpan fuel p n pc = Some pc2) as Hde.
  { unfold deallocateSpan. rewrite Hmap. rewrite Hmerge. simpl.
    unfold push_free. rewrite Hd1, Hsp. simpl.
    rewrite Hpages, Hs1, Hm1. reflexivity. }
  assert (lower_bound n (freeSpans_ pc2) = Some (n, span)) as Hlb.
  { apply lower_bound_intro; [apply lookup_insert_eq|lia|]. intros; lia. }
  eexists pc2, _. split; [exact Hde|].
  unfold allocateSpan. rewrite Hlb. simpl. rewrite lookup_insert_eq. simpl.
  rewrite decide_False by lia. rewrite Haddr.
  split; [reflexivity|]. simpl.
  split; [by apply insert_id|]. split; [|done].
  intros k. fold list. case_decide as Hl.
  - destruct (decide (k = n)) as [->|Hk].
    + by rewrite slot_insert_eq.
    + rewrite !slot_insert_ne by done. apply Hs1.
  - rewrite slot_delete. case_decide as Hk.
    + subst k. symmetry. exact Hl.
    + rewrite slot_insert_ne by done. apply Hs1.
Qed.

Lemma deallocateSpan_allocateSpan_witness :
  ∃ pc1 pc2,
    deallocateSpan 1 65536 8 (mapped emptyPageCache 65536 8) = Some pc1
    ∧ allocateSpan None 8 pc1 ∅ = Some (65536, pc2, ∅).
Proof.
  assert (∀ k, free_list (mapped emptyPageCache 65536 8) k []) as Hlists.
  { intros k. reflexivity. }
  destruct (deallocateSpan_allocateSpan 1 None 65536 8 1 (mkSpan 65536 8 0)
              (mapped emptyPageCache 65536 8) ∅)
    as (pc1 & pc2 & H1 & H2 & _).
  - reflexivity.
  - reflexivity.
  - reflexivity.
  - reflexivity.
  - split; [reflexivity|]. split.
    + intros a span Ha. simpl in Ha.
      apply lookup_insert_Some in Ha as [[_ <-]|[_ Ha]]; [by eexists|done].
    + intros k. exists []. split; [apply Hlists|simpl; lia].
  - intros k l Hl Hin.
    rewrite (free_list_inj _ _ _ _ Hl (Hlists k)) in Hin.
    by apply elem_of_nil in Hin.
  - intros (nextSpan & ns & l & Hn & _). vm_compute in Hn. congruence.
  - exists pc1, pc2. done.
Defined.

(** X7. [deallocateSpan] leaves null heads in [freeSpans_].  Its probe
    [freeSpans_[nextSpan->numPages]] creates an entry with a null head when
    the neighbour is in use and there is no list for its page count, and
    unlinking a neighbour that was the only span of its list leaves the
    entry with a null head.  [allocateSpan] does not expect such an entry:
    when its [lower_bound] lands on it, it dereferences the null pointer,
    even though a larger free span exists. *)
Theorem deallocateSpan_null_head (fuel : nat) (ptr nPages n span nextSpan : Z)
    (sp ns : Span) (pc : PageCache) :
  descr pc !! 0 = None →
  spanMap_ pc !! ptr = Some span →
  descr pc !! span = Some sp →
  spanMap_ pc !! wrap (ptr + wrap (nPages * PAGE_SIZE)) = Some nextSpan →
  descr pc !! nextSpan = Some ns →
  span ≠ nextSpan →
  slot (freeSpans_ pc) (numPages ns) = 0 ∧ numPages ns < numPages sp
  ∨ free_list pc (numPages ns) [nextSpan]
    ∧ numPages ns < wrap (numPages sp + numPages ns) →
  n <= numPages ns →
  (∀ k, is_Some (freeSpans_ pc !! k) → n <= k → numPages ns <= k) →
  ∃ pc',
    deallocateSpan fuel ptr nPages pc = Some pc'
    ∧ freeSpans_ pc' !! numPages ns = Some 0
    ∧ (∃ k, numPages ns < k ∧ freeSpans_ pc' !! k = Some span)
    ∧ ∀ os m, allocateSpan os n pc' m = None.
Proof.
  intros Hnull Hmap Hsp Hnext Hns Hne Hcase Hn Hmin.
  assert (span ≠ 0) as Hspan0 by (intros ->; congruence).
  assert (∃ pc' key,
            deallocateSpan fuel ptr nPages pc = Some pc'
            ∧ numPages ns < key
            ∧ freeSpans_ pc' =
                <[key := span]> (<[numPages ns := 0]> (freeSpans_ pc))
            ∧ descr pc' !! 0 = None) as (pc' & key & Hrun & Hkey & Hfs & Hd0).
  { unfold deallocateSpan. rewrite Hmap.
    unfold merge_right. rewrite Hnext. simpl. rewrite Hns. simpl.
    destruct Hcase as [[Hempty Hk]|[Hlist Hk]].
    - rewrite Hempty. rewrite decide_False by (intros Heq; congruence).
      rewrite decide_False by (intros H; by apply H). simpl.
      unfold push_free. simpl. rewrite Hsp. simpl.
      eexists _, (numPages sp). split; [reflexivity|]. simpl.
      split; [done|]. split; [done|].
      rewrite lookup_insert_ne by done. done.
    - destruct Hlist as (Hhead & Hn0 & nx & Hnx & Hnil).
      simpl in Hnil. subst nx. rewrite Hns in Hnx. simpl in Hnx.
      injection Hnx as Hnx.
      rewrite Hhead. rewrite decide_True by done. simpl.
      rewrite Hsp. simpl. rewrite Hns. simpl.
      unfold push_free. simpl.
      rewrite lookup_delete_ne by done. rewrite lookup_insert_eq. simpl.
      eexists _, (wrap (numPages sp + numPages ns)).
      split; [reflexivity|]. simpl.
      split; [done|]. split.
      + rewrite Hnx. by rewrite insert_insert_eq.
      + rewrite lookup_insert_ne by done.
        rewrite lookup_delete_ne by (intros ->; congruence).
        by rewrite lookup_insert_ne. }
  exists pc'. split; [done|].
  assert (freeSpans_ pc' !! numPages ns = Some 0) as Hstale.
  { rewrite Hfs. rewrite lookup_insert_ne by lia. apply lookup_insert_eq. }
  split; [done|]. split.
  { exists key. split; [done|]. rewrite Hfs. apply lookup_insert_eq. }
  intros os m.
  assert (lower_bound n (freeSpans_ pc') = Some (numPages ns, 0)) as Hlb.
  { apply lower_bound_intro; [done|done|].
    intros k [v Hk] Hnk. rewrite Hfs in Hk.
    apply lookup_insert_Some in Hk as [[<- _]|[_ Hk]]; [lia|].
    apply lookup_insert_Some in Hk as [[<- _]|[_ Hk]]; [lia|].
    apply Hmin; eauto. }
  unfold allocateSpan. rewrite Hlb. simpl. by rewrite Hd0.
Qed.

Lemma deallocateSpan_null_head_witness :
  ∃ pc',
    deallocateSpan 2 65536 8 pc_neighbours = Some pc'
    ∧ freeSpans_ pc' !! 8 = Some 0
    ∧ (∃ k, 8 < k ∧ freeSpans_ pc' !! k = Some 1)
    ∧ allocateSpan None 8 pc' ∅ = None.
Proof.
  destruct (deallocateSpan_null_head 2 65536 8 8 1 2
              (mkSpan 65536 8 0) (mkSpan 98304 8 0) pc_neighbours)
    as (pc' & H1 & H2 & H3 & H4).
  - reflexivity.
  - reflexivity.
  - reflexivity.
  - reflexivity.
  - reflexivity.
  - lia.
  - right. split; [|vm_compute; reflexivity].
    split; [reflexivity|]. split; [done|]. by exists 0.
  - simpl. lia.
  - intros k _ Hk. simpl. lia.
  - exists pc'. split; [exact H1|]. split; [exact H2|]. split; [exact H3|].
    apply H4.
Defined.

(** ** CentralCache: the traffic with the page tier and with the threads *)

(** X8. [fetchFromPageCache] asks the page tier for
    [max(SPAN_PAGES, ceil(size / PAGE_SIZE))] pages: always enough for one
    block of [size] bytes, and never a page more than that for a block above
    32 KiB. *)
Theorem fetchFromPageCache_pages (os : option Z) (size : Z) (pc : PageCache)
    (m : gmap Z Z) :
  1 <= size <= 2 ^ 64 - PAGE_SIZE →
  let n := Z.max SPAN_PAGES ((size + PAGE_SIZE - 1) / PAGE_SIZE) in
  fetchFromPageCache os size pc m = allocateSpan os n pc m
  ∧ size <= n * PAGE_SIZE
  ∧ (SPAN_PAGES * PAGE_SIZE < size → (n - 1) * PAGE_SIZE < size).
Proof.
  change PAGE_SIZE with 4096. change SPAN_PAGES with 8. intros Hs n.
  pose proof (Z.div_mod (size + 4096 - 1) 4096 ltac:(lia)) as Hdm.
  pose proof (Z.mod_pos_bound (size + 4096 - 1) 4096 ltac:(lia)) as Hmb.
  unfold fetchFromPageCache. change PAGE_SIZE with 4096. change SPAN_PAGES with 8.
  rewrite wrap_small by lia. fold n.
  case_decide as Hle.
  - assert (n = 8) as -> by lia. split; [done|]. lia.
  - assert (n = (size + 4096 - 1) / 4096) as -> by lia. split; [done|]. lia.
Qed.

Lemma fetchFromPageCache_pages_witness :
  let n := Z.max SPAN_PAGES ((40000 + PAGE_SIZE - 1) / PAGE_SIZE) in
  fetchFromPageCache None 40000 emptyPageCache ∅ = allocateSpan None n emptyPageCache ∅
  ∧ 40000 <= n * PAGE_SIZE
  ∧ (SPAN_PAGES * PAGE_SIZE < 40000 → (n - 1) * PAGE_SIZE < 40000).
Proof. apply (fetchFromPageCache_pages None 40000). vm_compute. split; congruence. Defined.

(** X9. On a central list that is not empty [fetchRange] does not turn to
    the page tier, whatever the system would answer: it returns the head,
    takes [min(batchNum, length)] blocks, and the only word it writes is the
    link of the last block taken.  The lists of the other classes are what
    they were. *)
Theorem fetchRange_existing_frame (os : option Z) (index batchNum : Z)
    (sh : Shared) (l : list Z) :
  0 <= index < FREE_LIST_SIZE → 1 <= batchNum →
  slot (centralFreeList_ sh) index ≠ 0 →
  chain (memory sh) (slot (centralFreeList_ sh) index) l →
  ∃ sh' e,
    fetchRange os index batchNum sh = Some (slot (centralFreeList_ sh) index, sh')
    ∧ pageCache sh' = pageCache sh
    ∧ last (take (Z.to_nat batchNum) l) = Some e
    ∧ Z.of_nat (length (take (Z.to_nat batchNum) l))
        = Z.min batchNum (Z.of_nat (length l))
    ∧ load (memory sh') e = 0
    ∧ (∀ a, a ≠ e → load (memory sh') a = load (memory sh) a)
    ∧ (∀ j, j ≠ index →
         slot (centralFreeList_ sh') j = slot (centralFreeList_ sh) j).
Proof.
  intros Hi Hb Hhead Hl.
  destruct (fetchRange_existing os index batchNum sh l Hi Hb Hhead Hl)
    as (l1 & e & Htake & Hrun & _).
  eexists _, e. split; [exact Hrun|]. simpl. split; [done|].
  split; [rewrite Htake; apply last_snoc|].
  split; [rewrite length_take; lia|].
  split; [apply load_store_eq|].
  split.
  - intros a Ha. by apply load_store_ne.
  - intros j Hj. by apply slot_insert_ne.
Qed.

Lemma fetchRange_existing_frame_witness :
  ∃ sh' e,
    fetchRange None 0 2 sh_three = Some (4096, sh')
    ∧ pageCache sh' = pageCache sh_three
    ∧ last (take 2 [4096; 4104; 4112]) = Some e
    ∧ load (memory sh') e = 0.
Proof.
  destruct (fetchRange_existing_frame None 0 2 sh_three [4096; 4104; 4112])
    as (sh' & e & H1 & H2 & H3 & _ & H5 & _).
  - vm_compute. split; congruence.
  - lia.
  - vm_compute. congruence.
  - split; [reflexivity|]. split; [done|]. exists 4104. split; [reflexivity|].
    split; [reflexivity|]. split; [done|]. exists 4112. split; [reflexivity|].
    split; [reflexivity|]. split; [done|]. exists 0. split; reflexivity.
  - exists sh', e. done.
Defined.

(** X10. When the central list is empty and the page tier hands out a
    span at [start], [fetchRange] leaves in the central list exactly the
    blocks that it does not hand out: those at [start + k * size] for
    [alloc <= k < totalBlocks], in this order, ending in null.  All blocks
    lie in the first [SPAN_PAGES] pages of the span; no word is written
    except the first word of a block, and the lists of the other classes are
    what they were. *)
Theorem fetchRange_fresh_central (os : option Z) (index batchNum : Z)
    (sh : Shared) (start : Z) (pc : PageCache) (m0 : gmap Z Z) :
  0 <= index < FREE_LIST_SIZE → 1 <= batchNum →
  slot (centralFreeList_ sh) index = 0 →
  fetchFromPageCache os ((index + 1) * ALIGNMENT) (pageCache sh) (memory sh)
    = Some (start, pc, m0) →
  0 < start →
  let size := (index + 1) * ALIGNMENT in
  let total := totalBlocks size in
  let alloc := Z.min batchNum total in
  ∃ sh',
    fetchRange os index batchNum sh = Some (start, sh')
    ∧ pageCache sh' = pc
    ∧ chain (memory sh') (slot (centralFreeList_ sh') index)
            (blocks start size alloc (Z.to_nat (total - alloc)))
    ∧ total * size <= SPAN_PAGES * PAGE_SIZE
    ∧ (∀ a, (∀ k, 0 <= k < total → a ≠ start + k * size) →
         load (memory sh') a = load m0 a)
    ∧ (∀ j, j ≠ index →
         slot (centralFreeList_ sh') j = slot (centralFreeList_ sh) j).
Proof.
  intros Hi Hb Hhead Hpage Hstart size total alloc.
  pose proof (block_size_range index Hi) as Hsz. fold size in Hsz.
  rewrite (fetchRange_fresh os index batchNum sh start pc m0 Hi Hb Hhead Hpage)
    by lia.
  fold size.
  destruct (carve_spec start size batchNum index (centralFreeList_ sh) m0
              Hstart ltac:(lia) Hb) as (Hframe & _ & _ & Hlt & Hge).
  fold total in Hframe, Hlt, Hge. fold alloc in Hlt, Hge.
  eexists. split; [reflexivity|]. simpl. split; [done|].
  assert (total * size <= SPAN_PAGES * PAGE_SIZE) as Htot.
  { unfold total, totalBlocks. rewrite Z.mul_comm. apply Z.mul_div_le. lia. }
  destruct (decide (alloc < total)) as [Hc|Hc].
  - destruct (Hlt Hc) as [Hcfl Hchain]. rewrite Hcfl.
    split; [by rewrite slot_insert_eq|]. split; [done|]. split; [done|].
    intros j Hj. by apply slot_insert_ne.
  - rewrite (Hge ltac:(lia)). rewrite Hhead.
    replace (Z.to_nat (total - alloc)) with 0%nat by lia.
    split; [done|]. split; [done|]. split; [done|]. done.
Qed.

Lemma fetchRange_fresh_central_witness :
  ∃ sh',
    fetchRange (Some 65536) 1023 2 emptyShared = Some (65536, sh')
    ∧ chain (memory sh') (slot (centralFreeList_ sh') 1023)
            (blocks 65536 8192 2 2).
Proof.
  destruct (fetchRange_fresh_central (Some 65536) 1023 2 emptyShared 65536
              (mapped emptyPageCache 65536 8) ∅)
    as (sh' & H1 & _ & H3 & _).
  - vm_compute. split; congruence.
  - lia.
  - reflexivity.
  - vm_compute. reflexivity.
  - lia.
  - exists sh'. split; [exact H1|]. exact H3.
Defined.

(** X11. What [returnRange] puts on the central list, [fetchRange] hands
    out again: after [returnRange(start, size, index)] with a chain of at
    most [max(size, 1)] blocks, the central list is that chain followed by
    the former list, and [fetchRange] for as many blocks returns [start]
    with the same chain, ending in null, and leaves the former list. *)
Theorem returnRange_fetchRange (os : option Z) (start size index : Z)
    (sh : Shared) (R lc : list Z) :
  start ≠ 0 → 0 <= index < FREE_LIST_SIZE →
  chain (memory sh) start R →
  chain (memory sh) (slot (centralFreeList_ sh) index) lc →
  (∀ a, a ∈ R → a ∉ lc) →
  Z.of_nat (length R) <= Z.max size 1 →
  let sh1 := returnRange start size index sh in
  chain (memory sh1) (slot (centralFreeList_ sh1) index) (R ++ lc)
  ∧ ∃ sh2,
      fetchRange os index (Z.of_nat (length R)) sh1 = Some (start, sh2)
      ∧ chain (memory sh2) start R
      ∧ chain (memory sh2) (slot (centralFreeList_ sh2) index) lc
      ∧ pageCache sh2 = pageCache sh.
Proof.
  intros Hstart Hi HR Hlc Hdisj Hlen sh1.
  destruct (returnRange_spec start size index sh R lc Hstart Hi HR Hlc Hdisj)
    as (k & l1 & e & Hk & Htake & Hfull & Hrun & Hchain).
  assert (k = length R) as -> by (apply Hfull; lia).
  rewrite firstn_all in Hchain.
  assert (R ≠ []) as Hne.
  { intros ->. by apply chain_nil_inv in HR. }
  assert (slot (centralFreeList_ sh1) index = start) as Hhead.
  { unfold sh1. rewrite Hrun. simpl. apply slot_insert_eq. }
  assert (chain (memory sh1) (slot (centralFreeList_ sh1) index) (R ++ lc)) as Hc1.
  { rewrite Hhead. unfold sh1. rewrite Hrun. exact Hchain. }
  split; [exact Hc1|].
  destruct (fetchRange_existing os index (Z.of_nat (length R)) sh1 (R ++ lc) Hi)
    as (l2 & p & Htake2 & Hrun2 & Hc2 & Hc3).
  - destruct R; [done|simpl; lia].
  - by rewrite Hhead.
  - exact Hc1.
  - rewrite Nat2Z.id in *.
    rewrite take_app_length in Hc2. rewrite drop_app_length in Hc3, Hrun2.
    rewrite Hhead in Hrun2, Hc2.
    eexists. split; [exact Hrun2|]. simpl. split; [exact Hc2|].
    split; [by rewrite slot_insert_eq|].
    unfold sh1. rewrite Hrun. reflexivity.
Qed.

Lemma returnRange_fetchRange_witness :
  let sh1 := returnRange 8192 8 0 sh_three in
  chain (memory sh1) (slot (centralFreeList_ sh1) 0) ([8192] ++ [4096; 4104; 4112])
  ∧ ∃ sh2,
      fetchRange None 0 1 sh1 = Some (8192, sh2)
      ∧ chain (memory sh2) 8192 [8192]
      ∧ chain (memory sh2) (slot (centralFreeList_ sh2) 0) [4096; 4104; 4112].
Proof.
  destruct (returnRange_fetchRange None 8192 8 0 sh_three [8192] [4096; 4104; 4112])
    as (H1 & sh2 & H2 & H3 & H4 & _).
  - lia.
  - vm_compute. split; congruence.
  - split; [reflexivity|]. split; [done|]. exists 0. split; reflexivity.
  - split; [reflexivity|]. split; [done|]. exists 4104. split; [reflexivity|].
    split; [reflexivity|]. split; [done|]. exists 4112. split; [reflexivity|].
    split; [reflexivity|]. split; [done|]. exists 0. split; reflexivity.
  - intros a Ha%list_elem_of_singleton Hin. subst a.
    repeat (apply elem_of_cons in Hin as [Hin|Hin]; [lia|]).
    by apply elem_of_nil in Hin.
  - simpl. lia.
  - split; [exact H1|]. exists sh2. done.
Defined.

(** ** ThreadCache: the list of the thread *)

Section thread_cache_more.

(** Whatever [returnToCentralCache] does, the head of the list is the
    block it was called with. *)
Lemma returnToCentralCache_head start size tc sh :
  slot (freeList_ tc) (SizeClass.getIndex size) = start →
  slot (freeList_ (returnToCentralCache start size tc sh).1)
       (SizeClass.getIndex size) = start.
Proof.
  intros Hhead. unfold returnToCentralCache.
  case_decide; [done|].
  destruct (split_walk _ _ _ _ _ _) as [splitNode returnNum].
  case_decide; [|done].
  case_decide; simpl; apply slot_insert_eq.
Qed.

Lemma deallocate_head ptr size tc sh :
  size <= MAX_BYTES →
  slot (freeList_ (deallocate ptr size tc sh).1) (SizeClass.getIndex size) = ptr.
Proof.
  intros Hs. unfold deallocate. rewrite decide_False by lia.
  destruct (shouldReturnToCentralCache _ _).
  - etrans; [apply returnToCentralCache_head; reflexivity|].
    simpl. apply slot_insert_eq.
  - simpl. apply slot_insert_eq.
Qed.

(** Without a spill [deallocate] is a push. *)
Lemma deallocate_push ptr size tc sh :
  size <= MAX_BYTES →
  let index := SizeClass.getIndex size in
  wrap (slot (freeListSize_ tc) index + 1) <= THREAD_RETURN_THRESHOLD →
  deallocate ptr size tc sh
  = ({| freeList_ := <[index := ptr]> (freeList_ tc);
        freeListSize_ :=
          <[index := wrap (slot (freeListSize_ tc) index + 1)]> (freeListSize_ tc) |},
     with_memory (store (memory sh) ptr (slot (freeList_ tc) index)) sh).
Proof.
  intros Hs index Hc. unfold deallocate. rewrite decide_False by lia.
  fold index. unfold shouldReturnToCentralCache. simpl.
  rewrite slot_insert_eq. rewrite bool_decide_eq_false_2 by lia. reflexivity.
Qed.

Lemma wrap_succ_pred c : 0 <= c < 2 ^ 64 → wrap (wrap (c + 1) - 1) = c.
Proof.
  intros Hc. unfold wrap.
  destruct (decide (c = 2 ^ 64 - 1)) as [->|Hne]; [reflexivity|].
  rewrite (Z.mod_small (c + 1)) by lia.
  replace (c + 1 - 1) with c by lia. apply Z.mod_small. lia.
Qed.

End thread_cache_more.

(** X12. The list of a thread is a stack: the block given back last is the
    block handed out next.  After [deallocate(ptr, size)], [allocate] of any
    size of the same class returns [ptr] and does not touch the shared
    tiers, whether or not the [deallocate] spilled blocks to the central
    tier.  When it did not spill, the two calls cancel: the head of the
    list and the counter are what they were before, and in memory only the
    first word of [ptr] may differ. *)
Theorem deallocate_allocate_lifo (heap : Z) (os : option Z) (ptr size size' : Z)
    (tc : ThreadCache) (sh : Shared) :
  ptr ≠ 0 → 0 <= size <= MAX_BYTES → 0 <= size' <= MAX_BYTES →
  SizeClass.getIndex size' = SizeClass.getIndex size →
  let index := SizeClass.getIndex size in
  let r := deallocate ptr size tc sh in
  ∃ tc',
    allocate heap os size' r.1 r.2 = Some (ptr, tc', r.2)
    ∧ (0 <= slot (freeListSize_ tc) index < 2 ^ 64 →
       wrap (slot (freeListSize_ tc) index + 1) <= THREAD_RETURN_THRESHOLD →
       slot (freeList_ tc') index = slot (freeList_ tc) index
       ∧ slot (freeListSize_ tc') index = slot (freeListSize_ tc) index
       ∧ (∀ j, j ≠ index →
            slot (freeList_ tc') j = slot (freeList_ tc) j
            ∧ slot (freeListSize_ tc') j = slot (freeListSize_ tc) j)
       ∧ centralFreeList_ r.2 = centralFreeList_ sh
       ∧ pageCache r.2 = pageCache sh
       ∧ ∀ a, a ≠ ptr → load (memory r.2) a = load (memory sh) a).
Proof.
  intros Hptr Hs Hs' Hidx index r.
  pose proof (deallocate_head ptr size tc sh ltac:(lia)) as Hhead.
  fold index in Hhead. fold r in Hhead.
  rewrite (allocate_small heap os size' _ _ Hs'). cbv zeta. rewrite Hidx.
  fold index. rewrite Hhead. rewrite decide_True by done.
  eexists. split; [reflexivity|]. simpl.
  intros Hc Hno.
  pose proof (deallocate_push ptr size tc sh ltac:(lia) Hno) as Hpush.
  fold index in Hpush. fold r in Hpush. rewrite Hpush. simpl.
  rewrite !slot_insert_eq. rewrite load_store_eq.
  split; [done|]. split; [by apply wrap_succ_pred|].
  split; [|split; [done|split; [done|]]].
  - intros j Hj. by rewrite !slot_insert_ne.
  - intros a Ha. by apply load_store_ne.
Qed.

Lemma deallocate_allocate_lifo_witness :
  let r := deallocate 8192 8 tc_sixteen sh_sixteen in
  ∃ tc', allocate 0 None 5 r.1 r.2 = Some (8192, tc', r.2).
Proof.
  destruct (deallocate_allocate_lifo 0 None 8192 8 5 tc_sixteen sh_sixteen)
    as (tc' & H & _).
  - lia.
  - vm_compute. split; congruence.
  - vm_compute. split; congruence.
  - reflexivity.
  - exists tc'. exact H.
Defined.

(** X13. [allocate] on an empty list of the thread and a central list that
    is not empty: the head of the central list is returned, the next
    [min(batchNum, length) - 1] blocks become the list of the thread, the
    others stay in the central list, and the page tier is not asked.  The
    counter of the thread grows by [batchNum], also when the central list
    had fewer blocks, and counts the returned block as well. *)
Theorem allocate_refill (heap : Z) (os : option Z) (size : Z)
    (tc : ThreadCache) (sh : Shared) (lc : list Z) :
  0 <= size <= MAX_BYTES →
  let index := SizeClass.getIndex size in
  let b := getBatchNum ((index + 1) * ALIGNMENT) in
  slot (freeList_ tc) index = 0 →
  chain (memory sh) (slot (centralFreeList_ sh) index) lc →
  lc ≠ [] →
  ∃ tc' sh',
    allocate heap os size tc sh = Some (hd_ptr lc, tc', sh')
    ∧ chain (memory sh') (slot (freeList_ tc') index)
            (tail (take (Z.to_nat b) lc))
    ∧ chain (memory sh') (slot (centralFreeList_ sh') index)
            (drop (Z.to_nat b) lc)
    ∧ slot (freeListSize_ tc') index
        = wrap (slot (freeListSize_ tc) index + b)
    ∧ pageCache sh' = pageCache sh.
Proof.
  intros Hs index b Hempty Hlc Hne.
  pose proof (getIndex_range size Hs) as Hi. fold index in Hi.
  pose proof (getBatchNum_range ((index + 1) * ALIGNMENT)) as Hb. fold b in Hb.
  pose proof (chain_hd _ _ _ Hlc) as Hhd.
  assert (slot (centralFreeList_ sh) index ≠ 0) as Hhead.
  { destruct lc as [|a lc]; [done|]. by apply chain_cons_inv in Hlc as (-> & ? & _). }
  rewrite (allocate_small heap os size _ _ Hs). cbv zeta. fold index.
  rewrite Hempty. rewrite decide_False by (intros H; by apply H).
  rewrite fetchFromCentralCache_unfold by done. cbv zeta. fold b.
  destruct (fetchRange_existing os index b sh lc Hi ltac:(lia) Hhead Hlc)
    as (l1 & p & Htake & Hrun & Hc1 & Hc2).
  rewrite Hrun. simpl. rewrite decide_False by done. rewrite <- Hhd.
  eexists _, _. split; [reflexivity|]. simpl.
  rewrite !slot_insert_eq.
  split; [|done].
  destruct lc as [|a lc]; [done|].
  apply chain_cons_inv in Hlc as (Ha & Ha0 & _).
  replace (Z.to_nat b) with (S (Z.to_nat (b - 1))) in Hc1 |- * by lia.
  simpl in Hc1 |- *. apply chain_cons_inv in Hc1 as (_ & _ & Hc1).
  rewrite Ha. case_decide as Hb1.
  - by rewrite slot_insert_eq.
  - rewrite Hempty. replace (Z.to_nat (b - 1)) with 0%nat by lia. done.
Qed.

Lemma allocate_refill_witness :
  ∃ tc' sh',
    allocate 0 None 8 emptyThreadCache sh_three = Some (4096, tc', sh')
    ∧ chain (memory sh') (slot (freeList_ tc') 0) [4104; 4112]
    ∧ chain (memory sh') (slot (centralFreeList_ sh') 0) []
    ∧ slot (freeListSize_ tc') 0 = 64.
Proof.
  destruct (allocate_refill 0 None 8 emptyThreadCache sh_three [4096; 4104; 4112])
    as (tc' & sh' & H1 & H2 & H3 & H4 & _).
  - vm_compute. split; congruence.
  - reflexivity.
  - split; [reflexivity|]. split; [done|]. exists 4104. split; [reflexivity|].
    split; [reflexivity|]. split; [done|]. exists 4112. split; [reflexivity|].
    split; [reflexivity|]. split; [done|]. exists 0. split; reflexivity.
  - done.
  - exists tc', sh'. split; [exact H1|]. split; [exact H2|]. split; [exact H3|].
    exact H4.
Defined.

(** X14. When the list of the thread and the central list are empty, no
    free span is large enough and [mmap] fails, [allocate] returns null and
    leaves the thread cache and the shared tiers as they were. *)
Theorem allocate_out_of_memory (heap size : Z) (tc : ThreadCache) (sh : Shared) :
  0 <= size <= MAX_BYTES →
  let index := SizeClass.getIndex size in
  slot (freeList_ tc) index = 0 →
  slot (centralFreeList_ sh) index = 0 →
  (∀ k, is_Some (freeSpans_ (pageCache sh) !! k) →
        k < pagesReceived (blockSize size)) →
  allocate heap None size tc sh = Some (0, tc, sh).
Proof.
  intros Hs index Hempty Hhead Hsmall.
  pose proof (getIndex_range size Hs) as Hi. fold index in Hi.
  pose proof (getBatchNum_range ((index + 1) * ALIGNMENT)) as Hb.
  rewrite (allocate_small heap None size _ _ Hs). cbv zeta. fold index.
  rewrite Hempty. rewrite decide_False by (intros H; by apply H).
  rewrite fetchFromCentralCache_unfold by done. cbv zeta.
  unfold fetchRange. rewrite decide_False by lia. rewrite decide_True by done.
  rewrite fetchFromPageCache_pagesReceived.
  change ((index + 1) * ALIGNMENT) with (blockSize size).
  unfold allocateSpan. rewrite (lower_bound_too_small _ _ Hsmall). simpl.
  by destruct sh.
Qed.

Lemma allocate_out_of_memory_witness :
  allocate 0 None 100 emptyThreadCache emptyShared
    = Some (0, emptyThreadCache, emptyShared).
Proof.
  apply (allocate_out_of_memory 0 100 emptyThreadCache emptyShared).
  - vm_compute. split; congruence.
  - reflexivity.
  - reflexivity.
  - intros k [v Hk]. done.
Defined.

(** ** The bound of returnRange *)

Section bound.

(** [last_block] stops at the last block of the chain or after [n] steps,
    whichever comes first. *)
Lemma last_block_exact n m h l :
  chain m h l → l ≠ [] → last (take (S n) l) = Some (last_block n m h).
Proof.
  revert h l. induction n as [|n IH]; intros h l Hc Hne.
  - destruct l as [|a l]; [done|]. apply chain_cons_inv in Hc as (-> & _).
    simpl. by destruct l.
  - destruct l as [|a l]; [done|]. apply chain_cons_inv in Hc as (-> & Ha & Hc).
    cbn [last_block]. case_decide as Hz.
    + rewrite Hz in Hc. apply chain_nil_head in Hc. subst l. done.
    + assert (l ≠ []) as Hl.
      { intros ->. by apply chain_nil_inv in Hc. }
      specialize (IH _ _ Hc Hl).
      change (take (S (S n)) (a :: l)) with (a :: take (S n) l).
      destruct (take (S n) l) as [|b t] eqn:Ht.
      * destruct l; [done|]. simpl in Ht. done.
      * rewrite <- IH. reflexivity.
Qed.

(** [returnRange] puts the first [max(size, 1)] blocks of the returned
    chain in front of the central list. *)
Lemma returnRange_exact start size index sh R lc :
  start ≠ 0 → 0 <= index < FREE_LIST_SIZE →
  chain (memory sh) start R →
  chain (memory sh) (slot (centralFreeList_ sh) index) lc →
  (∀ a, a ∈ R → a ∉ lc) →
  let B := S (Z.to_nat (size - 1)) in
  ∃ e,
    last (take B R) = Some e
    ∧ returnRange start size index sh
      = {| centralFreeList_ := <[index := start]> (centralFreeList_ sh);
           pageCache := pageCache sh;
           memory := store (memory sh) e (slot (centralFreeList_ sh) index) |}
    ∧ chain (store (memory sh) e (slot (centralFreeList_ sh) index)) start
            (take B R ++ lc).
Proof.
  intros Hstart Hi HR Hlc Hdisj B.
  assert (R ≠ []) as Hne by (intros ->; by apply chain_nil_inv in HR).
  pose proof (last_block_exact (Z.to_nat (size - 1)) _ _ _ HR Hne) as Hlast.
  fold B in Hlast.
  exists (last_block (Z.to_nat (size - 1)) (memory sh) start).
  split; [done|]. split.
  - unfold returnRange. rewrite decide_False; [done|]. lia.
  - apply last_Some in Hlast as [l1 Htake]. rewrite Htake.
    assert (R = l1 ++ last_block (Z.to_nat (size - 1)) (memory sh) start :: drop B R)
      as HRsplit.
    { rewrite <- (take_drop B R) at 1. rewrite Htake. by rewrite <- app_assoc. }
    rewrite HRsplit in HR.
    eapply chain_app_store; [exact HR|exact Hlc|].
    intros a Ha. apply Hdisj. rewrite <- (take_drop B R). rewrite Htake.
    apply elem_of_app. by left.
Qed.

(** The spill of [returnToCentralCache], with the blocks that reach the
    central list. *)
Lemma returnToCentralCache_exact start size tc sh L lc :
  let index := SizeClass.getIndex size in
  let n := slot (freeListSize_ tc) index in
  let keep := Z.to_nat (Z.max (n / 4) 1) in
  let B := S (Z.to_nat (wrap ((n - Z.max (n / 4) 1) * SizeClass.roundUp size) - 1)) in
  let r := returnToCentralCache start size tc sh in
  0 <= index < FREE_LIST_SIZE →
  chain (memory sh) start L → L ≠ [] →
  chain (memory sh) (slot (centralFreeList_ sh) index) lc →
  (∀ a, a ∈ L → a ∉ lc) →
  1 < n → (keep <= length L)%nat →
  chain (memory r.2) (slot (freeList_ r.1) index) (take keep L)
  ∧ chain (memory r.2) (slot (centralFreeList_ r.2) index)
          (take B (drop keep L) ++ lc).
Proof.
  intros index n keep B r Hi HL Hne Hlc Hdisj Hn Hlong.
  assert (1 <= keep)%nat as Hkeep by (unfold keep; lia).
  pose proof (split_walk_spec (Z.to_nat (Z.max (n / 4) 1 - 1)) (memory sh) n 0
                start L (n - Z.max (n / 4) 1) HL Hne) as [Hin _].
  replace (Z.to_nat (Z.max (n / 4) 1 - 1)) with (keep - 1)%nat in * by (unfold keep; lia).
  destruct (Hin ltac:(lia)) as [Hwalk Hnz].
  destruct (take_last_split L keep Hne ltac:(lia)) as (l1 & p & Htake & Hsplit).
  assert (length l1 = (keep - 1)%nat) as Hl1.
  { apply (f_equal length) in Htake. rewrite length_take, length_app in Htake.
    simpl in Htake. lia. }
  assert (L !! (keep - 1)%nat = Some p) as Hp.
  { rewrite Hsplit. rewrite <- Hl1. apply list_lookup_middle. done. }
  rewrite Hp in Hwalk, Hnz. simpl in Hwalk, Hnz.
  pose proof HL as HL'. rewrite Hsplit in HL'.
  destruct (chain_split _ _ _ _ _ HL') as (H1 & H2 & H3).
  pose proof (chain_NoDup _ _ _ HL) as Hnd.
  assert (p ∈ L) as HpL.
  { rewrite Hsplit. apply elem_of_app. right. here. }
  assert (∀ a, a ∈ drop keep L → a ∈ L) as HRL.
  { intros a Ha. rewrite <- (take_drop keep L). apply elem_of_app. by right. }
  assert (r = let sh1 := {| centralFreeList_ := centralFreeList_ sh;
                            pageCache := pageCache sh;
                            memory := store (memory sh) p 0 |} in
              let tc' := {| freeList_ := <[index := start]> (freeList_ tc);
                            freeListSize_ := <[index := Z.max (n / 4) 1]> (freeListSize_ tc) |} in
              if decide (load (memory sh) p ≠ 0)
              then (tc', returnRange (load (memory sh) p)
                           (wrap ((n - Z.max (n / 4) 1) * SizeClass.roundUp size))
                           index sh1)
              else (tc', sh1)) as Hr.
  { unfold r, returnToCentralCache. fold index. fold n.
    rewrite decide_False by lia.
    replace (Z.to_nat (Z.max (n / 4) 1 - 1)) with (keep - 1)%nat by (unfold keep; lia).
    rewrite Hwalk. rewrite decide_True by done. simpl.
    destruct (decide (load (memory sh) p ≠ 0)) as [Hnext|Hnext].
    - rewrite decide_True; [done|]. split; [|done].
      assert (0 <= n / 4 < n); [|lia].
      split; [apply Z.div_pos; lia|apply Z.div_lt_upper_bound; lia].
    - rewrite decide_False; [done|]. intros [_ ?]. done. }
  rewrite Hr. simpl. clear Hr.
  destruct (decide (load (memory sh) p ≠ 0)) as [Hnext|Hnext].
  - destruct (returnRange_exact (load (memory sh) p)
                (wrap ((n - Z.max (n / 4) 1) * SizeClass.roundUp size)) index
                {| centralFreeList_ := centralFreeList_ sh;
                   pageCache := pageCache sh;
                   memory := store (memory sh) p 0 |}
                (drop keep L) lc)
      as (e & Hlast & Hrun & Hchain);
      [done|done|done| |by intros a Ha; apply Hdisj, HRL|].
    { simpl. apply chain_store; [|done]. by apply Hdisj. }
    simpl in Hrun, Hchain. fold B in Hlast, Hchain. rewrite Hrun. simpl.
    rewrite !slot_insert_eq.
    assert (e ∈ drop keep L) as HeR.
    { apply last_Some in Hlast as [l2 Hl2].
      rewrite <- (take_drop B (drop keep L)). rewrite Hl2.
      apply elem_of_app. left. apply elem_of_app. right. here. }
    split; [|done].
    rewrite Htake. apply chain_store; [|done].
    intros He. rewrite <- Htake in He.
    rewrite <- (take_drop keep L) in Hnd.
    apply NoDup_app in Hnd as (_ & Hnd & _). by apply (Hnd e).
  - assert (load (memory sh) p = 0) as Hz.
    { destruct (decide (load (memory sh) p = 0)); [done|]. exfalso. by apply Hnext. }
    rewrite Hz in H3. apply chain_nil_head in H3. rewrite H3. simpl.
    rewrite slot_insert_eq.
    split; [by rewrite Htake|].
    apply chain_store; [|done]. by apply Hdisj.
Qed.

End bound.

(** X15. What [returnRange] is given as [size] bounds the blocks it takes,
    and more blocks than that are lost.  When [deallocate(ptr, size)]
    spills, the first [keep] blocks stay in the list of the thread and, of
    the blocks behind them, the first [max(bound, 1)] reach the central
    list, where [bound = (n - keep) * roundUp(size)]; the blocks behind
    those are in neither list any more.  With [size = 0] the bound is 0: one
    block reaches the central list. *)
Theorem deallocate_spill_bound (ptr size : Z) (tc : ThreadCache) (sh : Shared)
    (l lc : list Z) :
  0 <= size <= MAX_BYTES → ptr ≠ 0 →
  let index := SizeClass.getIndex size in
  let n := wrap (slot (freeListSize_ tc) index + 1) in
  let keep := Z.to_nat (Z.max (n / 4) 1) in
  let B := S (Z.to_nat (wrap ((n - Z.max (n / 4) 1) * SizeClass.roundUp size) - 1)) in
  let tc' := (deallocate ptr size tc sh).1 in
  let sh' := (deallocate ptr size tc sh).2 in
  chain (memory sh) (slot (freeList_ tc) index) l → ptr ∉ l →
  chain (memory sh) (slot (centralFreeList_ sh) index) lc →
  (∀ a, a ∈ ptr :: l → a ∉ lc) →
  THREAD_RETURN_THRESHOLD < n → (keep <= length (ptr :: l))%nat →
  let kept := take keep (ptr :: l) in
  let given := take B (drop keep (ptr :: l)) in
  let lost := drop B (drop keep (ptr :: l)) in
  ptr :: l = kept ++ given ++ lost
  ∧ chain (memory sh') (slot (freeList_ tc') index) kept
  ∧ chain (memory sh') (slot (centralFreeList_ sh') index) (given ++ lc)
  ∧ (∀ a, a ∈ lost → (a ∉ kept) ∧ (a ∉ given ++ lc))
  ∧ (size = 0 → B = 1%nat).
Proof.
  intros Hsize Hptr index n keep B tc' sh' Hl Hnotin Hlc Hdisj Hth Hlong
    kept given lost.
  pose proof (getIndex_range size Hsize) as Hi. fold index in Hi.
  set (sh1 := {| centralFreeList_ := centralFreeList_ sh;
                 pageCache := pageCache sh;
                 memory := store (memory sh) ptr (slot (freeList_ tc) index) |}).
  set (tc1 := {| freeList_ := <[index := ptr]> (freeList_ tc);
                 freeListSize_ := <[index := n]> (freeListSize_ tc) |}).
  assert (chain (memory sh1) ptr (ptr :: l)) as HL.
  { apply chain_cons; [done|]. simpl. rewrite load_store_eq. by apply chain_store. }
  assert (chain (memory sh1) (slot (centralFreeList_ sh1) index) lc) as Hlc1.
  { simpl. apply chain_store; [|done]. apply Hdisj. here. }
  assert (slot (freeListSize_ tc1) index = n) as Hn by apply slot_insert_eq.
  assert (deallocate ptr size tc sh = returnToCentralCache ptr size tc1 sh1) as Hr.
  { unfold deallocate. rewrite decide_False by lia. fold index. fold n.
    fold tc1. fold sh1. unfold shouldReturnToCentralCache. rewrite Hn.
    rewrite bool_decide_eq_true_2 by done.
    unfold tc1 at 1. cbn [freeList_]. rewrite slot_insert_eq. reflexivity. }
  pose proof (returnToCentralCache_exact ptr size tc1 sh1 (ptr :: l) lc) as Hspec.
  cbv zeta in Hspec. fold index in Hspec. rewrite Hn in Hspec.
  fold keep in Hspec. fold B in Hspec.
  unfold THREAD_RETURN_THRESHOLD in Hth.
  destruct (Hspec Hi HL ltac:(done) Hlc1 Hdisj ltac:(lia) Hlong) as [Hc1 Hc2].
  clear Hspec. rewrite <- Hr in Hc1, Hc2.
  assert (ptr :: l = kept ++ given ++ lost) as Hsplit.
  { unfold kept, given, lost. by rewrite !take_drop. }
  split; [done|]. split; [done|]. split; [done|]. split.
  - intros a Ha.
    pose proof (chain_NoDup _ _ _ HL) as Hnd. rewrite Hsplit in Hnd.
    apply NoDup_app in Hnd as (_ & Hkg & Hnd).
    apply NoDup_app in Hnd as (_ & Hgl & _).
    split.
    + intros Hk. apply (Hkg a Hk). apply elem_of_app. by right.
    + intros [Hg|Hc]%elem_of_app.
      * by apply (Hgl a Hg).
      * apply (Hdisj a); [|done]. rewrite Hsplit.
        apply elem_of_app. right. apply elem_of_app. by right.
  - intros ->. unfold B. change (SizeClass.roundUp 0) with 0.
    rewrite Z.mul_0_r. reflexivity.
Qed.

Lemma deallocate_spill_bound_witness :
  let L := 8192 :: blocks 4096 8 0 20 in
  let r := deallocate 8192 0 tc_sixteen sh_twenty in
  L = take 16 L ++ take 1 (drop 16 L) ++ drop 1 (drop 16 L)
  ∧ chain (memory r.2) (slot (freeList_ r.1) 0) (take 16 L)
  ∧ chain (memory r.2) (slot (centralFreeList_ r.2) 0) (take 1 (drop 16 L) ++ [])
  ∧ length (drop 1 (drop 16 L)) = 4%nat.
Proof.
  cbv zeta.
  destruct (deallocate_spill_bound 8192 0 tc_sixteen sh_twenty
              (blocks 4096 8 0 20) []) as (H1 & H2 & H3 & _).
  - vm_compute. split; congruence.
  - lia.
  - pose proof (chain_list_chain 100 (memory sh_twenty) 4096) as Hc.
    replace (chain_list 100 (memory sh_twenty) 4096)
      with (blocks 4096 8 0 20) in Hc by (vm_compute; reflexivity).
    apply Hc. rewrite length_blocks. lia.
  - rewrite elem_of_blocks. intros (k & Hk & Heq). lia.
  - done.
  - intros a _. apply not_elem_of_nil.
  - vm_compute. reflexivity.
  - rewrite length_cons, length_blocks. vm_compute. lia.
  - split; [exact H1|]. split; [exact H2|]. split; [exact H3|].
    vm_compute. reflexivity.
Defined.

(** ** The allocator as a whole: what the client can rely on *)

Section clients.

Implicit Types sys : System.
Implicit Types live : list (Z * Z).

Lemma reachable_step cfg cfg' : reachable cfg → step cfg cfg' → reachable cfg'.
Proof. intros H Hs. by eapply rtc_r. Qed.

Lemma NoDup_fst_eq (l : list (Z * Z)) p s s' :
  NoDup (l.*1) → (p, s) ∈ l → (p, s') ∈ l → s = s'.
Proof.
  induction l as [|[q u] l IH]; [by intros _ ?%elem_of_nil|].
  rewrite fmap_cons. simpl. intros [Hq Hnd]%NoDup_cons H1 H2.
  apply elem_of_cons in H1 as [H1|H1]; apply elem_of_cons in H2 as [H2|H2].
  - congruence.
  - injection H1 as -> ->. exfalso. apply Hq.
    by apply (list_elem_of_fmap_2 fst _ (q, s')).
  - injection H2 as -> ->. exfalso. apply Hq.
    by apply (list_elem_of_fmap_2 fst _ (q, s)).
  - by apply IH.
Qed.

(** Under the invariant two blocks of the client do not overlap. *)
Lemma invariant_live_disjoint sys live cls own p s q s' :
  invariant sys live cls own →
  (p, s) ∈ live → (q, s') ∈ live → p ≠ q →
  p + blockSize s <= q ∨ q + blockSize s' <= p.
Proof.
  intros Hinv Hp Hq Hne.
  destruct (inv_live _ _ _ _ Hinv _ _ Hp) as (_ & Hpc & _).
  destruct (inv_live _ _ _ _ Hinv _ _ Hq) as (_ & Hqc & _).
  apply (inv_disjoint _ _ _ _ Hinv _ _ _ _ Hpc Hqc Hne).
Qed.

(** A word inside a block of the client is not the first word of a block
    that a free list holds. *)
Lemma live_word_not_free sys live cls own q s a x i :
  invariant sys live cls own →
  (q, s) ∈ live → q <= a → a + 8 <= q + blockSize s →
  cls !! x = Some i → own !! x ≠ Some OLive → a ≠ x.
Proof.
  intros Hinv Hq Hlo Hhi Hx Hown ->.
  destruct (inv_live _ _ _ _ Hinv _ _ Hq) as (_ & Hqc & Hqo).
  destruct (inv_block _ _ _ _ Hinv _ _ Hx) as (Hi & _).
  assert (x ≠ q) as Hne by (intros ->; congruence).
  destruct (inv_disjoint _ _ _ _ Hinv _ _ _ _ Hx Hqc Hne) as [H|H];
    unfold blockSize, ALIGNMENT in *; lia.
Qed.

(** A call of [allocate] leads from a reachable state to a reachable
    state. *)
Lemma run_allocate_reachable t size os cfg :
  reachable cfg →
  0 <= size < 2 ^ 64 →
  mmap_ok (pageCache (shared cfg.1)) (pagesReceived (blockSize size)) os →
  reachable (run_allocate t size os cfg).
Proof.
  intros Hreach Hsize Hok. unfold run_allocate.
  destruct (allocate 0 os size (thread_cache cfg.1 t) (shared cfg.1))
    as [[[p tc'] sh']|] eqn:E; [|done].
  eapply reachable_step; [exact Hreach|].
  destruct cfg as [sys live]. simpl in *.
  by apply (step_allocate sys live t size 0 os p tc' sh').
Qed.

Lemma cfg_one_reachable : reachable cfg_one.
Proof.
  apply run_allocate_reachable; [apply rtc_refl|lia|].
  split; [lia|]. split; [reflexivity|]. intros a span sp H. done.
Qed.

Lemma cfg_two_reachable : reachable cfg_two.
Proof. apply run_allocate_reachable; [apply cfg_one_reachable|lia|done]. Qed.

Lemma cfg_one_live : cfg_one.2 = [(65536, 1024)].
Proof. vm_compute. reflexivity. Qed.

Lemma cfg_two_live : cfg_two.2 = [(66560, 1024); (65536, 1024)].
Proof. vm_compute. reflexivity. Qed.

Lemma cfg_one_list :
  chain (memory (shared cfg_one.1)) (slot (freeList_ (thread_cache cfg_one.1 1)) 127)
        [66560].
Proof.
  split; [vm_compute; reflexivity|]. split; [done|]. exists 0.
  split; [f_equal; vm_compute; reflexivity|reflexivity].
Qed.

End clients.

(** X16. In every state that the allocator reaches, the blocks that the
    client holds are apart: a block is not null, it lies with the whole
    extent of its size class inside a span of the pool, that extent holds
    the size asked for, and the extents of two blocks do not overlap. *)
Theorem live_blocks_disjoint (sys : System) (live : list (Z * Z))
    (p s q s' : Z) :
  reachable (sys, live) →
  (p, s) ∈ live → (q, s') ∈ live → (p, s) ≠ (q, s') →
  p ≠ 0 ∧ p ≠ q ∧ s <= blockSize s
  ∧ in_span (pageCache (shared sys)) p (p + blockSize s)
  ∧ (p + blockSize s <= q ∨ q + blockSize s' <= p).
Proof.
  intros Hreach Hp Hq Hne.
  destruct (reachable_invariant _ Hreach) as (cls & own & Hinv). simpl in Hinv.
  destruct (inv_live _ _ _ _ Hinv _ _ Hp) as (Hs & Hpc & _).
  destruct (inv_block _ _ _ _ Hinv _ _ Hpc) as (_ & _ & Hp0 & Hspan).
  assert (p ≠ q) as Hpq.
  { intros ->. apply Hne. f_equal.
    eapply NoDup_fst_eq; [apply (inv_live_NoDup _ _ _ _ Hinv)|done..]. }
  split; [lia|]. split; [done|].
  split; [by apply blockSize_range|]. split; [exact Hspan|].
  by eapply invariant_live_disjoint.
Qed.

Lemma live_blocks_disjoint_witness :
  66560 ≠ 0 ∧ 66560 ≠ 65536 ∧ 1024 <= blockSize 1024
  ∧ in_span (pageCache (shared cfg_two.1)) 66560 (66560 + blockSize 1024)
  ∧ (66560 + blockSize 1024 <= 65536 ∨ 65536 + blockSize 1024 <= 66560).
Proof.
  apply (live_blocks_disjoint cfg_two.1 cfg_two.2 66560 1024 65536 1024).
  - rewrite <- surjective_pairing. apply cfg_two_reachable.
  - rewrite cfg_two_live. here.
  - rewrite cfg_two_live. apply elem_of_cons. right. here.
  - congruence.
Defined.

(** X17. [allocate] never hands out memory that the client holds: in
    every state that the allocator reaches, a block that [allocate] returns
    does not overlap any block handed out before and not given back. *)
Theorem allocate_not_live (sys : System) (live : list (Z * Z))
    (t size heap : Z) (os : option Z) (p : Z) (tc' : ThreadCache) (sh' : Shared) :
  reachable (sys, live) →
  0 <= size <= MAX_BYTES →
  mmap_ok (pageCache (shared sys)) (pagesReceived (blockSize size)) os →
  allocate heap os size (thread_cache sys t) (shared sys) = Some (p, tc', sh') →
  p ≠ 0 →
  ∀ q s, (q, s) ∈ live →
    p + blockSize size <= q ∨ q + blockSize s <= p.
Proof.
  intros Hreach Hsize Hok Hrun Hp q s Hq.
  assert (0 <= size < 2 ^ 64) as Hsz by (change MAX_BYTES with 262144 in Hsize; lia).
  pose proof (reachable_step _ _ Hreach
                (step_allocate sys live t size heap os p tc' sh' Hsz Hok Hrun)) as Hreach'.
  rewrite decide_True in Hreach' by (split; [lia|done]).
  destruct (reachable_invariant _ Hreach') as (cls & own & Hinv). simpl in Hinv.
  eapply (invariant_live_disjoint _ _ _ _ p size q s Hinv); [here|there|].
  pose proof (inv_live_NoDup _ _ _ _ Hinv) as Hnd.
  rewrite fmap_cons in Hnd. apply NoDup_cons in Hnd as [Hnotin _]. simpl in Hnotin.
  intros ->. apply Hnotin. by apply (list_elem_of_fmap_2 fst _ (q, s)).
Qed.

Lemma allocate_not_live_witness :
  ∃ p tc' sh',
    allocate 0 None 1024 (thread_cache cfg_one.1 1) (shared cfg_one.1)
      = Some (p, tc', sh')
    ∧ p = 66560
    ∧ (p + blockSize 1024 <= 65536 ∨ 65536 + blockSize 1024 <= p).
Proof.
  eexists _, _, _. split; [vm_compute; reflexivity|]. split; [reflexivity|].
  eapply (allocate_not_live cfg_one.1 cfg_one.2 1 1024 0 None 66560).
  - rewrite <- surjective_pairing. apply cfg_one_reachable.
  - vm_compute. split; congruence.
  - done.
  - vm_compute. reflexivity.
  - lia.
  - rewrite cfg_one_live. here.
Defined.

(** X18. In every state that the allocator reaches, a block is in one free
    list at most, and a block in a free list is not held by the client: a
    block of the list of class [i] of the thread [t] is no block of the
    client, is in no central list, and is in no other list of a thread. *)
Theorem free_lists_exclusive (sys : System) (live : list (Z * Z))
    (t i : Z) (l : list Z) (a : Z) :
  reachable (sys, live) →
  chain (memory (shared sys)) (slot (freeList_ (thread_cache sys t)) i) l →
  a ∈ l →
  (a ∉ live.*1)
  ∧ (∀ j lc,
       chain (memory (shared sys)) (slot (centralFreeList_ (shared sys)) j) lc →
       a ∉ lc)
  ∧ (∀ t' j l',
       (t', j) ≠ (t, i) →
       chain (memory (shared sys)) (slot (freeList_ (thread_cache sys t')) j) l' →
       a ∉ l').
Proof.
  intros Hreach Hl Ha.
  destruct (reachable_invariant _ Hreach) as (cls & own & Hinv). simpl in Hinv.
  destruct (inv_thread _ _ _ _ Hinv t i) as (l0 & Hl0 & Hown).
  rewrite (chain_inj _ _ _ _ Hl Hl0) in Ha.
  destruct (Hown _ Ha) as [Hc Ho].
  split; [|split].
  - intros ((q & s) & Heq & Hin)%list_elem_of_fmap. simpl in Heq. subst q.
    destruct (inv_live _ _ _ _ Hinv _ _ Hin) as (_ & _ & Ho'). congruence.
  - intros j lc Hlc Hin.
    destruct (inv_central _ _ _ _ Hinv j) as (lc0 & Hlc0 & Hownc).
    rewrite (chain_inj _ _ _ _ Hlc Hlc0) in Hin.
    destruct (Hownc _ Hin) as [_ Ho']. congruence.
  - intros t' j l' Hne Hl' Hin.
    destruct (inv_thread _ _ _ _ Hinv t' j) as (l1 & Hl1 & Hown1).
    rewrite (chain_inj _ _ _ _ Hl' Hl1) in Hin.
    destruct (Hown1 _ Hin) as [Hc' Ho']. apply Hne. f_equal; congruence.
Qed.

Lemma free_lists_exclusive_witness :
  (66560 ∉ cfg_one.2.*1)
  ∧ (∀ j lc,
       chain (memory (shared cfg_one.1))
             (slot (centralFreeList_ (shared cfg_one.1)) j) lc →
       66560 ∉ lc)
  ∧ (∀ t' j l',
       (t', j) ≠ (1, 127) →
       chain (memory (shared cfg_one.1))
             (slot (freeList_ (thread_cache cfg_one.1 t')) j) l' →
       66560 ∉ l').
Proof.
  apply (free_lists_exclusive cfg_one.1 cfg_one.2 1 127 [66560] 66560).
  - rewrite <- surjective_pairing. apply cfg_one_reachable.
  - apply cfg_one_list.
  - here.
Defined.

(** X19. In every state that the allocator reaches, every list of a thread
    and every central list ends in null (it is finite and has no cycle),
    and the blocks of the list of class [i] are aligned to 8 bytes, lie with
    their [(i + 1) * ALIGNMENT] bytes inside a span of the pool, and do not
    overlap each other. *)
Theorem free_lists_well_formed (sys : System) (live : list (Z * Z)) (t i : Z) :
  reachable (sys, live) →
  let ok l :=
    ∀ a, a ∈ l →
      a mod ALIGNMENT = 0
      ∧ in_span (pageCache (shared sys)) a (a + (i + 1) * ALIGNMENT)
      ∧ ∀ a', a' ∈ l → a ≠ a' →
          a + (i + 1) * ALIGNMENT <= a' ∨ a' + (i + 1) * ALIGNMENT <= a in
  (∃ l, chain (memory (shared sys)) (slot (freeList_ (thread_cache sys t)) i) l
        ∧ ok l)
  ∧ (∃ lc, chain (memory (shared sys)) (slot (centralFreeList_ (shared sys)) i) lc
           ∧ ok lc).
Proof.
  intros Hreach ok.
  destruct (reachable_invariant _ Hreach) as (cls & own & Hinv). simpl in Hinv.
  assert (∀ l, (∀ a, a ∈ l → cls !! a = Some i) → ok l) as Hok.
  { intros l Hl a Ha.
    destruct (inv_block _ _ _ _ Hinv _ _ (Hl _ Ha)) as (_ & Hal & _ & Hspan).
    split; [done|]. split; [done|].
    intros a' Ha' Hne.
    apply (inv_disjoint _ _ _ _ Hinv _ _ _ _ (Hl _ Ha) (Hl _ Ha') Hne). }
  split.
  - destruct (inv_thread _ _ _ _ Hinv t i) as (l & Hl & Hown).
    exists l. split; [done|]. apply Hok. intros a Ha. by apply Hown.
  - destruct (inv_central _ _ _ _ Hinv i) as (l & Hl & Hown).
    exists l. split; [done|]. apply Hok. intros a Ha. by apply Hown.
Qed.

Lemma free_lists_well_formed_witness :
  let sys := cfg_one.1 in
  let ok l :=
    ∀ a, a ∈ l →
      a mod ALIGNMENT = 0
      ∧ in_span (pageCache (shared sys)) a (a + (127 + 1) * ALIGNMENT)
      ∧ ∀ a', a' ∈ l → a ≠ a' →
          a + (127 + 1) * ALIGNMENT <= a' ∨ a' + (127 + 1) * ALIGNMENT <= a in
  (∃ l, chain (memory (shared sys)) (slot (freeList_ (thread_cache sys 1)) 127) l
        ∧ ok l)
  ∧ (∃ lc, chain (memory (shared sys)) (slot (centralFreeList_ (shared sys)) 127) lc
           ∧ ok lc).
Proof.
  apply (free_lists_well_formed cfg_one.1 cfg_one.2 1 127).
  rewrite <- surjective_pairing. apply cfg_one_reachable.
Defined.

(** X20. In this version no tier gives a span back: in every state that
    the allocator reaches the page cache has no free span, so that each
    span is mapped by the system when it is first needed and stays with the
    central tier; every entry of [spanMap_] is the start address of a
    descriptor of one page or more. *)
Theorem page_cache_never_refilled (sys : System) (live : list (Z * Z)) :
  reachable (sys, live) →
  freeSpans_ (pageCache (shared sys)) = ∅
  ∧ ∀ a span, spanMap_ (pageCache (shared sys)) !! a = Some span →
      ∃ sp, descr (pageCache (shared sys)) !! span = Some sp
            ∧ pageAddr sp = a ∧ 0 < numPages sp.
Proof.
  intros Hreach.
  destruct (reachable_invariant _ Hreach) as (cls & own & Hinv). simpl in Hinv.
  split; [apply (inv_no_free_span _ _ _ _ Hinv)|apply (inv_spans _ _ _ _ Hinv)].
Qed.

Lemma page_cache_never_refilled_witness :
  freeSpans_ (pageCache (shared cfg_one.1)) = ∅
  ∧ ∀ a span, spanMap_ (pageCache (shared cfg_one.1)) !! a = Some span →
      ∃ sp, descr (pageCache (shared cfg_one.1)) !! span = Some sp
            ∧ pageAddr sp = a ∧ 0 < numPages sp.
Proof.
  apply (page_cache_never_refilled cfg_one.1 cfg_one.2).
  rewrite <- surjective_pairing. apply cfg_one_reachable.
Defined.

(** X21. In every state that the allocator reaches, [allocate] of at most
    [MAX_BYTES] bytes returns null in one case only: the list of the thread
    and the central list of the class are empty and [mmap] fails.  Then the
    thread cache and the shared tiers are left as they were. *)
Theorem allocate_null_iff (sys : System) (live : list (Z * Z))
    (t size heap : Z) (os : option Z) (p : Z) (tc' : ThreadCache) (sh' : Shared) :
  reachable (sys, live) →
  0 <= size <= MAX_BYTES →
  mmap_ok (pageCache (shared sys)) (pagesReceived (blockSize size)) os →
  allocate heap os size (thread_cache sys t) (shared sys) = Some (p, tc', sh') →
  let index := SizeClass.getIndex size in
  (p = 0 ↔
     os = None
     ∧ slot (freeList_ (thread_cache sys t)) index = 0
     ∧ slot (centralFreeList_ (shared sys)) index = 0)
  ∧ (p = 0 → tc' = thread_cache sys t ∧ sh' = shared sys).
Proof.
  intros Hreach Hs Hok Hrun index.
  destruct (reachable_invariant _ Hreach) as (cls & own & Hinv). simpl in Hinv.
  pose proof (getIndex_range size Hs) as Hi. fold index in Hi.
  rewrite (allocate_small heap os size _ _ Hs) in Hrun. cbv zeta in Hrun.
  fold index in Hrun.
  destruct (decide (slot (freeList_ (thread_cache sys t)) index ≠ 0)) as [Hptr|Hptr].
  { injection Hrun as <- <- <-. split; [|done]. split; [done|]. intros (_ & H & _). done. }
  assert (slot (freeList_ (thread_cache sys t)) index = 0) as Hempty.
  { destruct (decide (slot (freeList_ (thread_cache sys t)) index = 0)); [done|].
    exfalso. by apply Hptr. }
  destruct (decide (slot (centralFreeList_ (shared sys)) index = 0)) as [Hhead|Hhead].
  - destruct os as [m0|].
    + destruct (invariant_fetch_mapped sys live cls own t size m0 Hinv Hs Hempty Hhead Hok)
        as (tc0 & sh0 & cls' & own' & Hrun' & _).
      fold index in Hrun'. rewrite Hrun' in Hrun. injection Hrun as <- <- <-.
      destruct Hok as (Hm0 & _).
      split; [|lia]. split; [lia|]. intros (? & _). done.
    + rewrite fetchFromCentralCache_unfold in Hrun by done. cbv zeta in Hrun.
      rewrite fetchRange_fresh_fail in Hrun;
        [|done|apply getBatchNum_range|done|by destruct Hinv].
      simpl in Hrun. injection Hrun as <- <- <-.
      split; [done|]. intros _. split; [done|]. by destruct (shared sys).
  - destruct (invariant_fetch_existing sys live cls own t size os Hinv Hs Hempty Hhead)
      as (tc0 & sh0 & own' & Hrun' & _).
    fold index in Hrun'. rewrite Hrun' in Hrun. injection Hrun as <- <- <-.
    split; [|done]. split; [done|]. intros (_ & _ & H). done.
Qed.

Lemma allocate_null_iff_witness :
  (0 = 0 ↔
     @None Z = None
     ∧ slot (freeList_ (thread_cache initial 1)) (SizeClass.getIndex 100) = 0
     ∧ slot (centralFreeList_ (shared initial)) (SizeClass.getIndex 100) = 0)
  ∧ (0 = 0 → emptyThreadCache = thread_cache initial 1 ∧ emptyShared = shared initial).
Proof.
  apply (allocate_null_iff initial [] 1 100 0 None 0 emptyThreadCache emptyShared).
  - apply rtc_refl.
  - vm_compute. split; congruence.
  - done.
  - vm_compute. reflexivity.
Defined.

Section frames.

Implicit Types sys : System.

(** The words that [allocate] writes: first words of blocks in free
    lists, and the region that the system maps. *)
Lemma allocate_frame sys live cls own t size heap os p tc' sh' a :
  invariant sys live cls own →
  0 <= size <= MAX_BYTES →
  mmap_ok (pageCache (shared sys)) (pagesReceived (blockSize size)) os →
  allocate heap os size (thread_cache sys t) (shared sys) = Some (p, tc', sh') →
  (∀ x i, cls !! x = Some i → own !! x ≠ Some OLive → a ≠ x) →
  (∀ m0, os = Some m0 →
     ¬ (m0 <= a < m0 + pagesReceived (blockSize size) * PAGE_SIZE)) →
  load (memory sh') a = load (memory (shared sys)) a.
Proof.
  intros Hinv Hs Hok Hrun Hfree Hregion.
  set (index := SizeClass.getIndex size).
  pose proof (getIndex_range size Hs) as Hi. fold index in Hi.
  rewrite (allocate_small heap os size _ _ Hs) in Hrun. cbv zeta in Hrun.
  fold index in Hrun.
  destruct (decide (slot (freeList_ (thread_cache sys t)) index ≠ 0)) as [Hptr|Hptr].
  { by injection Hrun as <- <- <-. }
  set (sz := (index + 1) * ALIGNMENT).
  set (b := getBatchNum sz).
  pose proof (getBatchNum_range sz) as Hb. fold b in Hb.
  rewrite fetchFromCentralCache_unfold in Hrun by done. cbv zeta in Hrun.
  fold sz in Hrun. fold b in Hrun.
  destruct (decide (slot (centralFreeList_ (shared sys)) index = 0)) as [Hhead|Hhead].
  - destruct os as [m0|].
    + pose proof Hok as (Hm0 & _ & _).
      rewrite fetchRange_fresh_mapped in Hrun;
        [|done|lia|done|by destruct Hinv|lia].
      fold sz in Hrun. simpl in Hrun. rewrite decide_False in Hrun by lia.
      injection Hrun as <- <- <-. simpl.
      change (blockSize size) with sz in Hregion.
      specialize (Hregion m0 eq_refl).
      pose proof (block_size_range index Hi) as Hsz. fold sz in Hsz.
      pose proof (pagesReceived_range sz Hsz) as [Hn Hnsz].
      change MAX_BYTES with 262144 in Hsz. change PAGE_SIZE with 4096 in *.
      destruct (carve_spec m0 sz b index (centralFreeList_ (shared sys))
                  (memset0 (memory (shared sys)) m0 (wrap (pagesReceived sz * 4096)))
                  Hm0 ltac:(lia) ltac:(lia)) as (Hcf & _).
      rewrite Hcf.
      * apply load_memset0_out. rewrite wrap_small by lia. exact Hregion.
      * intros k Hk ->. apply Hregion.
        assert (totalBlocks sz * sz <= 32768) as Htot.
        { unfold totalBlocks. change (SPAN_PAGES * PAGE_SIZE) with 32768.
          rewrite Z.mul_comm. apply Z.mul_div_le. lia. }
        assert ((k + 1) * sz <= totalBlocks sz * sz) by nia. nia.
    + rewrite fetchRange_fresh_fail in Hrun;
        [|done|lia|done|by destruct Hinv].
      simpl in Hrun. by injection Hrun as <- <- <-.
  - destruct (inv_central _ _ _ _ Hinv index) as (lc & Hlc & Hown).
    destruct (fetchRange_existing os index b (shared sys) lc Hi ltac:(lia) Hhead Hlc)
      as (l1 & e & Htake & Hrun' & _).
    rewrite Hrun' in Hrun. simpl in Hrun. rewrite decide_False in Hrun by done.
    injection Hrun as <- <- <-. simpl.
    apply load_store_ne. intros <-.
    assert (e ∈ lc) as He.
    { rewrite <- (take_drop (Z.to_nat b) lc). apply elem_of_app. left.
      rewrite Htake. apply elem_of_app. right. here. }
    destruct (Hown _ He) as [Hc Ho].
    apply (Hfree e index Hc); [|done]. rewrite Ho. done.
Qed.

End frames.

(** X22. [allocate] does not write into memory that the client holds: in
    every state that the allocator reaches, a word that lies inside a block
    handed out before and not given back reads the same after the call. *)
Theorem allocate_preserves_live (sys : System) (live : list (Z * Z))
    (t size heap : Z) (os : option Z) (p : Z) (tc' : ThreadCache) (sh' : Shared)
    (q s a : Z) :
  reachable (sys, live) →
  0 <= size <= MAX_BYTES →
  mmap_ok (pageCache (shared sys)) (pagesReceived (blockSize size)) os →
  allocate heap os size (thread_cache sys t) (shared sys) = Some (p, tc', sh') →
  (q, s) ∈ live → q <= a → a + 8 <= q + blockSize s →
  load (memory sh') a = load (memory (shared sys)) a.
Proof.
  intros Hreach Hs Hok Hrun Hq Hlo Hhi.
  destruct (reachable_invariant _ Hreach) as (cls & own & Hinv). simpl in Hinv.
  eapply (allocate_frame sys live cls own); [done..| |].
  - intros x i Hx Hown. by eapply live_word_not_free.
  - intros m0 ->.
    destruct (inv_live _ _ _ _ Hinv _ _ Hq) as (_ & Hqc & _).
    pose proof (old_block_outside sys live cls own m0 _ q _ Hinv Hok Hqc) as Hout.
    unfold blockSize in Hhi. lia.
Qed.

Lemma allocate_preserves_live_witness :
  ∃ p tc' sh',
    allocate 0 None 1024 (thread_cache cfg_one.1 2) (shared cfg_one.1)
      = Some (p, tc', sh')
    ∧ p = 67584
    ∧ load (memory sh') 65544 = load (memory (shared cfg_one.1)) 65544.
Proof.
  eexists _, _, _. split; [vm_compute; reflexivity|]. split; [reflexivity|].
  eapply (allocate_preserves_live cfg_one.1 cfg_one.2 2 1024 0 None 67584 _ _
            65536 1024 65544).
  - rewrite <- surjective_pairing. apply cfg_one_reachable.
  - vm_compute. split; congruence.
  - done.
  - vm_compute. reflexivity.
  - rewrite cfg_one_live. here.
  - lia.
  - vm_compute. congruence.
Defined.

(** X23. [deallocate] does not write into memory that the client keeps:
    in every state that the allocator reaches, when the client gives back a
    block it holds with the size it asked for, a word that lies inside
    another block it holds reads the same after the call. *)
Theorem deallocate_preserves_live (sys : System) (live1 live2 : list (Z * Z))
    (t p size q s a : Z) :
  reachable (sys, live1 ++ (p, size) :: live2) →
  (q, s) ∈ live1 ++ live2 → q <= a → a + 8 <= q + blockSize s →
  load (memory (deallocate p size (thread_cache sys t) (shared sys)).2) a
  = load (memory (shared sys)) a.
Proof.
  intros Hreach Hq Hlo Hhi.
  destruct (reachable_invariant _ Hreach) as (cls & own & Hinv). simpl in Hinv.
  set (idx := SizeClass.getIndex size).
  assert ((p, size) ∈ live1 ++ (p, size) :: live2) as Hplive.
  { apply elem_of_app. right. here. }
  assert ((q, s) ∈ live1 ++ (p, size) :: live2) as Hqlive.
  { apply elem_of_app in Hq as [?|?]; apply elem_of_app; [by left|]. right. there. }
  destruct (inv_live _ _ _ _ Hinv _ _ Hplive) as (Hsize & Hpcls & Hpown).
  fold idx in Hpcls.
  destruct (inv_block _ _ _ _ Hinv _ _ Hpcls) as (Hidx & _ & Hp0 & _).
  destruct (inv_thread _ _ _ _ Hinv t idx) as (l & Hl & Hlown).
  destruct (inv_central _ _ _ _ Hinv idx) as (lc & Hlc & Hlcown).
  assert (p ∉ l) as Hpl.
  { intros Hin. destruct (Hlown _ Hin) as [_ Ho]. congruence. }
  assert (∀ x, x ∈ p :: l → x ∉ lc) as Hdisj.
  { intros x [->|Hx]%elem_of_cons Hin; destruct (Hlcown _ Hin) as [_ Ho'].
    - congruence.
    - destruct (Hlown _ Hx) as [_ Ho]. congruence. }
  destruct (deallocate_lists p size (thread_cache sys t) (shared sys) l lc
              Hsize ltac:(lia) Hl Hpl Hlc Hdisj)
    as (_ & _ & _ & _ & _ & _ & _ & Hframe & _).
  apply Hframe. intros [->|Hin]%elem_of_cons.
  - assert (p ≠ q) as Hne.
    { intros ->.
      pose proof (inv_live_NoDup _ _ _ _ Hinv) as Hnd.
      rewrite fmap_app, fmap_cons in Hnd. simpl in Hnd.
      apply NoDup_app in Hnd as (_ & Hd & Hnd2). apply NoDup_cons in Hnd2 as [Hp2 _].
      apply elem_of_app in Hq as [Hq|Hq].
      - apply (Hd q); [by apply (list_elem_of_fmap_2 fst _ (q, s))|here].
      - apply Hp2. by apply (list_elem_of_fmap_2 fst _ (q, s)). }
    destruct (invariant_live_disjoint _ _ _ _ p size q s Hinv Hplive Hqlive Hne) as [H|H].
    + pose proof (blockSize_range size Hsize). lia.
    + lia.
  - destruct (Hlown _ Hin) as [Hc Ho].
    apply (live_word_not_free _ _ _ _ q s a a idx Hinv Hqlive Hlo Hhi Hc); [|done].
    rewrite Ho. done.
Qed.

Lemma deallocate_preserves_live_witness :
  load (memory (deallocate 66560 1024 (thread_cache cfg_two.1 1) (shared cfg_two.1)).2)
       65536
  = load (memory (shared cfg_two.1)) 65536.
Proof.
  apply (deallocate_preserves_live cfg_two.1 [] [(65536, 1024)] 1 66560 1024
           65536 1024 65536).
  - simpl. rewrite <- cfg_two_live. rewrite <- surjective_pairing.
    apply cfg_two_reachable.
  - here.
  - lia.
  - vm_compute. congruence.
Defined.

(** ** MemoryPoolv1: the pool of slots *)

Section pool_v1.

Import MemoryPoolv1.

Lemma pushFreeList_spec fails slot pool m :
  pushFreeList fails slot pool m
  = (true, set_freeList slot pool, store m slot (freeList_ pool)).
Proof.
  revert m. induction fails as [|fails IH]; intros m; simpl; [done|].
  rewrite IH. unfold store. by rewrite insert_insert_eq.
Qed.

Lemma popFreeList_spec fails pool m :
  popFreeList fails pool m
  = if decide (freeList_ pool = 0) then (0, pool)
    else (freeList_ pool, set_freeList (load m (freeList_ pool)) pool).
Proof.
  induction fails as [|fails IH]; simpl; [done|].
  rewrite IH. by case_decide.
Qed.

Lemma padPointer_aligned p align :
  0 < align →
  ∃ pad,
    padPointer p align = Some pad
    ∧ 0 <= pad < align
    ∧ (p + pad) mod align = 0.
Proof.
  intros Ha. unfold padPointer. rewrite decide_False by lia.
  eexists. split; [reflexivity|].
  pose proof (Z.mod_pos_bound p align Ha) as Hr.
  pose proof (Z.div_mod p align ltac:(lia)) as Hp.
  destruct (decide (p mod align = 0)) as [H0|H0].
  - rewrite H0, Z.sub_0_r, Z.mod_same by lia.
    split; [lia|]. by rewrite Z.add_0_r.
  - rewrite (Z.mod_small (align - p mod align)) by lia.
    split; [lia|].
    replace (p + (align - p mod align)) with ((p / align + 1) * align) by lia.
    apply Z.mod_mul. lia.
Qed.

End pool_v1.

(** X24. [padPointer(p, align)] is the least number of bytes that brings
    [p] to a multiple of [align]: it is below [align], [p] plus the padding
    is a multiple of [align], and no smaller padding does that. *)
Theorem padPointer_least (p align : Z) :
  0 < align →
  ∃ pad,
    MemoryPoolv1.padPointer p align = Some pad
    ∧ 0 <= pad < align
    ∧ (p + pad) mod align = 0
    ∧ ∀ k, 0 <= k → (p + k) mod align = 0 → pad <= k.
Proof.
  intros Ha.
  destruct (padPointer_aligned p align Ha) as (pad & Hpad & Hrange & Hal).
  exists pad. split; [done|]. split; [done|]. split; [done|].
  intros k Hk Hmod.
  destruct (decide (pad <= k)) as [|Hlt]; [done|]. exfalso.
  assert ((p + pad) mod align = ((p + k) mod align + (pad - k)) mod align) as Heq.
  { rewrite Zplus_mod_idemp_l. f_equal. lia. }
  rewrite Hal, Hmod, Z.add_0_l, Z.mod_small in Heq by lia. lia.
Qed.

Lemma padPointer_least_witness :
  ∃ pad,
    MemoryPoolv1.padPointer 4104 48 = Some pad
    ∧ 0 <= pad < 48
    ∧ (4104 + pad) mod 48 = 0
    ∧ ∀ k, 0 <= k → (4104 + k) mod 48 = 0 → pad <= k.
Proof. apply (padPointer_least 4104 48). lia. Defined.

(** X25. [allocateNewBlock] puts the new block at the head of the chain of
    blocks (its first word points to the former first block) and sets up the
    cursor: [curSlot_] is the first multiple of [SlotSize_] behind the 8
    bytes of that pointer, and [lastSlot_] is one byte beyond the last
    address at which a whole slot still fits, so that a slot at [c] lies
    inside the block exactly when [c < lastSlot_].  The list of free slots
    is left alone. *)
Theorem allocateNewBlock_layout (newBlock : Z) (pool : MemoryPoolv1.MemoryPool)
    (m : gmap Z Z) :
  0 < MemoryPoolv1.SlotSize_ pool →
  0 <= newBlock →
  MemoryPoolv1.SlotSize_ pool <= newBlock + MemoryPoolv1.BlockSize_ pool + 1 →
  newBlock + MemoryPoolv1.BlockSize_ pool < 2 ^ 64 →
  ∃ pool' m',
    MemoryPoolv1.allocateNewBlock newBlock pool m = Some (pool', m')
    ∧ MemoryPoolv1.firstBlock_ pool' = newBlock
    ∧ load m' newBlock = MemoryPoolv1.firstBlock_ pool
    ∧ (∀ a, a ≠ newBlock → load m' a = load m a)
    ∧ MemoryPoolv1.freeList_ pool' = MemoryPoolv1.freeList_ pool
    ∧ MemoryPoolv1.SlotSize_ pool' = MemoryPoolv1.SlotSize_ pool
    ∧ MemoryPoolv1.BlockSize_ pool' = MemoryPoolv1.BlockSize_ pool
    ∧ MemoryPoolv1.curSlot_ pool' mod MemoryPoolv1.SlotSize_ pool = 0
    ∧ newBlock + 8 <= MemoryPoolv1.curSlot_ pool'
        < newBlock + 8 + MemoryPoolv1.SlotSize_ pool
    ∧ ∀ c, newBlock + 8 <= c →
        (c < MemoryPoolv1.lastSlot_ pool'
         ↔ MemoryPoolv1.slot_in_block pool' newBlock c).
Proof.
  intros Hs Hb Hfit Hbound.
  destruct (padPointer_aligned (newBlock + 8) (MemoryPoolv1.SlotSize_ pool) Hs)
    as (pad & Hpad & Hrange & Hal).
  unfold MemoryPoolv1.allocateNewBlock. rewrite Hpad. simpl.
  eexists _, _. split; [reflexivity|]. simpl.
  split; [done|]. split; [apply load_store_eq|].
  split; [intros a Ha; by apply load_store_ne|].
  split; [done|]. split; [done|]. split; [done|]. split; [done|].
  split; [lia|].
  intros c Hc. unfold MemoryPoolv1.slot_in_block. simpl.
  rewrite wrap_small by lia. lia.
Qed.

Lemma allocateNewBlock_layout_witness :
  let pool := MemoryPoolv1.mkMemoryPool 4096 48 0 0 0 0 in
  ∃ pool' m',
    MemoryPoolv1.allocateNewBlock 65552 pool ∅ = Some (pool', m')
    ∧ MemoryPoolv1.curSlot_ pool' = 65568
    ∧ MemoryPoolv1.curSlot_ pool' mod 48 = 0
    ∧ MemoryPoolv1.lastSlot_ pool' = 65552 + 4096 - 48 + 1.
Proof.
  destruct (allocateNewBlock_layout 65552 (MemoryPoolv1.mkMemoryPool 4096 48 0 0 0 0) ∅)
    as (pool' & m' & Hrun & _ & _ & _ & _ & _ & _ & Hal & _).
  - simpl. lia.
  - lia.
  - simpl. lia.
  - simpl. lia.
  - exists pool', m'. split; [exact Hrun|].
    vm_compute in Hrun. injection Hrun as <- <-. split; [reflexivity|].
    split; reflexivity.
Defined.

(** X26. [allocate] with an empty list of free slots and room in the
    current block hands out the slot at [curSlot_] without asking for a new
    block and without touching memory; the slot lies inside the block, and
    the cursor moves on by [SlotSize_] bytes.  (The cursor is a [Slot*] and
    moves by [SlotSize_ / sizeof(Slot)] slots; that is [SlotSize_] bytes when
    [SlotSize_] is a multiple of [sizeof(Slot)].)  So the slots handed out
    from one block are apart and keep the alignment of the first one. *)
Theorem allocate_bump (sizeofSlot : Z) (fails : nat) (newBlock block : Z)
    (pool : MemoryPoolv1.MemoryPool) (m : gmap Z Z) :
  MemoryPoolv1.freeList_ pool = 0 →
  0 < sizeofSlot → 0 < MemoryPoolv1.SlotSize_ pool →
  MemoryPoolv1.SlotSize_ pool mod sizeofSlot = 0 →
  MemoryPoolv1.lastSlot_ pool
    = block + MemoryPoolv1.BlockSize_ pool - MemoryPoolv1.SlotSize_ pool + 1 →
  block + 8 <= MemoryPoolv1.curSlot_ pool < MemoryPoolv1.lastSlot_ pool →
  MemoryPoolv1.allocate sizeofSlot fails newBlock pool m
    = Some (MemoryPoolv1.curSlot_ pool,
            MemoryPoolv1.set_curSlot
              (MemoryPoolv1.curSlot_ pool + MemoryPoolv1.SlotSize_ pool) pool,
            m)
  ∧ MemoryPoolv1.slot_in_block pool block (MemoryPoolv1.curSlot_ pool)
  ∧ (MemoryPoolv1.curSlot_ pool mod MemoryPoolv1.SlotSize_ pool = 0 →
     (MemoryPoolv1.curSlot_ pool + MemoryPoolv1.SlotSize_ pool)
       mod MemoryPoolv1.SlotSize_ pool = 0).
Proof.
  intros Hfree Hsz Hs Hdiv Hlast Hcur.
  unfold MemoryPoolv1.allocate. rewrite popFreeList_spec.
  rewrite decide_True by done. rewrite decide_False by (intros H; by apply H).
  rewrite decide_False by lia. simpl.
  assert (MemoryPoolv1.SlotSize_ pool / sizeofSlot * sizeofSlot
          = MemoryPoolv1.SlotSize_ pool) as ->.
  { pose proof (Z.div_mod (MemoryPoolv1.SlotSize_ pool) sizeofSlot ltac:(lia)). lia. }
  split; [done|]. split.
  - unfold MemoryPoolv1.slot_in_block. lia.
  - intros Hal.
    rewrite <- Zplus_mod_idemp_l. rewrite Hal. simpl. apply Z.mod_same. lia.
Qed.

Lemma allocate_bump_witness :
  let pool := MemoryPoolv1.mkMemoryPool 4096 48 65552 65568 0 69601 in
  MemoryPoolv1.allocate 8 0 0 pool ∅
    = Some (65568, MemoryPoolv1.set_curSlot (65568 + 48) pool, ∅)
  ∧ MemoryPoolv1.slot_in_block pool 65552 65568
  ∧ (65568 mod 48 = 0 → (65568 + 48) mod 48 = 0).
Proof.
  apply (allocate_bump 8 0 0 65552 (MemoryPoolv1.mkMemoryPool 4096 48 65552 65568 0 69601) ∅).
  - reflexivity.
  - lia.
  - simpl. lia.
  - reflexivity.
  - reflexivity.
  - simpl. lia.
Defined.

(** X27. The list of free slots is a stack, whatever the number of
    failed exchanges: after [deallocate(ptr)] with [ptr] not null,
    [allocate] returns [ptr] without taking a slot from a block, and the
    pool is what it was before the two calls; in memory only the first word
    of [ptr] may differ.  [deallocate(nullptr)] does nothing. *)
Theorem deallocate_allocate_v1 (sizeofSlot : Z) (fails fails' : nat)
    (newBlock ptr : Z) (pool : MemoryPoolv1.MemoryPool) (m : gmap Z Z) :
  ptr ≠ 0 →
  let r := MemoryPoolv1.deallocate fails ptr pool m in
  MemoryPoolv1.allocate sizeofSlot fails' newBlock r.1 r.2 = Some (ptr, pool, r.2)
  ∧ MemoryPoolv1.freeList_ r.1 = ptr
  ∧ load r.2 ptr = MemoryPoolv1.freeList_ pool
  ∧ (∀ a, a ≠ ptr → load r.2 a = load m a)
  ∧ MemoryPoolv1.deallocate fails 0 pool m = (pool, m).
Proof.
  intros Hptr r. unfold r, MemoryPoolv1.deallocate.
  rewrite decide_False by done. rewrite decide_True by done.
  rewrite pushFreeList_spec. simpl.
  unfold MemoryPoolv1.allocate. rewrite popFreeList_spec. simpl.
  rewrite decide_False by done. rewrite decide_True by done.
  rewrite load_store_eq.
  split; [by destruct pool|]. split; [done|]. split; [done|].
  split; [|done]. intros a Ha. by apply load_store_ne.
Qed.

Lemma deallocate_allocate_v1_witness :
  let pool := MemoryPoolv1.mkMemoryPool 4096 48 65552 65664 65568 69601 in
  let r := MemoryPoolv1.deallocate 3 65616 pool ∅ in
  MemoryPoolv1.allocate 8 2 0 r.1 r.2 = Some (65616, pool, r.2)
  ∧ MemoryPoolv1.freeList_ r.1 = 65616
  ∧ load r.2 65616 = 65568.
Proof.
  destruct (deallocate_allocate_v1 8 3 2 0 65616
              (MemoryPoolv1.mkMemoryPool 4096 48 65552 65664 65568 69601) ∅)
    as (H1 & H2 & H3 & _).
  - lia.
  - split; [exact H1|]. split; [exact H2|exact H3].
Defined.

(** X28. [allocate] with an empty list of free slots and no room left in
    the current block (as right after [init]) takes a new block and hands
    out its first slot: the first multiple of [SlotSize_] behind the 8 bytes
    of the link.  The test for room is not repeated on the new block; the
    slot lies inside it when the block has [2 * SlotSize_ + 7] bytes or
    more. *)
Theorem allocate_new_block (sizeofSlot : Z) (fails : nat) (newBlock : Z)
    (pool : MemoryPoolv1.MemoryPool) (m : gmap Z Z) :
  MemoryPoolv1.freeList_ pool = 0 →
  MemoryPoolv1.lastSlot_ pool <= MemoryPoolv1.curSlot_ pool →
  0 < MemoryPoolv1.SlotSize_ pool →
  ∃ c pool' m',
    MemoryPoolv1.allocate sizeofSlot fails newBlock pool m = Some (c, pool', m')
    ∧ c mod MemoryPoolv1.SlotSize_ pool = 0
    ∧ newBlock + 8 <= c < newBlock + 8 + MemoryPoolv1.SlotSize_ pool
    ∧ MemoryPoolv1.firstBlock_ pool' = newBlock
    ∧ load m' newBlock = MemoryPoolv1.firstBlock_ pool
    ∧ (2 * MemoryPoolv1.SlotSize_ pool + 7 <= MemoryPoolv1.BlockSize_ pool →
       MemoryPoolv1.slot_in_block pool newBlock c)
    ∧ (∀ size pool0,
         MemoryPoolv1.freeList_ (MemoryPoolv1.init size pool0) = 0
         ∧ MemoryPoolv1.lastSlot_ (MemoryPoolv1.init size pool0)
           <= MemoryPoolv1.curSlot_ (MemoryPoolv1.init size pool0)).
Proof.
  intros Hfree Hfull Hs.
  destruct (padPointer_aligned (newBlock + 8) (MemoryPoolv1.SlotSize_ pool) Hs)
    as (pad & Hpad & Hrange & Hal).
  unfold MemoryPoolv1.allocate. rewrite !popFreeList_spec. simpl.
  rewrite Hfree. simpl. rewrite decide_True by done.
  unfold MemoryPoolv1.allocateNewBlock. simpl. rewrite Hpad. simpl.
  eexists _, _, _. split; [reflexivity|].
  split; [done|]. split; [lia|]. split; [done|].
  split; [apply load_store_eq|]. split.
  - intros Hb. unfold MemoryPoolv1.slot_in_block. lia.
  - intros size pool0. simpl. split; [done|lia].
Qed.

Lemma allocate_new_block_witness :
  let pool := MemoryPoolv1.init 48 (MemoryPoolv1.mkMemoryPool 4096 0 0 0 0 0) in
  ∃ c pool' m',
    MemoryPoolv1.allocate 8 0 65552 pool ∅ = Some (c, pool', m')
    ∧ c mod 48 = 0
    ∧ 65552 + 8 <= c < 65552 + 8 + 48
    ∧ MemoryPoolv1.firstBlock_ pool' = 65552.
Proof.
  destruct (allocate_new_block 8 0 65552
              (MemoryPoolv1.init 48 (MemoryPoolv1.mkMemoryPool 4096 0 0 0 0 0)) ∅)
    as (c & pool' & m' & H1 & H2 & H3 & H4 & _).
  - reflexivity.
  - simpl. lia.
  - simpl. lia.
  - exists c, pool', m'. done.
Defined.

(** ** The central cache that tracks spans *)

Section tracked.

Import TrackedCentralCache.

Lemma getSpanTracker_from_spec n i trackers blockAddr :
  (i + n <= length trackers)%nat →
  (∃ k tr, getSpanTracker_from n i trackers blockAddr = Some (Some k)
     ∧ (i <= k < i + n)%nat
     ∧ trackers !! k = Some tr ∧ SpanTracker.covers tr blockAddr
     ∧ ∀ j tr', (i <= j < k)%nat → trackers !! j = Some tr' →
         ¬ SpanTracker.covers tr' blockAddr)
  ∨ (getSpanTracker_from n i trackers blockAddr = Some None
     ∧ ∀ j tr', (i <= j < i + n)%nat → trackers !! j = Some tr' →
         ¬ SpanTracker.covers tr' blockAddr).
Proof.
  revert i. induction n as [|n IH]; intros i Hlen; simpl.
  - right. split; [done|]. intros; lia.
  - destruct (lookup_lt_is_Some_2 trackers i ltac:(lia)) as [tr Htr].
    rewrite Htr. simpl. case_decide as Hc.
    + left. exists i, tr. split; [done|]. split; [lia|]. split; [done|].
      split; [done|]. intros; lia.
    + destruct (IH (S i) ltac:(lia)) as [(k & tr1 & Hrun & Hk & Hk1 & Hc1 & Hmin)|[Hrun Hnone]].
      * left. exists k, tr1. split; [done|]. split; [lia|]. split; [done|].
        split; [done|]. intros j tr' Hj Hj'.
        destruct (decide (j = i)) as [->|Hne]; [congruence|].
        apply (Hmin j tr'); [lia|done].
      * right. split; [done|]. intros j tr' Hj Hj'.
        destruct (decide (j = i)) as [->|Hne]; [congruence|].
        apply (Hnone j tr'); [lia|done].
Qed.

(** The removal behind a block that stays. *)
Lemma remove_blocks_behind fuel lo hi l m current prev nh :
  chain m current l → prev ∉ l → prev ≠ 0 → load m prev = current →
  (length l < fuel)%nat →
  ∃ m',
    remove_blocks fuel lo hi m current prev nh = Some (nh, m')
    ∧ chain m' prev (prev :: filter (λ a, ¬ lo <= a < hi) l)
    ∧ ∀ a, a ∉ prev :: l → load m' a = load m a.
Proof.
  revert fuel m current prev. induction l as [|a l IH];
    intros fuel m current prev Hc Hprev Hp0 Hload Hfuel.
  - apply chain_nil_inv in Hc. subst current.
    destruct fuel as [|fuel]; [simpl in Hfuel; lia|]. simpl.
    exists m. split; [done|]. split; [|done].
    apply chain_cons; [done|]. by rewrite Hload.
  - pose proof (chain_NoDup _ _ _ Hc) as Hnd. apply NoDup_cons in Hnd as [Hal Hnd].
    apply chain_cons_inv in Hc as (-> & Ha0 & Hc).
    apply not_elem_of_cons in Hprev as [Hpa Hpl].
    destruct fuel as [|fuel]; [simpl in Hfuel; lia|]. simpl in Hfuel. simpl.
    rewrite decide_False by done.
    destruct (decide (lo <= a < hi)) as [Hin|Hout].
    + rewrite decide_True by done.
      destruct (IH fuel (store m prev (load m a)) (load m a) prev) as (m' & Hrun & Hch & Hfr).
      * by apply chain_store.
      * done.
      * done.
      * apply load_store_eq.
      * lia.
      * exists m'. split; [done|]. rewrite filter_cons_False by tauto.
        split; [done|]. intros x Hx. rewrite Hfr.
        -- apply load_store_ne. intros ->. apply Hx. here.
        -- intros Hx'. apply Hx. apply elem_of_cons in Hx' as [->|Hx']; [here|].
           apply elem_of_cons. right. there.
    + destruct (IH fuel m (load m a) a) as (m' & Hrun & Hch & Hfr);
        [done|done|done|done|lia|].
      exists m'. split; [done|]. rewrite filter_cons_True by done.
      split.
      * apply chain_cons; [done|]. rewrite Hfr; [by rewrite Hload|].
        intros [->|Hx]%elem_of_cons; done.
      * intros x Hx. apply Hfr. intros Hx'. apply Hx. there.
Qed.

(** The removal at the head of the list, where [prev] is still null. *)
Lemma remove_blocks_head fuel lo hi l m current nh :
  chain m current l → (length l < fuel)%nat →
  ∃ nh' m',
    remove_blocks fuel lo hi m current 0 nh = Some (nh', m')
    ∧ nh' = match l with
            | [] => nh
            | a :: _ => if decide (lo <= a < hi)
                        then hd_ptr (filter (λ a, ¬ lo <= a < hi) l)
                        else nh
            end
    ∧ chain m' (hd_ptr (filter (λ a, ¬ lo <= a < hi) l))
            (filter (λ a, ¬ lo <= a < hi) l)
    ∧ ∀ a, a ∉ l → load m' a = load m a.
Proof.
  revert fuel m current nh. induction l as [|a l IH];
    intros fuel m current nh Hc Hfuel.
  - apply chain_nil_inv in Hc. subst current.
    destruct fuel as [|fuel]; [simpl in Hfuel; lia|]. simpl.
    exists nh, m. done.
  - pose proof (chain_NoDup _ _ _ Hc) as Hnd. apply NoDup_cons in Hnd as [Hal Hnd].
    apply chain_cons_inv in Hc as (-> & Ha0 & Hc).
    destruct fuel as [|fuel]; [simpl in Hfuel; lia|]. simpl in Hfuel. simpl.
    rewrite decide_False by done.
    destruct (decide (lo <= a < hi)) as [Hin|Hout].
    + destruct (IH fuel m (load m a) (load m a) Hc ltac:(lia))
        as (nh' & m' & Hrun & Hnh & Hch & Hfr).
      exists nh', m'. split; [done|]. rewrite filter_cons_False by tauto.
      split; [|split; [done|]].
      * rewrite Hnh. destruct l as [|b l]; [by apply chain_nil_inv in Hc|].
        apply chain_cons_inv in Hc as (Hb & _).
        case_decide as Hb'; [done|].
        rewrite filter_cons_True by done. done.
      * intros x Hx. apply Hfr. intros Hx'. apply Hx. there.
    + destruct (remove_blocks_behind fuel lo hi l m (load m a) a nh)
        as (m' & Hrun & Hch & Hfr); [done|done|done|done|lia|].
      exists nh, m'. split; [done|]. split; [done|].
      rewrite filter_cons_True by done. split; [done|done].
Qed.

End tracked.

Section tracked_more.

Import TrackedCentralCache.

Lemma getSpanTracker_from_overrun n i trackers blockAddr :
  (i <= length trackers < i + n)%nat →
  (∀ j tr, trackers !! j = Some tr → ¬ SpanTracker.covers tr blockAddr) →
  getSpanTracker_from n i trackers blockAddr = None.
Proof.
  revert i. induction n as [|n IH]; intros i Hi Hnone; [lia|]. simpl.
  destruct (trackers !! i) as [tr|] eqn:Htr; [|done]. simpl.
  rewrite decide_False by (by eapply Hnone).
  apply IH; [|done]. apply lookup_lt_Some in Htr. lia.
Qed.

End tracked_more.

(** X29. [getSpanTracker] returns the first tracker, among the
    [spanCount_] trackers in use, whose span covers the address, and null
    when none of them does.  Nothing bounds [spanCount_] by the size of the
    array: when it is larger and no tracker of the array covers the address,
    the search reads behind the end of the array. *)
Theorem getSpanTracker_first (cc : TrackedCentralCache.CentralCache)
    (blockAddr : Z) :
  0 <= TrackedCentralCache.spanCount_ cc →
  let trackers := TrackedCentralCache.spanTrackers_ cc in
  let n := Z.to_nat (TrackedCentralCache.spanCount_ cc) in
  ((n <= length trackers)%nat →
     (∃ k tr,
        TrackedCentralCache.getSpanTracker cc blockAddr = Some (Some k)
        ∧ (k < n)%nat ∧ trackers !! k = Some tr
        ∧ SpanTracker.covers tr blockAddr
        ∧ ∀ j tr', (j < k)%nat → trackers !! j = Some tr' →
            ¬ SpanTracker.covers tr' blockAddr)
     ∨ (TrackedCentralCache.getSpanTracker cc blockAddr = Some None
        ∧ ∀ j tr', (j < n)%nat → trackers !! j = Some tr' →
            ¬ SpanTracker.covers tr' blockAddr))
  ∧ ((length trackers < n)%nat →
     (∀ j tr, trackers !! j = Some tr → ¬ SpanTracker.covers tr blockAddr) →
     TrackedCentralCache.getSpanTracker cc blockAddr = None).
Proof.
  intros Hcount trackers n. split.
  - intros Hn.
    destruct (getSpanTracker_from_spec n 0 trackers blockAddr ltac:(lia))
      as [(k & tr & Hrun & Hk & Hk1 & Hc & Hmin)|[Hrun Hnone]].
    + left. exists k, tr. split; [done|]. split; [lia|]. split; [done|].
      split; [done|]. intros j tr' Hj. apply Hmin. lia.
    + right. split; [done|]. intros j tr' Hj. apply Hnone. lia.
  - intros Hn Hnone. subst trackers n.
    apply getSpanTracker_from_overrun; [lia|done].
Qed.

Lemma getSpanTracker_first_witness :
  let cc := TrackedCentralCache.mkCentralCache ∅
              [SpanTracker.mk 65536 8 4 3; SpanTracker.mk 98304 8 4 3] 2 in
  (∃ k, TrackedCentralCache.getSpanTracker cc 98312 = Some (Some k))
  ∧ TrackedCentralCache.getSpanTracker cc 4096 = Some None.
Proof.
  split.
  - destruct (getSpanTracker_first
                (TrackedCentralCache.mkCentralCache ∅
                   [SpanTracker.mk 65536 8 4 3; SpanTracker.mk 98304 8 4 3] 2)
                98312 ltac:(simpl; lia)) as [H _].
    cbv zeta.
    destruct H as [(k & tr & Hrun & _)|[Hrun _]]; [vm_compute; lia|by exists k|].
    vm_compute in Hrun. congruence.
  - reflexivity.
Defined.

(** X30. [updateSpanFreeCount] adds [newFreeBlocks] to the count of the
    tracker.  When the sum is not the number of blocks of the span, nothing
    else happens.  When it is, the blocks of the span are unlinked from the
    central list and the span goes to [deallocateSpan]: the blocks that stay
    remain linked in memory in their order, but the new head is stored
    correctly only when the former head was a block of the span; when the
    former head stays, [newHead] is never set and the central list becomes
    empty, so that the blocks that stay are lost. *)
Theorem updateSpanFreeCount_removes (fuel fuelSpans tracker : nat)
    (newFreeBlocks index : Z) (cc : TrackedCentralCache.CentralCache)
    (pc : PageCache) (m : gmap Z Z) (tr : SpanTracker.t) (l : list Z) :
  TrackedCentralCache.spanTrackers_ cc !! tracker = Some tr →
  chain m (slot (TrackedCentralCache.centralFreeList_ cc) index) l →
  (length l < fuel)%nat →
  let newFreeCount := wrap (SpanTracker.freeCount tr + newFreeBlocks) in
  let trackers :=
    <[tracker := SpanTracker.set_freeCount newFreeCount tr]>
      (TrackedCentralCache.spanTrackers_ cc) in
  let kept := filter (λ a, ¬ SpanTracker.covers tr a) l in
  (newFreeCount ≠ SpanTracker.blockCount tr →
     TrackedCentralCache.updateSpanFreeCount fuel fuelSpans tracker
       newFreeBlocks index cc pc m
     = Some ({| TrackedCentralCache.centralFreeList_ :=
                  TrackedCentralCache.centralFreeList_ cc;
                TrackedCentralCache.spanTrackers_ := trackers;
                TrackedCentralCache.spanCount_ :=
                  TrackedCentralCache.spanCount_ cc |}, pc, m))
  ∧ (newFreeCount = SpanTracker.blockCount tr →
     ∃ newHead m',
       TrackedCentralCache.updateSpanFreeCount fuel fuelSpans tracker
         newFreeBlocks index cc pc m
       = (pc' ← deallocateSpan fuelSpans (SpanTracker.spanAddr tr)
                  (SpanTracker.numPages tr) pc;
          Some ({| TrackedCentralCache.centralFreeList_ :=
                     <[index := newHead]>
                       (TrackedCentralCache.centralFreeList_ cc);
                   TrackedCentralCache.spanTrackers_ := trackers;
                   TrackedCentralCache.spanCount_ :=
                     TrackedCentralCache.spanCount_ cc |}, pc', m'))
       ∧ chain m' (hd_ptr kept) kept
       ∧ (∀ a, a ∉ l → load m' a = load m a)
       ∧ newHead = match l with
                   | [] => 0
                   | a :: _ => if decide (SpanTracker.covers tr a)
                               then hd_ptr kept else 0
                   end).
Proof.
  intros Htr Hl Hfuel newFreeCount trackers kept.
  unfold TrackedCentralCache.updateSpanFreeCount. rewrite Htr. simpl.
  fold newFreeCount. split; intros Hcount.
  - by rewrite decide_False.
  - rewrite decide_True by done.
    destruct (remove_blocks_head fuel (SpanTracker.spanAddr tr)
                (SpanTracker.spanAddr tr
                 + wrap (SpanTracker.numPages tr * PAGE_SIZE))
                l m _ 0 Hl Hfuel) as (nh & m' & Hrun & Hnh & Hch & Hfr).
    exists nh, m'. rewrite Hrun. simpl. split; [done|].
    split; [exact Hch|]. split; [exact Hfr|]. exact Hnh.
Qed.

Lemma updateSpanFreeCount_removes_witness :
  let tr := SpanTracker.mk 4104 1 3 1 in
  let cc := TrackedCentralCache.mkCentralCache {[ 0 := 4096 ]} [tr] 1 in
  ∃ cc' m',
    TrackedCentralCache.updateSpanFreeCount 4 1 0 2 0 cc emptyPageCache
      (memory sh_three) = Some (cc', emptyPageCache, m')
    ∧ slot (TrackedCentralCache.centralFreeList_ cc') 0 = 0
    ∧ filter (λ a, ¬ SpanTracker.covers tr a) [4096; 4104; 4112] = [4096]
    ∧ chain m' 4096 [4096].
Proof.
  cbv zeta.
  destruct (updateSpanFreeCount_removes 4 1 0 2 0
              (TrackedCentralCache.mkCentralCache {[ 0 := 4096 ]}
                 [SpanTracker.mk 4104 1 3 1] 1)
              emptyPageCache (memory sh_three) (SpanTracker.mk 4104 1 3 1)
              [4096; 4104; 4112]) as [_ H].
  - reflexivity.
  - split; [reflexivity|]. split; [done|]. exists 4104. split; [reflexivity|].
    split; [reflexivity|]. split; [done|]. exists 4112. split; [reflexivity|].
    split; [reflexivity|]. split; [done|]. exists 0. split; reflexivity.
  - simpl. lia.
  - destruct (H eq_refl) as (newHead & m' & Hrun & Hch & _ & Hnh).
    assert (filter (λ a, ¬ SpanTracker.covers (SpanTracker.mk 4104 1 3 1) a)
                   [4096; 4104; 4112] = [4096]) as Hkept by reflexivity.
    rewrite Hkept in Hch. vm_compute in Hnh. subst newHead.
    eexists _, m'. split; [exact Hrun|]. split; [reflexivity|].
    split; [exact Hkept|]. exact Hch.
Defined.
